(** * lockfreestocks: the bounded MPSC order queue and the per-ticker matcher

    A shallow embedding of [lockfreestocks.c].  The queue operations
    [initQueue], [enqueue] and [dequeue], the order book
    ([buyQueues], [sellQueues], [initOrderBook]), the submission entry
    point [addOrder] and the matching pass [matchOrders] are transcribed
    as functions over explicit state.  What the program prints is kept
    as a list of [event]s next to the order book.

    The functions describe one thread running an operation to its end
    (no other thread takes a step in between).  The C11 memory orders
    of the atomic accesses have no counterpart here. *)

From Stdlib Require Import ZArith Lia Ascii SpecFloat.
From stdpp Require Import base tactics option numbers list.
From stdpp Require Import sorting.

Local Open Scope Z_scope.

(** ** Machine integers *)

Definition INT_MIN : Z := -2147483648.
Definition INT_MAX : Z := 2147483647.

(** The value of a 32-bit [int] operation whose mathematical result is
    [z] (two's complement wrap-around). *)
Definition wrap32 (z : Z) : Z := (z + 2147483648) `mod` 4294967296 - 2147483648.

Definition int_range (z : Z) : Prop := INT_MIN ≤ z ≤ INT_MAX.

(** ** Doubles

    [double] values are IEEE-754 binary64 numbers, represented by the
    standard library's [spec_float].  The program only converts ints to
    doubles, compares doubles and casts them back to [int]. *)

Definition double : Type := spec_float.

(** [(double) z] for an int [z]. *)
Definition double_of_int (z : Z) : double := binary_normalize 53 1024 z 0 false.

(** [a >= b] on doubles; false as soon as one side is a NaN. *)
Definition double_ge (a b : double) : bool := SFleb b a.

(** [(int) d]: truncation toward zero.  When the truncated value does
    not fit an [int], or [d] is an infinity or a NaN, the C standard
    leaves the cast undefined; the model takes what the x86-64
    conversion instruction delivers then, [INT_MIN]. *)
Definition double_to_int (d : double) : Z :=
  match d with
  | S754_zero _ => 0
  | S754_finite s m e =>
      let v := cond_Zopp s (Z.shiftl (Z.pos m) e) in
      if decide (INT_MIN ≤ v ≤ INT_MAX) then v else INT_MIN
  | S754_infinity _ | S754_nan => INT_MIN
  end.

(** ** Outcomes of a call

    A call either returns, or goes wrong in one of the ways below. *)

Inductive fault : Type :=
  | Spins          (* waits forever for another thread to publish *)
  | OutOfBounds    (* array index outside the array *)
  | DivFault       (* [%] by zero, or INT_MIN % -1 *)
  | OutOfFuel.     (* a loop of the model ran out of iterations *)

Inductive res (A : Type) : Type :=
  | Ok (a : A)
  | Fault (f : fault).
Arguments Ok {A} a.
Arguments Fault {A} f.

Global Instance res_ret : MRet res := λ A a, Ok a.
Global Instance res_bind : MBind res := λ A B k m,
  match m with
  | Ok a => k a
  | Fault f => Fault f
  end.

(** [a[i]] and [a[i] = x] on a C array held as a list. *)
Definition array_get {A} (a : list A) (i : Z) : res A :=
  if decide (0 ≤ i) then
    match a !! Z.to_nat i with
    | Some x => Ok x
    | None => Fault OutOfBounds
    end
  else Fault OutOfBounds.

Definition array_set {A} (a : list A) (i : Z) (x : A) : res (list A) :=
  if decide (0 ≤ i < Z.of_nat (length a)) then Ok (<[Z.to_nat i := x]> a)
  else Fault OutOfBounds.

(** [a % b] on ints: the remainder of the division truncated toward zero. *)
Definition c_rem (a b : Z) : res Z :=
  if decide (b = 0 ∨ (a = INT_MIN ∧ b = -1)) then Fault DivFault
  else Ok (Z.rem a b).

(** ** Constants and data *)

Definition NUM_TICKERS : Z := 1024.
Definition QUEUE_CAPACITY : Z := 128.

Record Order : Type := {
  type : ascii;      (* 'B' for Buy, 'S' for Sell *)
  ticker : Z;
  quantity : Z;
  price : double
}.

Record MinimalQueue : Type := {
  orders : list Order;     (* Order orders[QUEUE_CAPACITY] *)
  head : Z;                (* consumer index *)
  tail : Z;                (* commit index *)
  tailReservation : Z;     (* reservation index *)
  capacity : Z
}.

(** A zero-initialised [Order], the content of static storage. *)
Definition zero_order : Order :=
  {| type := "000"%char; ticker := 0; quantity := 0; price := S754_zero false |}.

(** A [MinimalQueue] in static storage before [initQueue]. *)
Definition zero_queue : MinimalQueue :=
  {| orders := replicate (Z.to_nat QUEUE_CAPACITY) zero_order;
     head := 0; tail := 0; tailReservation := 0; capacity := 0 |}.

Definition initQueue (q : MinimalQueue) (capacity : Z) : MinimalQueue :=
  {| orders := orders q; head := 0; tail := 0; tailReservation := 0;
     capacity := capacity |}.

(** [enqueue], run by one thread with no other thread active.
    - The compare-and-swap on [tailReservation] meets the value just
      read, so the reservation loop is left on its first round (a weak
      compare-and-swap that fails spuriously only repeats the round on
      the same values).
    - The wait [while (tail != pos);] ends at once when [tail = pos] and
      never otherwise. *)
Definition enqueue (q : MinimalQueue) (order : Order) : res (bool * MinimalQueue) :=
  let pos := tailReservation q in
  let head := head q in
  if decide (wrap32 (pos - head) >= capacity q) then Ok (false, q)
  else
    idx ← c_rem pos (capacity q);
    slots ← array_set (orders q) idx order;
    if decide (tail q = pos) then
      Ok (true, {| orders := slots; head := head; tail := wrap32 (pos + 1);
                   tailReservation := wrap32 (pos + 1); capacity := capacity q |})
    else Fault Spins.

(** [dequeue]: [None] is the C function returning false, [Some o] is it
    returning true with [*order = o]. *)
Definition dequeue (q : MinimalQueue) : res (option Order * MinimalQueue) :=
  let head := head q in
  let tail := tail q in
  if decide (head = tail) then Ok (None, q)
  else
    idx ← c_rem head (capacity q);
    o ← array_get (orders q) idx;
    Ok (Some o, {| orders := orders q; head := wrap32 (head + 1); tail := tail;
                   tailReservation := tailReservation q; capacity := capacity q |}).

(** ** The order book and the program's output *)

Record OrderBook : Type := {
  buyQueues : list MinimalQueue;     (* MinimalQueue buyQueues[NUM_TICKERS] *)
  sellQueues : list MinimalQueue     (* MinimalQueue sellQueues[NUM_TICKERS] *)
}.

(** The lines the program prints. *)
Inductive event : Type :=
  | QueueFullMsg (ticker : Z)
      (* "Queue for ticker %d is full. Order dropped." *)
  | OrderAddedMsg (orderType : ascii) (ticker quantity : Z) (price : double)
      (* "Order added: %c Ticker: %d Qty: %d Price: %.2f" *)
  | MatchedMsg (ticker matchedQty : Z) (price : double).
      (* "Matched Ticker %d: %d shares at $%.2f" *)

Record state : Type := {
  book : OrderBook;
  stdout : list event
}.

(** The two global arrays in static storage, before [initOrderBook]. *)
Definition zero_book : OrderBook :=
  {| buyQueues := replicate (Z.to_nat NUM_TICKERS) zero_queue;
     sellQueues := replicate (Z.to_nat NUM_TICKERS) zero_queue |}.

Definition initOrderBook (b : OrderBook) : OrderBook :=
  {| buyQueues := (λ q, initQueue q QUEUE_CAPACITY) <$> buyQueues b;
     sellQueues := (λ q, initQueue q QUEUE_CAPACITY) <$> sellQueues b |}.

Definition initial_state : state :=
  {| book := initOrderBook zero_book; stdout := [] |}.

(** [f(&qs[ticker])]: run [f] on the queue at index [ticker] and keep
    what it leaves there. *)
Definition at_ticker {A} (qs : list MinimalQueue) (ticker : Z)
    (f : MinimalQueue → res (A * MinimalQueue)) : res (A * list MinimalQueue) :=
  q ← array_get qs ticker;
  '(a, q') ← f q;
  Ok (a, <[Z.to_nat ticker := q']> qs).

(** ** Order submission *)

Definition addOrder (orderType : ascii) (ticker quantity : Z) (price : double)
    (s : state) : res state :=
  let order := {| type := orderType; ticker := ticker;
                  quantity := quantity; price := price |} in
  '(success, bk) ←
    (if Ascii.eqb orderType "B" then
       '(ok, qs) ← at_ticker (buyQueues (book s)) ticker (λ q, enqueue q order);
       Ok (ok, {| buyQueues := qs; sellQueues := sellQueues (book s) |})
     else if Ascii.eqb orderType "S" then
       '(ok, qs) ← at_ticker (sellQueues (book s)) ticker (λ q, enqueue q order);
       Ok (ok, {| buyQueues := buyQueues (book s); sellQueues := qs |})
     else Ok (false, book s)) : res (bool * OrderBook);
  if negb success then
    Ok {| book := bk; stdout := stdout s ++ [QueueFullMsg ticker] |}
  else
    Ok {| book := bk;
          stdout := stdout s ++ [OrderAddedMsg orderType ticker quantity price] |}.

(** ** The matching pass *)

(** [while (dequeue(q, &temp)) buf[count++] = temp;] where [room] slots
    of the local array [buf] are still free. *)
Fixpoint drain (room : nat) (q : MinimalQueue) (buf : list Order)
    : res (list Order * MinimalQueue) :=
  match dequeue q with
  | Fault f => Fault f
  | Ok (None, q') => Ok (buf, q')
  | Ok (Some temp, q') =>
      match room with
      | O => Fault OutOfBounds
      | S room' => drain room' q' (buf ++ [temp])
      end
  end.

(** [for (i = 0; i < count; i++) enqueue(q, buf[i]);] the result of
    [enqueue] is not looked at. *)
Fixpoint enqueue_all (q : MinimalQueue) (buf : list Order) : res MinimalQueue :=
  match buf with
  | [] => Ok q
  | o :: buf' => '(_, q') ← enqueue q o; enqueue_all q' buf'
  end.

(** [for (k = 0; k < count; k++) if (sorted[k].quantity > 0) enqueue(q, sorted[k]);] *)
Fixpoint enqueue_remaining (q : MinimalQueue) (sorted : list Order) : res MinimalQueue :=
  match sorted with
  | [] => Ok q
  | o :: sorted' =>
      if decide (quantity o > 0) then
        '(_, q') ← enqueue q o; enqueue_remaining q' sorted'
      else enqueue_remaining q sorted'
  end.

(** One round of the outer loop of a bucket sort: the orders of [src]
    whose price is [p] as an int and whose quantity is positive, in the
    order of [src]. *)
Definition bucket (p : Z) (src : list Order) : list Order :=
  filter (λ o, double_to_int (price o) = p ∧ quantity o > 0) src.

(** The outer loop, [prices] being the values its counter takes. *)
Definition bucket_sort (prices : list Z) (src : list Order) : list Order :=
  foldl (λ sorted p, sorted ++ bucket p src) [] prices.

(** [price = 10; price <= 1000; price++] *)
Definition prices_ascending : list Z := seqZ 10 991.
(** [price = 1000; price >= 10; price--] *)
Definition prices_descending : list Z := reverse (seqZ 10 991).

Definition set_quantity (o : Order) (n : Z) : Order :=
  {| type := type o; ticker := ticker o; quantity := n; price := price o |}.

(** The variables of the two-pointer loop. *)
Record cross_state : Type := {
  sortedBuy : list Order;
  sortedSell : list Order;
  buy_i : nat;                 (* i *)
  sell_j : nat;                (* j *)
  printed : list event
}.

(** One round of [while (i < sortedBuyCount && j < sortedSellCount)];
    [None] when the loop is left, by its condition or by [break]. *)
Definition cross_step (ticker : Z) (c : cross_state) : option cross_state :=
  match sortedBuy c !! buy_i c, sortedSell c !! sell_j c with
  | Some b, Some s =>
      if double_ge (price b) (price s) then
        let matchedQty :=
          if decide (quantity b < quantity s) then quantity b else quantity s in
        let b' := set_quantity b (wrap32 (quantity b - matchedQty)) in
        let s' := set_quantity s (wrap32 (quantity s - matchedQty)) in
        Some {| sortedBuy := <[buy_i c := b']> (sortedBuy c);
                sortedSell := <[sell_j c := s']> (sortedSell c);
                buy_i := if decide (quantity b' = 0) then S (buy_i c) else buy_i c;
                sell_j := if decide (quantity s' = 0) then S (sell_j c) else sell_j c;
                printed := printed c ++ [MatchedMsg ticker matchedQty (price s)] |}
      else None
  | _, _ => None
  end.

Fixpoint cross_loop (fuel : nat) (ticker : Z) (c : cross_state) : res cross_state :=
  match cross_step ticker c with
  | None => Ok c
  | Some c' =>
      match fuel with
      | O => Fault OutOfFuel
      | S fuel' => cross_loop fuel' ticker c'
      end
  end.

(** First part of [matchOrders]: both queues of the ticker are drained
    into the local arrays [buyOrders] and [sellOrders]. *)
Definition matchOrders_drain (ticker : Z) (s : state)
    : res (list Order * list Order * state) :=
  '(buyOrders, bqs) ← at_ticker (buyQueues (book s)) ticker
                         (λ q, drain (Z.to_nat QUEUE_CAPACITY) q []);
  '(sellOrders, sqs) ← at_ticker (sellQueues (book s)) ticker
                          (λ q, drain (Z.to_nat QUEUE_CAPACITY) q []);
  Ok (buyOrders, sellOrders,
      {| book := {| buyQueues := bqs; sellQueues := sqs |}; stdout := stdout s |}).

(** [enqueue]s into the two queues of the ticker, written back in place. *)
Definition republish (ticker : Z)
    (fb fs : MinimalQueue → res MinimalQueue) (out : list event) (s : state)
    : res state :=
  '(_, bqs) ← at_ticker (buyQueues (book s)) ticker (λ q, q' ← fb q; Ok (tt, q'));
  '(_, sqs) ← at_ticker (sellQueues (book s)) ticker (λ q, q' ← fs q; Ok (tt, q'));
  Ok {| book := {| buyQueues := bqs; sellQueues := sqs |}; stdout := out |}.

(** Second part of [matchOrders], from the test for an empty side on. *)
Definition matchOrders_settle (ticker : Z) (buyOrders sellOrders : list Order)
    (s : state) : res state :=
  if decide (length buyOrders = 0%nat ∨ length sellOrders = 0%nat) then
    republish ticker (λ q, enqueue_all q buyOrders)
                     (λ q, enqueue_all q sellOrders) (stdout s) s
  else
    let sortedSell0 := bucket_sort prices_ascending sellOrders in
    let sortedBuy0 := bucket_sort prices_descending buyOrders in
    c ← cross_loop (length sortedBuy0 + length sortedSell0) ticker
          {| sortedBuy := sortedBuy0; sortedSell := sortedSell0;
             buy_i := 0; sell_j := 0; printed := stdout s |};
    republish ticker (λ q, enqueue_remaining q (sortedBuy c))
                     (λ q, enqueue_remaining q (sortedSell c)) (printed c) s.

Definition matchOrders (ticker : Z) (s : state) : res state :=
  '(buyOrders, sellOrders, s1) ← matchOrders_drain ticker s;
  matchOrders_settle ticker buyOrders sellOrders s1.

(** ** Notions used to state the properties *)

(** The counters of a queue are C [int]s. *)
Definition counters_typed (q : MinimalQueue) : Prop :=
  int_range (head q) ∧ int_range (tail q) ∧
  int_range (tailReservation q) ∧ int_range (capacity q).

(** The ordering of the three counters. *)
Definition invariant (q : MinimalQueue) : Prop :=
  head q ≤ tail q ∧ tail q ≤ tailReservation q ∧
  tailReservation q ≤ head q + capacity q.

(** Reserved minus head. *)
Definition occupancy (q : MinimalQueue) : Z := tailReservation q - head q.

(** A queue between two operations of a sequential run: the slots are
    the [QUEUE_CAPACITY] entries of [orders], [capacity] does not
    exceed them, the counters are ordered and non-negative ints, and
    no reservation is waiting to be published. *)
Record queue_wf (q : MinimalQueue) : Prop := {
  wf_slots : length (orders q) = Z.to_nat QUEUE_CAPACITY;
  wf_capacity : 0 < capacity q ≤ QUEUE_CAPACITY;
  wf_head : 0 ≤ head q;
  wf_invariant : invariant q;
  wf_published : tail q = tailReservation q;
  wf_int : tailReservation q ≤ INT_MAX
}.

(** The order held by the slot of logical index [k]. *)
Definition slot (q : MinimalQueue) (k : Z) : Order :=
  default zero_order (orders q !! Z.to_nat (Z.rem k (capacity q))).

(** The published orders of a queue, oldest first. *)
Definition contents (q : MinimalQueue) : list Order :=
  slot q <$> seqZ (head q) (tail q - head q).

(** Total quantity of a list of orders. *)
Definition total_quantity (l : list Order) : Z :=
  foldr (λ o acc, quantity o + acc) 0 l.

(** An order the bucket sorts of [matchOrders] keep: its price, cast to
    [int], is one of the values 10..1000 and its quantity is positive. *)
Definition tradable (o : Order) : Prop :=
  10 ≤ double_to_int (price o) ≤ 1000 ∧ quantity o > 0.

(** The orders of a sorted array that the last two loops of
    [matchOrders] hand to [enqueue]. *)
Definition remaining (sorted : list Order) : list Order :=
  filter (λ o, quantity o > 0) sorted.

(** Shares exchanged according to the "Matched" lines of an output. *)
Definition traded (out : list event) : Z :=
  foldr (λ e acc, match e with
                  | MatchedMsg _ matchedQty _ => matchedQty + acc
                  | _ => acc
                  end) 0 out.

Definition is_trade (ticker : Z) (e : event) : Prop :=
  ∃ matchedQty p, e = MatchedMsg ticker matchedQty p.

(** Rounds the two-pointer loop can still make. *)
Definition cross_measure (c : cross_state) : nat :=
  (length (sortedBuy c) - buy_i c) + (length (sortedSell c) - sell_j c).

(** What [matchOrders_settle] computes from the drained arrays: the
    orders it hands back to the buy queue, those it hands back to the
    sell queue, and the output. *)
Definition pass_result (ticker : Z) (buyOrders sellOrders : list Order)
    (out : list event) : res (list Order * list Order * list event) :=
  if decide (length buyOrders = 0%nat ∨ length sellOrders = 0%nat) then
    Ok (buyOrders, sellOrders, out)
  else
    let sortedSell0 := bucket_sort prices_ascending sellOrders in
    let sortedBuy0 := bucket_sort prices_descending buyOrders in
    c ← cross_loop (length sortedBuy0 + length sortedSell0) ticker
          {| sortedBuy := sortedBuy0; sortedSell := sortedSell0;
             buy_i := 0; sell_j := 0; printed := out |};
    Ok (remaining (sortedBuy c), remaining (sortedSell c), printed c).

(** The published orders of the two queues of a ticker. *)
Definition buy_contents (s : state) (t : Z) : list Order :=
  from_option contents [] (buyQueues (book s) !! Z.to_nat t).
Definition sell_contents (s : state) (t : Z) : list Order :=
  from_option contents [] (sellQueues (book s) !! Z.to_nat t).

(** A well-formed queue whose counters leave room for one more pass
    before the end of the [int] range. *)
Definition queue_ready (q : MinimalQueue) : Prop :=
  queue_wf q ∧ tailReservation q + QUEUE_CAPACITY ≤ INT_MAX.

Definition ticker_ready (s : state) (t : Z) : Prop :=
  0 ≤ t < NUM_TICKERS ∧
  (∃ q, buyQueues (book s) !! Z.to_nat t = Some q ∧ queue_ready q) ∧
  (∃ q, sellQueues (book s) !! Z.to_nat t = Some q ∧ queue_ready q).

(** The queues of the other tickers are the same in [s] and [s']. *)
Definition others_untouched (t : Z) (s s' : state) : Prop :=
  ∀ i : nat, i ≠ Z.to_nat t →
    buyQueues (book s') !! i = buyQueues (book s) !! i ∧
    sellQueues (book s') !! i = sellQueues (book s) !! i.

(** The state between the two parts of [matchOrders]: both queues of
    the ticker are empty and can take back [nb] and [ns] orders. *)
Definition queue_drained (q : MinimalQueue) (n : nat) : Prop :=
  queue_ready q ∧ head q = tail q ∧ Z.of_nat n ≤ capacity q.

Definition ticker_drained (s : state) (t : Z) (nb ns : nat) : Prop :=
  0 ≤ t < NUM_TICKERS ∧
  (∃ q, buyQueues (book s) !! Z.to_nat t = Some q ∧ queue_drained q nb) ∧
  (∃ q, sellQueues (book s) !! Z.to_nat t = Some q ∧ queue_drained q ns).

(** Two orders that differ at most in their quantity. *)
Definition same_order (o o' : Order) : Prop :=
  type o = type o' ∧ ticker o = ticker o' ∧ price o = price o'.

(** Orders written as in the examples: side, ticker, quantity and an
    integer price. *)
Definition buy_order (t quantity price : Z) : Order :=
  {| type := "B"; ticker := t; quantity := quantity; price := double_of_int price |}.
Definition sell_order (t quantity price : Z) : Order :=
  {| type := "S"; ticker := t; quantity := quantity; price := double_of_int price |}.

(** ** States used as examples *)

(** The state a call leaves when it returns. *)
Definition state_after (r : res state) : state :=
  match r with
  | Ok s => s
  | Fault _ => initial_state
  end.

(** Two buy orders and two sell orders submitted for ticker 7 on the
    fresh order book. *)
Definition crossing_state : state :=
  state_after (
    s1 ← addOrder "B" 7 20 (double_of_int 100) initial_state;
    s2 ← addOrder "B" 7 10 (double_of_int 90) s1;
    s3 ← addOrder "S" 7 15 (double_of_int 95) s2;
    addOrder "S" 7 25 (double_of_int 100) s3).

(** Two buy orders for ticker 7 and no sell order. *)
Definition one_sided_state : state :=
  state_after (
    s1 ← addOrder "B" 7 20 (double_of_int 100) initial_state;
    addOrder "B" 7 10 (double_of_int 90) s1).

(** A buy order with a negative quantity next to a buy and a sell
    order that cross, on ticker 3. *)
Definition untradable_order : Order :=
  {| type := "B"; ticker := 3; quantity := -5; price := double_of_int 50 |}.

Definition untradable_state : state :=
  state_after (
    s1 ← addOrder "B" 3 (-5) (double_of_int 50) initial_state;
    s2 ← addOrder "B" 3 10 (double_of_int 60) s1;
    addOrder "S" 3 10 (double_of_int 55) s2).

(** Whether a call returned. *)
Definition is_ok {A} (r : res A) : bool :=
  match r with
  | Ok _ => true
  | Fault _ => false
  end.

(** The queue [addOrder] selects for an order type. *)
Definition queue_of (orderType : ascii) (s : state) (t : Z) : option MinimalQueue :=
  if Ascii.eqb orderType "B" then buyQueues (book s) !! Z.to_nat t
  else if Ascii.eqb orderType "S" then sellQueues (book s) !! Z.to_nat t
  else None.

(** A run of [enqueue] calls on one queue with no [dequeue] in between:
    the result of each call and the queue it leaves. *)
Fixpoint enqueue_run (q : MinimalQueue) (items : list Order)
    : res (list (bool * MinimalQueue)) :=
  match items with
  | [] => Ok []
  | o :: items' =>
      '(b, q') ← enqueue q o;
      rest ← enqueue_run q' items';
      Ok ((b, q') :: rest)
  end.

(** A run of [enqueue] and [dequeue] calls on one queue.  [accepted]
    collects the orders whose [enqueue] returned true, [handed] the
    orders [dequeue] handed out. *)
Inductive op : Type :=
  | Enq (o : Order)
  | Deq.

Fixpoint run_ops (q : MinimalQueue) (ops : list op) (accepted handed : list Order)
    : res (list Order * list Order * MinimalQueue) :=
  match ops with
  | [] => Ok (accepted, handed, q)
  | Enq o :: ops' =>
      '(b, q') ← enqueue q o;
      run_ops q' ops' (if b : bool then accepted ++ [o] else accepted) handed
  | Deq :: ops' =>
      '(r, q') ← dequeue q;
      run_ops q' ops' accepted
        (match r with Some o => handed ++ [o] | None => handed end)
  end.

(** A pass of the matcher during which another thread runs [producer]
    after the queues are drained and before orders are handed back. *)
Definition matchOrders_with_producer (ticker : Z) (producer : state → res state)
    (s : state) : res state :=
  '(buyOrders, sellOrders, s1) ← matchOrders_drain ticker s;
  s2 ← producer s1;
  matchOrders_settle ticker buyOrders sellOrders s2.

(** The buy queue of ticker 0 filled to its capacity with orders of
    1, 2, ..., 128 shares. *)
Definition full_state : state :=
  state_after (
    foldl (λ r n, s ← r; addOrder "B" 0 n (double_of_int 50) s)
          (Ok initial_state) (seqZ 1 128)).

(** The fresh queue of [initOrderBook]. *)
Definition fresh_queue : MinimalQueue := initQueue zero_queue QUEUE_CAPACITY.

(** A pass on [full_state] during which a producer submits one more buy
    order for ticker 0 between the drain and the re-enqueue. *)
Definition interrupted_pass : res state :=
  matchOrders_with_producer 0 (addOrder "B" 0 999 (double_of_int 50)) full_state.

(** A short run of queue operations. *)
Definition sample_ops : list op :=
  [Enq (buy_order 0 1 10); Enq (buy_order 0 2 20); Deq; Enq (buy_order 0 3 30)].

(** The buy queue of ticker 0 in [full_state]. *)
Definition full_queue : MinimalQueue :=
  default fresh_queue (buyQueues (book full_state) !! 0%nat).

(** ** The threads *)

(** One round of the [for] loop over all tickers in [matcherThread]. *)
Definition matcher_sweep (s : state) : res state :=
  foldl (λ r ticker, s' ← r; matchOrders ticker s') (Ok s) (seqZ 0 NUM_TICKERS).


Definition RAND_MAX : Z := 2147483647.

(** The order one round of [producerThread] builds from the results
    [r1], [r2], [r3], [r4] of its four calls of [rand_r]. *)
Definition produced_order (r1 r2 r3 r4 : Z) : Order :=
  {| type := if decide (Z.rem r1 2 = 0) then "B"%char else "S"%char;
     ticker := Z.rem r2 NUM_TICKERS;
     quantity := wrap32 (Z.rem r3 500 + 1);
     price := double_of_int (wrap32 (Z.rem r4 991 + 10)) |}.

(** One round of the loop of [producerThread]. *)
Definition produce (r1 r2 r3 r4 : Z) (s : state) : res state :=
  let o := produced_order r1 r2 r3 r4 in
  addOrder (type o) (ticker o) (quantity o) (price o) s.

(** [producerThread].  Each round is the value loaded from [running]
    and, when it is true, the four results of [rand_r]. *)
Fixpoint producerThread (rounds : list (bool * (Z * Z * Z * Z))) (s : state)
    : res state :=
  match rounds with
  | [] => Fault OutOfFuel
  | (false, _) :: _ => Ok s
  | (true, (r1, r2, r3, r4)) :: rounds' =>
      s' ← produce r1 r2 r3 r4 s; producerThread rounds' s'
  end.

(** ** Further notions *)

(** The price of an order as the bucket sorts read it. *)
Definition int_price (o : Order) : Z := double_to_int (price o).

(** An order as the producers build them: a whole price between 10 and
    1000 and a quantity that is a positive [int]. *)
Definition regular (o : Order) : Prop :=
  price o = double_of_int (int_price o) ∧ 10 ≤ int_price o ≤ 1000 ∧
  0 < quantity o ≤ INT_MAX.

(** Calls of the two entry points, for runs of a single thread. *)
Inductive call : Type :=
  | Submit (orderType : ascii) (t quantity : Z) (p : double)
  | Pass (t : Z).

Definition run_call (c : call) (s : state) : res state :=
  match c with
  | Submit orderType t quantity p => addOrder orderType t quantity p s
  | Pass t => matchOrders t s
  end.

Fixpoint run_calls (cs : list call) (s : state) : res state :=
  match cs with
  | [] => Ok s
  | c :: cs' => s' ← run_call c s; run_calls cs' s'
  end.

(** The ticker of the call is an index of the two arrays. *)
Definition call_in_range (c : call) : Prop :=
  match c with
  | Submit orderType t _ _ =>
      (orderType = "B"%char ∨ orderType = "S"%char) → 0 ≤ t < NUM_TICKERS
  | Pass t => 0 ≤ t < NUM_TICKERS
  end.

(** The most a call adds to a reservation counter. *)
Definition call_cost (c : call) : Z :=
  match c with
  | Submit _ _ _ _ => 1
  | Pass _ => QUEUE_CAPACITY
  end.

Definition calls_cost (cs : list call) : Z :=
  foldr (λ c acc, call_cost c + acc) 0 cs.

(** Both arrays have [NUM_TICKERS] well-formed queues whose reservation
    counters can still grow by [n]. *)
Definition book_ready (n : Z) (s : state) : Prop :=
  length (buyQueues (book s)) = Z.to_nat NUM_TICKERS ∧
  length (sellQueues (book s)) = Z.to_nat NUM_TICKERS ∧
  Forall (λ q, queue_wf q ∧ tailReservation q + n ≤ INT_MAX)
         (buyQueues (book s) ++ sellQueues (book s)).

(** The state of a sorted array and its pointer in the two-pointer
    loop: the orders before the pointer are filled, the orders from the
    pointer on have shares left. *)
Definition pointer_ok (sorted : list Order) (i : nat) : Prop :=
  ∀ (k : nat) o, sorted !! k = Some o →
    ((k < i)%nat → quantity o = 0) ∧ ((i ≤ k)%nat → 0 < quantity o ≤ INT_MAX).

(** [o'] is the order [o] after some of its shares were matched. *)
Definition filled (o o' : Order) : Prop :=
  same_order o o' ∧ quantity o' ≤ quantity o.

(** A "Matched" line for ticker [t] that two orders of the arrays
    allow: the buyer's price is at least the seller's, which is the
    price of the trade, and neither order has fewer shares than the
    trade. *)
Definition fair_trade (t : Z) (buys sells : list Order) (e : event) : Prop :=
  ∃ m b s, e = MatchedMsg t m (price s) ∧ b ∈ buys ∧ s ∈ sells ∧
    double_ge (price b) (price s) = true ∧
    0 < m ∧ m ≤ quantity b ∧ m ≤ quantity s.

(** What every round of the two-pointer loop keeps, [buys0] and
    [sells0] being the sorted arrays and [out0] the output at its
    start. *)
Definition cross_ok (t : Z) (buys0 sells0 : list Order) (out0 : list event)
    (c : cross_state) : Prop :=
  pointer_ok (sortedBuy c) (buy_i c) ∧
  pointer_ok (sortedSell c) (sell_j c) ∧
  Forall2 filled buys0 (sortedBuy c) ∧
  Forall2 filled sells0 (sortedSell c) ∧
  ∃ trades, printed c = out0 ++ trades ∧
    Forall (fair_trade t buys0 sells0) trades ∧
    (length trades + cross_measure c ≤ length buys0 + length sells0)%nat.

(** Every order published in the book is regular. *)
Definition book_regular (s : state) : Prop :=
  ∀ t, 0 ≤ t < NUM_TICKERS →
    Forall regular (buy_contents s t ++ sell_contents s t).

(** The order a call submits is regular. *)
Definition call_regular (c : call) : Prop :=
  match c with
  | Submit orderType t quantity p =>
      regular {| type := orderType; ticker := t; quantity := quantity; price := p |}
  | Pass _ => True
  end.

(** The four results of [rand_r] of a round are in its range. *)
Definition draws_ok (r : Z * Z * Z * Z) : Prop :=
  let '(r1, r2, r3, r4) := r in
  0 ≤ r1 ≤ RAND_MAX ∧ 0 ≤ r2 ≤ RAND_MAX ∧ 0 ≤ r3 ≤ RAND_MAX ∧ 0 ≤ r4 ≤ RAND_MAX.

(** The loop variables with [out] printed before what they print. *)
Definition with_output (out : list event) (c : cross_state) : cross_state :=
  {| sortedBuy := sortedBuy c; sortedSell := sortedSell c;
     buy_i := buy_i c; sell_j := sell_j c; printed := out ++ printed c |}.

(** The "Matched" lines a pass on ticker [t] prints in state [s]. *)
Definition pass_trades (t : Z) (s : state) : list event :=
  match pass_result t (buy_contents s t) (sell_contents s t) [] with
  | Ok (_, _, trades) => trades
  | Fault _ => []
  end.

(** Passes on the tickers of a list, in the order of the list. *)
Definition sweep_over (tickers : list Z) (s : state) : res state :=
  foldl (λ r ticker, s' ← r; matchOrders ticker s') (Ok s) tickers.

(** ** The queue under interleaved threads

    [enqueue] and [dequeue] cut into their accesses to the shared
    queue.  A thread is at one of these accesses, holding its local
    variables; a step of a thread performs the access and the local
    computation up to the next one.  The accesses of the threads are
    interleaved in any order (the atomic accesses are taken as
    sequentially consistent). *)

(** What the last call of a thread returned. *)
Inductive retval : Type :=
  | NoCall
  | EnqRet (b : bool)
  | DeqRet (r : option Order).

(** The next access of a thread. *)
Inductive pc : Type :=
  | Idle (r : retval)                        (* between two calls *)
  | EnqLoadPos (order : Order)               (* pos = load(tailReservation) *)
  | EnqLoadHead (order : Order) (pos : Z)    (* head = load(head), full check *)
  | EnqCas (order : Order) (pos head : Z)    (* compare_exchange_weak *)
  | EnqWrite (order : Order) (pos : Z)       (* orders[pos % capacity] = order *)
  | EnqLoadTail (pos : Z)                    (* while (load(tail) != pos) *)
  | EnqStoreTail (pos : Z)                   (* store(tail, pos + 1) *)
  | DeqLoadHead                              (* head = load(head) *)
  | DeqLoadTail (head : Z)                   (* tail = load(tail), empty check *)
  | DeqRead (head : Z)                       (* *order = orders[head % capacity] *)
  | DeqStoreHead (head : Z) (o : Order).     (* store(head, head + 1) *)

(** One step of a thread at [p] on the queue [q].  [cas_fails] says
    whether the weak compare-and-swap, if this is the step, fails
    spuriously. *)
Definition thread_step (q : MinimalQueue) (p : pc) (cas_fails : bool)
    : res (pc * MinimalQueue) :=
  match p with
  | Idle r => Ok (Idle r, q)
  | EnqLoadPos order => Ok (EnqLoadHead order (tailReservation q), q)
  | EnqLoadHead order pos =>
      if decide (wrap32 (pos - head q) >= capacity q)
      then Ok (Idle (EnqRet false), q)
      else Ok (EnqCas order pos (head q), q)
  | EnqCas order pos _ =>
      if bool_decide (tailReservation q = pos) && negb cas_fails
      then Ok (EnqWrite order pos,
               {| orders := orders q; head := head q; tail := tail q;
                  tailReservation := wrap32 (pos + 1); capacity := capacity q |})
      else Ok (EnqLoadPos order, q)
  | EnqWrite order pos =>
      idx ← c_rem pos (capacity q);
      slots ← array_set (orders q) idx order;
      Ok (EnqLoadTail pos,
          {| orders := slots; head := head q; tail := tail q;
             tailReservation := tailReservation q; capacity := capacity q |})
  | EnqLoadTail pos =>
      if decide (tail q = pos) then Ok (EnqStoreTail pos, q)
      else Ok (EnqLoadTail pos, q)
  | EnqStoreTail pos =>
      Ok (Idle (EnqRet true),
          {| orders := orders q; head := head q; tail := wrap32 (pos + 1);
             tailReservation := tailReservation q; capacity := capacity q |})
  | DeqLoadHead => Ok (DeqLoadTail (head q), q)
  | DeqLoadTail h =>
      if decide (h = tail q) then Ok (Idle (DeqRet None), q)
      else Ok (DeqRead h, q)
  | DeqRead h =>
      idx ← c_rem h (capacity q);
      o ← array_get (orders q) idx;
      Ok (DeqStoreHead h o, q)
  | DeqStoreHead h o =>
      Ok (Idle (DeqRet (Some o)),
          {| orders := orders q; head := wrap32 (h + 1); tail := tail q;
             tailReservation := tailReservation q; capacity := capacity q |})
  end.

(** A queue and the threads that use it. *)
Record shared : Type := {
  queue : MinimalQueue;
  threads : list pc
}.

(** The one thread that calls [dequeue] (the matcher). *)
Definition consumer : nat := 0.

(** What the scheduler lets happen next: an idle thread calls
    [enqueue], the consumer, idle, calls [dequeue], or a thread makes
    its next step. *)
Inductive action : Type :=
  | CallEnqueue (i : nat) (order : Order)
  | CallDequeue
  | Step (i : nat) (cas_fails : bool).

(** An action that is not enabled (a call by a thread that is inside a
    call, a thread that does not exist) leaves the state as it is. *)
Definition atomic_step (a : action) (s : shared) : res shared :=
  match a with
  | CallEnqueue i order =>
      match threads s !! i with
      | Some (Idle _) =>
          Ok {| queue := queue s; threads := <[i := EnqLoadPos order]> (threads s) |}
      | _ => Ok s
      end
  | CallDequeue =>
      match threads s !! consumer with
      | Some (Idle _) =>
          Ok {| queue := queue s; threads := <[consumer := DeqLoadHead]> (threads s) |}
      | _ => Ok s
      end
  | Step i cas_fails =>
      match threads s !! i with
      | Some p =>
          '(p', q') ← thread_step (queue s) p cas_fails;
          Ok {| queue := q'; threads := <[i := p']> (threads s) |}
      | None => Ok s
      end
  end.

Fixpoint run_actions (acts : list action) (s : shared) : res shared :=
  match acts with
  | [] => Ok s
  | a :: acts' => s' ← atomic_step a s; run_actions acts' s'
  end.

(** A thread run alone from [p] until it is idle, for at most [fuel]
    steps. *)
Fixpoint run_alone (fuel : nat) (q : MinimalQueue) (p : pc)
    : res (retval * MinimalQueue) :=
  match p, fuel with
  | Idle r, _ => Ok (r, q)
  | _, O => Fault OutOfFuel
  | _, S fuel' => '(p', q') ← thread_step q p false; run_alone fuel' q' p'
  end.

(** The slot index a thread has reserved and not yet published. *)
Definition reserved (p : pc) : option Z :=
  match p with
  | EnqWrite _ pos | EnqLoadTail pos | EnqStoreTail pos => Some pos
  | _ => None
  end.

(** What the local variables of thread [i] at [p] say about the queue. *)
Definition pc_ok (q : MinimalQueue) (i : nat) (p : pc) : Prop :=
  match p with
  | Idle _ | EnqLoadPos _ | EnqLoadHead _ _ => True
  | EnqCas _ pos h => 0 ≤ h ≤ head q ∧ wrap32 (pos - h) < capacity q
  | EnqWrite _ pos | EnqLoadTail pos => tail q ≤ pos < tailReservation q
  | EnqStoreTail pos => tail q = pos ∧ pos < tailReservation q
  | DeqLoadHead => i = consumer
  | DeqLoadTail h => i = consumer ∧ h = head q
  | DeqRead h | DeqStoreHead h _ => i = consumer ∧ h = head q ∧ h < tail q
  end.

(** The states of a run: the counters are ordered non-negative ints,
    every thread's local variables fit the queue, and no two threads
    hold the same reservation. *)
Record shared_wf (s : shared) : Prop := {
  swf_slots : length (orders (queue s)) = Z.to_nat QUEUE_CAPACITY;
  swf_capacity : 0 < capacity (queue s) ≤ QUEUE_CAPACITY;
  swf_head : 0 ≤ head (queue s);
  swf_invariant : invariant (queue s);
  swf_int : tailReservation (queue s) ≤ INT_MAX;
  swf_threads : ∀ i p, threads s !! i = Some p → pc_ok (queue s) i p;
  swf_distinct : ∀ i j p p' pos,
    threads s !! i = Some p → threads s !! j = Some p' →
    reserved p = Some pos → reserved p' = Some pos → i = j
}.

(** The start of a run: the queue of [initOrderBook], [n] idle threads. *)
Definition shared_start (q : MinimalQueue) (n : nat) : shared :=
  {| queue := initQueue q QUEUE_CAPACITY; threads := replicate n (Idle NoCall) |}.

(** The state a run leaves when it does not fault. *)
Definition shared_after (r : res shared) : shared :=
  match r with
  | Ok s => s
  | Fault _ => shared_start zero_queue 0
  end.

(** Two producers, threads 1 and 2, and the consumer, thread 0.
    Both read [tailReservation = 0]; thread 1 reserves slot 0, the
    compare-and-swap of thread 2 fails and it reserves slot 1, writes
    its order and waits; the consumer finds the queue empty; thread 1
    writes and publishes, then thread 2 publishes; the consumer takes
    the order of thread 1. *)
Definition contended_run : list action :=
  [CallEnqueue 1 (buy_order 0 1 10); CallEnqueue 2 (buy_order 0 2 20);
   Step 1 false; Step 2 false; Step 1 false; Step 2 false;
   Step 1 false; Step 2 false;
   Step 2 false; Step 2 false; Step 2 false; Step 2 false; Step 2 false;
   CallDequeue; Step 0 false; Step 0 false;
   Step 1 false; Step 1 false; Step 1 false;
   Step 2 false; Step 2 false;
   CallDequeue; Step 0 false; Step 0 false; Step 0 false; Step 0 false].

(** The sell queue of ticker 3 filled to its capacity with orders of
    1, 2, ..., 128 shares; its buy queue is empty. *)
Definition full_sell_state : state :=
  state_after (
    foldl (λ r n, s ← r; addOrder "S" 3 n (double_of_int 50) s)
          (Ok initial_state) (seqZ 1 128)).

(** A pass on ticker 3 of [full_sell_state], whose buy side is empty,
    during which a producer submits one more sell order for the ticker
    between the drain and the re-enqueue. *)
Definition interrupted_empty_side_pass : res state :=
  matchOrders_with_producer 3 (addOrder "S" 3 999 (double_of_int 50)) full_sell_state.


(** The [addOrder] call of a producer's round with the draws [r]. *)
Definition submission (r : Z * Z * Z * Z) : call :=
  let '(r1, r2, r3, r4) := r in
  Submit (type (produced_order r1 r2 r3 r4)) (ticker (produced_order r1 r2 r3 r4))
         (quantity (produced_order r1 r2 r3 r4)) (price (produced_order r1 r2 r3 r4)).

(** No reservation counter of the book is more than [m] larger in [s']
    than it is in [s]. *)
Definition counters_within (m : Z) (s s' : state) : Prop :=
  ∀ (i : nat) q q',
    (buyQueues (book s) !! i = Some q ∧ buyQueues (book s') !! i = Some q') ∨
    (sellQueues (book s) !! i = Some q ∧ sellQueues (book s') !! i = Some q') →
    tailReservation q' ≤ tailReservation q + m.

(** * Properties *)

(** ** Integer arithmetic *)

Lemma wrap32_id z : int_range z → wrap32 z = z.
Proof.
  unfold int_range, INT_MIN, INT_MAX, wrap32. intros ?.
  rewrite Z.mod_small; lia.
Qed.

Lemma mod_shift_ne a d c : 0 < c → 0 < d < c → (a + d) `mod` c ≠ a `mod` c.
Proof.
  intros Hc Hd E.
  pose proof (Z.div_mod (a + d) c ltac:(lia)) as H1.
  pose proof (Z.div_mod a c ltac:(lia)) as H2.
  rewrite E in H1.
  assert (d = c * ((a + d) `div` c - a `div` c)) as Hx by lia.
  destruct (Z_le_gt_dec ((a + d) `div` c - a `div` c) 0); nia.
Qed.

Lemma c_rem_ok a c : 0 ≤ a → 0 < c → c_rem a c = Ok (a `mod` c).
Proof.
  intros ? ?. unfold c_rem. rewrite decide_False by (unfold INT_MIN; lia).
  by rewrite Z.rem_mod_nonneg by lia.
Qed.

(** ** The queue *)

Section queue.
Implicit Types (q : MinimalQueue) (o : Order).

Lemma slot_index q k :
  queue_wf q → 0 ≤ k →
  (Z.to_nat (k `mod` capacity q) < length (orders q))%nat.
Proof.
  intros [Hs Hc _ _ _ _] Hk. rewrite Hs.
  pose proof (Z.mod_pos_bound k (capacity q) ltac:(lia)). lia.
Qed.

Lemma contents_length q :
  length (contents q) = Z.to_nat (tail q - head q).
Proof. unfold contents. by rewrite length_fmap, length_seqZ. Qed.

Lemma contents_nil q : head q = tail q → contents q = [].
Proof. intros E. unfold contents. rewrite seqZ_nil; [done|lia]. Qed.

(** A full queue refuses the order and is left as it was. *)
Lemma enqueue_full q o :
  queue_wf q → occupancy q >= capacity q → enqueue q o = Ok (false, q).
Proof.
  intros [Hs Hc Hh (Hi1 & Hi2 & Hi3) Hp Hm] Hfull. unfold occupancy in Hfull.
  unfold enqueue. rewrite wrap32_id.
  - by rewrite decide_True.
  - unfold int_range, INT_MIN, INT_MAX, QUEUE_CAPACITY in *. lia.
Qed.

(** A queue with room takes the order at its end. *)
Lemma enqueue_room q o :
  queue_wf q → occupancy q < capacity q → tailReservation q < INT_MAX →
  ∃ q', enqueue q o = Ok (true, q') ∧ queue_wf q' ∧
        contents q' = contents q ++ [o] ∧
        head q' = head q ∧ tailReservation q' = tailReservation q + 1 ∧
        capacity q' = capacity q.
Proof.
  intros Hwf Hroom Hmax.
  pose proof (slot_index q (tailReservation q) Hwf) as Hidx.
  destruct Hwf as [Hs Hc Hh (Hi1 & Hi2 & Hi3) Hp Hm]. unfold occupancy in Hroom.
  assert (int_range (tailReservation q - head q)) as Hr1
    by (unfold int_range, INT_MIN, INT_MAX in *; lia).
  assert (int_range (tailReservation q + 1)) as Hr2
    by (unfold int_range, INT_MIN, INT_MAX in *; lia).
  unfold enqueue. rewrite wrap32_id by done.
  rewrite decide_False by lia.
  rewrite c_rem_ok by lia. simpl.
  unfold array_set. rewrite decide_True; last first.
  { pose proof (Z.mod_pos_bound (tailReservation q) (capacity q) ltac:(lia)).
    rewrite Hs. unfold QUEUE_CAPACITY in *. lia. }
  simpl. rewrite decide_True by done. rewrite wrap32_id by done.
  eexists. split; [done|]. split_and!; simpl; try done.
  - constructor; simpl; try done; try lia.
    + by rewrite length_insert.
    + unfold invariant; simpl. lia.
  - unfold contents; simpl. rewrite Hp.
    replace (tailReservation q + 1 - head q)
      with ((tailReservation q - head q) + 1) by lia.
    rewrite seqZ_app by lia. rewrite fmap_app. f_equal.
    + apply Forall_fmap_ext_1, Forall_seqZ. intros k Hk.
      unfold slot; simpl. f_equal.
      rewrite !Z.rem_mod_nonneg by lia.
      rewrite list_lookup_insert_ne; [done|].
      intros E. apply Z2Nat.inj in E.
      * replace (tailReservation q) with (k + (tailReservation q - k)) in E by lia.
        by apply mod_shift_ne in E; lia.
      * apply Z.mod_pos_bound; lia.
      * apply Z.mod_pos_bound; lia.
    + replace (head q + (tailReservation q - head q)) with (tailReservation q) by lia.
      rewrite (seqZ_cons _ 1), seqZ_nil by lia. simpl.
      f_equal. unfold slot; simpl.
      rewrite Z.rem_mod_nonneg by lia.
      rewrite list_lookup_insert_eq; [done|]. apply Hidx. lia.
Qed.

(** An empty queue has nothing to hand out and is left as it was. *)
Lemma dequeue_empty q : head q = tail q → dequeue q = Ok (None, q).
Proof. intros E. unfold dequeue. by rewrite decide_True. Qed.

(** Otherwise the oldest published order is handed out. *)
Lemma dequeue_some q :
  queue_wf q → head q < tail q →
  ∃ o q', dequeue q = Ok (Some o, q') ∧ queue_wf q' ∧
          contents q = o :: contents q' ∧
          head q' = head q + 1 ∧ tail q' = tail q ∧
          tailReservation q' = tailReservation q ∧ capacity q' = capacity q.
Proof.
  intros Hwf Hlt.
  pose proof (slot_index q (head q) Hwf) as Hidx.
  destruct Hwf as [Hs Hc Hh (Hi1 & Hi2 & Hi3) Hp Hm].
  assert (int_range (head q + 1)) as Hr
    by (unfold int_range, INT_MIN, INT_MAX in *; lia).
  unfold dequeue. rewrite decide_False by lia.
  rewrite c_rem_ok by lia. simpl.
  unfold array_get. rewrite decide_True by (apply Z.mod_pos_bound; lia).
  destruct (orders q !! Z.to_nat (head q `mod` capacity q)) as [o|] eqn:Ho; last first.
  { apply lookup_ge_None in Ho. specialize (Hidx Hh). lia. }
  simpl. rewrite wrap32_id by done.
  eexists _, _. split; [done|]. split_and!; simpl; try done.
  - constructor; simpl; try done; try lia. unfold invariant; simpl. lia.
  - unfold contents; simpl. rewrite (seqZ_cons (head q)) by lia. simpl.
    f_equal.
    + unfold slot. rewrite Z.rem_mod_nonneg by lia. by rewrite Ho.
    + replace (Z.pred (tail q - head q)) with (tail q - (head q + 1)) by lia.
      done.
Qed.
End queue.

(** ** Draining and refilling a queue *)

Global Arguments contents : simpl never.

Section refill.
Implicit Types (q : MinimalQueue) (o : Order) (buf : list Order).

(** With room for the published orders in the local array, [drain]
    appends them to the array in queue order and leaves the queue
    empty. *)
Lemma drain_contents room q buf :
  queue_wf q → (Z.to_nat (tail q - head q) ≤ room)%nat →
  ∃ q', drain room q buf = Ok (buf ++ contents q, q') ∧ queue_wf q' ∧
        head q' = tail q ∧ tail q' = tail q ∧
        tailReservation q' = tailReservation q ∧
        capacity q' = capacity q ∧ orders q' = orders q.
Proof.
  revert q buf. induction room as [|room IH]; intros q buf Hwf Hroom.
  - assert (head q = tail q) as E.
    { destruct Hwf as [_ _ _ (? & _) _ _]. lia. }
    exists q. simpl. rewrite dequeue_empty by done.
    rewrite contents_nil, app_nil_r by done. by split_and!.
  - destruct (decide (head q = tail q)) as [E|Hne].
    + exists q. simpl. rewrite dequeue_empty by done.
      rewrite contents_nil, app_nil_r by done. by split_and!.
    + assert (head q < tail q) as Hlt.
      { destruct Hwf as [_ _ _ (? & _) _ _]. lia. }
      destruct (dequeue_some q Hwf Hlt)
        as (o & q1 & Hd & Hwf1 & Hc & Hh1 & Ht1 & Hr1 & Hcap1).
      destruct (IH q1 (buf ++ [o]) Hwf1) as (q' & Hdr & ? & ? & ? & ? & ? & Hslots).
      { lia. }
      exists q'. simpl. rewrite Hd, Hdr, Hc, <-app_assoc. simpl.
      split_and!; try done; try congruence.
      rewrite Hslots. unfold dequeue in Hd.
      rewrite decide_False in Hd by done.
      destruct (c_rem _ _); simpl in Hd; [|done].
      destruct (array_get _ _); simpl in Hd; [|done].
      by simplify_eq.
Qed.

(** [enqueue_all] appends a whole array to a queue that has room
    for it. *)
Lemma enqueue_all_room q buf :
  queue_wf q →
  occupancy q + Z.of_nat (length buf) ≤ capacity q →
  tailReservation q + Z.of_nat (length buf) ≤ INT_MAX →
  ∃ q', enqueue_all q buf = Ok q' ∧ queue_wf q' ∧
        contents q' = contents q ++ buf ∧ head q' = head q ∧
        tailReservation q' = tailReservation q + Z.of_nat (length buf) ∧
        capacity q' = capacity q.
Proof.
  revert q. induction buf as [|o buf IH]; intros q Hwf Hroom Hmax.
  - exists q. simpl. rewrite app_nil_r. split_and!; try done. simpl. lia.
  - simpl in Hroom, Hmax.
    destruct (enqueue_room q o Hwf) as (q1 & He & Hwf1 & Hc & Hh & Hr & Hcap);
      [lia..|].
    unfold occupancy in *.
    destruct (IH q1 Hwf1) as (q' & Hall & ? & Hc' & ? & ? & ?); [lia..|].
    exists q'. simpl. rewrite He. simpl. rewrite Hall.
    split_and!; try done; try congruence; try lia.
    by rewrite Hc', Hc, <-app_assoc.
Qed.

(** The orders [enqueue_remaining] passes to [enqueue] are those with
    a positive quantity. *)
Lemma enqueue_remaining_filter q sorted :
  enqueue_remaining q sorted = enqueue_all q (remaining sorted).
Proof.
  unfold remaining.
  revert q. induction sorted as [|o sorted IH]; intros q; [done|].
  simpl. rewrite filter_cons. destruct (decide (quantity o > 0)); simpl.
  - destruct (enqueue q o) as [[? q']|]; simpl; [apply IH|done].
  - apply IH.
Qed.
End refill.

(** ** Bucket sort *)

Section bucket_sort.
Implicit Types (src : list Order) (prices : list Z).

Lemma bucket_sort_bind_acc prices src acc :
  foldl (λ sorted p, sorted ++ bucket p src) acc prices =
  acc ++ (prices ≫= λ p, bucket p src).
Proof.
  revert acc. induction prices as [|p prices IH]; intros acc; simpl.
  - by rewrite app_nil_r.
  - rewrite IH, <-app_assoc. done.
Qed.

Lemma bucket_sort_bind prices src :
  bucket_sort prices src = prices ≫= λ p, bucket p src.
Proof. unfold bucket_sort. by rewrite bucket_sort_bind_acc. Qed.

(** Two filters that never keep the same element split the result of
    filtering by their disjunction. *)
Lemma filter_disjoint_app {A} (P Q : A → Prop)
    `{!∀ x, Decision (P x)} `{!∀ x, Decision (Q x)} (l : list A) :
  (∀ x, P x → Q x → False) →
  filter P l ++ filter Q l ≡ₚ filter (λ x, P x ∨ Q x) l.
Proof.
  intros Hdis. induction l as [|x l IH]; [done|].
  rewrite !filter_cons.
  destruct (decide (P x)) as [HP|HP], (decide (Q x)) as [HQ|HQ].
  - destruct (Hdis x HP HQ).
  - rewrite decide_True by tauto. simpl. by rewrite IH.
  - rewrite decide_True by tauto.
    rewrite <-Permutation_middle. by rewrite IH.
  - rewrite decide_False by tauto. done.
Qed.

(** The sorted array is a rearrangement of the orders of [src] that
    fall in one of the buckets. *)
Lemma bucket_sort_perm prices src :
  NoDup prices →
  bucket_sort prices src ≡ₚ
  filter (λ o, double_to_int (price o) ∈ prices ∧ quantity o > 0) src.
Proof.
  rewrite bucket_sort_bind.
  induction 1 as [|p prices Hp Hnd IH]; simpl.
  - induction src as [|o src IHs]; [done|].
    rewrite filter_cons, decide_False; [done|].
    intros [H%elem_of_nil _]. done.
  - rewrite IH. unfold bucket.
    rewrite filter_disjoint_app.
    + match goal with |- ?a ≡ₚ ?b => assert (a = b) as ->; [|done] end.
      apply list_filter_iff. intros o. simpl. rewrite elem_of_cons. tauto.
    + intros o [E _] [Hin _]. by subst.
Qed.
End bucket_sort.

Section sorted_arrays.
Implicit Types (src : list Order) (o : Order).

Lemma prices_ascending_NoDup : NoDup prices_ascending.
Proof. apply NoDup_seqZ. Qed.

Lemma prices_descending_NoDup : NoDup prices_descending.
Proof.
  unfold prices_descending. rewrite reverse_Permutation. apply NoDup_seqZ.
Qed.

Lemma elem_of_prices_ascending p : p ∈ prices_ascending ↔ 10 ≤ p ≤ 1000.
Proof. unfold prices_ascending. rewrite elem_of_seqZ. lia. Qed.

Lemma elem_of_prices_descending p : p ∈ prices_descending ↔ 10 ≤ p ≤ 1000.
Proof.
  unfold prices_descending. rewrite elem_of_reverse, elem_of_seqZ. lia.
Qed.

(** Both bucket sorts keep the tradable orders, and only them. *)
Lemma sortedSell_perm src :
  bucket_sort prices_ascending src ≡ₚ filter tradable src.
Proof.
  rewrite bucket_sort_perm by apply prices_ascending_NoDup.
  match goal with |- ?a ≡ₚ ?b => assert (a = b) as ->; [|done] end.
  apply list_filter_iff. intros o. unfold tradable.
  by rewrite elem_of_prices_ascending.
Qed.

Lemma sortedBuy_perm src :
  bucket_sort prices_descending src ≡ₚ filter tradable src.
Proof.
  rewrite bucket_sort_perm by apply prices_descending_NoDup.
  match goal with |- ?a ≡ₚ ?b => assert (a = b) as ->; [|done] end.
  apply list_filter_iff. intros o. unfold tradable.
  by rewrite elem_of_prices_descending.
Qed.

Lemma filter_all {A} (P : A → Prop) `{!∀ x, Decision (P x)} (l : list A) :
  Forall P l → filter P l = l.
Proof.
  induction 1 as [|x l HP _ IH]; [done|].
  by rewrite filter_cons, decide_True, IH.
Qed.

Global Instance total_quantity_perm : Proper ((≡ₚ) ==> (=)) total_quantity.
Proof.
  intros l1 l2 Hp. induction Hp; simpl; lia.
Qed.

Lemma total_quantity_app l1 l2 :
  total_quantity (l1 ++ l2) = total_quantity l1 + total_quantity l2.
Proof. induction l1 as [|o l1 IH]; simpl; lia. Qed.

(** Replacing the quantity of the order at index [i]. *)
Lemma total_quantity_insert (l : list Order) (i : nat) o n :
  l !! i = Some o →
  total_quantity (<[i := set_quantity o n]> l) = total_quantity l - quantity o + n.
Proof.
  revert i. induction l as [|x l IH]; intros [|i] Hl; simplify_eq/=.
  - lia.
  - rewrite IH by done. lia.
Qed.

(** Orders without shares do not count. *)
Lemma total_quantity_remaining (l : list Order) :
  Forall (λ o, 0 ≤ quantity o) l →
  total_quantity (remaining l) = total_quantity l.
Proof.
  unfold remaining. induction 1 as [|o l Ho _ IH]; [done|].
  rewrite filter_cons. destruct (decide (quantity o > 0)); simpl; lia.
Qed.

Lemma traded_app out1 out2 : traded (out1 ++ out2) = traded out1 + traded out2.
Proof.
  induction out1 as [|e out1 IH]; simpl; [done|]. destruct e; lia.
Qed.
End sorted_arrays.

(** ** The two-pointer loop *)

Section cross.
Implicit Types (c : cross_state) (t : Z).

(** What one round does, when there is one. *)
Lemma cross_step_Some t c c' :
  cross_step t c = Some c' →
  ∃ b s, sortedBuy c !! buy_i c = Some b ∧ sortedSell c !! sell_j c = Some s ∧
    double_ge (price b) (price s) = true ∧
    let m := Z.min (quantity b) (quantity s) in
    let b' := set_quantity b (wrap32 (quantity b - m)) in
    let s' := set_quantity s (wrap32 (quantity s - m)) in
    c' = {| sortedBuy := <[buy_i c := b']> (sortedBuy c);
            sortedSell := <[sell_j c := s']> (sortedSell c);
            buy_i := if decide (quantity b' = 0) then S (buy_i c) else buy_i c;
            sell_j := if decide (quantity s' = 0) then S (sell_j c) else sell_j c;
            printed := printed c ++ [MatchedMsg t m (price s)] |}.
Proof.
  unfold cross_step. intros H.
  destruct (sortedBuy c !! buy_i c) as [b|] eqn:Hb; [|done].
  destruct (sortedSell c !! sell_j c) as [s|] eqn:Hs; [|done].
  destruct (double_ge (price b) (price s)) eqn:Hge; [|done].
  exists b, s. split_and!; try done.
  assert ((if decide (quantity b < quantity s) then quantity b else quantity s)
          = Z.min (quantity b) (quantity s)) as Hmin
    by (destruct (decide _); lia).
  rewrite Hmin in H. by simplify_eq.
Qed.

(** Every round fills the order under one of the two pointers and
    moves that pointer on. *)
Lemma cross_step_progress t c c' :
  cross_step t c = Some c' →
  length (sortedBuy c') = length (sortedBuy c) ∧
  length (sortedSell c') = length (sortedSell c) ∧
  (cross_measure c' < cross_measure c)%nat.
Proof.
  intros (b & s & Hb & Hs & _ & ->)%cross_step_Some.
  apply lookup_lt_Some in Hb, Hs.
  unfold cross_measure; simpl. rewrite !length_insert.
  split_and!; try done.
  destruct (Z.min_spec (quantity b) (quantity s)) as [[_ ->]|[_ ->]];
    rewrite Z.sub_diag; change (wrap32 0) with 0;
    rewrite (decide_True (P := 0 = 0)) by done;
    repeat case_decide; lia.
Qed.

(** The loop is left after at most [cross_measure] rounds. *)
Lemma cross_loop_total fuel t c :
  (cross_measure c ≤ fuel)%nat →
  ∃ c', cross_loop fuel t c = Ok c' ∧ cross_step t c' = None.
Proof.
  revert c. induction fuel as [|fuel IH]; intros c Hm.
  - destruct (cross_step t c) as [c1|] eqn:Hstep.
    + apply cross_step_progress in Hstep as (_ & _ & ?). lia.
    + exists c. simpl. by rewrite Hstep.
  - destruct (cross_step t c) as [c1|] eqn:Hstep.
    + pose proof (cross_step_progress _ _ _ Hstep) as (_ & _ & ?).
      destruct (IH c1) as (c' & Hl & Hn); [lia|].
      exists c'. simpl. by rewrite Hstep.
    + exists c. simpl. by rewrite Hstep.
Qed.

(** A property kept by every round holds when the loop is left. *)
Lemma cross_loop_invariant (P : cross_state → Prop) t :
  (∀ c c', P c → cross_step t c = Some c' → P c') →
  ∀ fuel c c', P c → cross_loop fuel t c = Ok c' → P c'.
Proof.
  intros Hstep. induction fuel as [|fuel IH]; intros c c' HP Hl; simpl in Hl.
  - destruct (cross_step t c); by simplify_eq.
  - destruct (cross_step t c) as [c1|] eqn:Hs; [|by simplify_eq].
    eapply IH; [|done]. eauto.
Qed.
End cross.

Section cross_properties.
Implicit Types (c : cross_state) (t : Z).

Lemma same_order_refl o : same_order o o.
Proof. by unfold same_order. Qed.

Lemma same_order_set_quantity o o' n :
  same_order o o' → same_order o (set_quantity o' n).
Proof. unfold same_order. naive_solver. Qed.

Lemma Forall2_same_order_insert (l0 l : list Order) i o n :
  Forall2 same_order l0 l → l !! i = Some o →
  Forall2 same_order l0 (<[i := set_quantity o n]> l).
Proof.
  intros HF Hl.
  destruct (Forall2_lookup_r _ _ _ _ _ HF Hl) as (o0 & Hl0 & Hso).
  rewrite <-(list_insert_id l0 i o0) by done.
  apply Forall2_insert; [done|]. by apply same_order_set_quantity.
Qed.

(** The loop only prints "Matched" lines for its ticker, each at the
    price of an entry of [sortedSell], and only rewrites quantities. *)
Lemma cross_loop_shape fuel t c c' :
  cross_loop fuel t c = Ok c' →
  Forall2 same_order (sortedBuy c) (sortedBuy c') ∧
  Forall2 same_order (sortedSell c) (sortedSell c') ∧
  ∃ trades, printed c' = printed c ++ trades ∧
    Forall (λ e, ∃ m s, s ∈ sortedSell c ∧ e = MatchedMsg t m (price s)) trades.
Proof.
  apply (cross_loop_invariant (λ c1,
    Forall2 same_order (sortedBuy c) (sortedBuy c1) ∧
    Forall2 same_order (sortedSell c) (sortedSell c1) ∧
    ∃ trades, printed c1 = printed c ++ trades ∧
      Forall (λ e, ∃ m s, s ∈ sortedSell c ∧ e = MatchedMsg t m (price s)) trades)).
  - intros c1 c2 (HB & HS & trades & Hp & Ht)
      (b & s & Hb & Hs & _ & ->)%cross_step_Some. simpl.
    split_and!.
    + by apply Forall2_same_order_insert.
    + by apply Forall2_same_order_insert.
    + eexists (trades ++ [_]). rewrite Hp, <-app_assoc. split; [done|].
      apply Forall_app. split; [done|]. constructor; [|done].
      destruct (Forall2_lookup_r _ _ _ _ _ HS Hs) as (s0 & Hs0 & _ & _ & E).
      eexists _, s0. rewrite E. split; [|done].
      by eapply list_elem_of_lookup_2.
  - split_and!; try by apply Forall_Forall2_diag, Forall_true, same_order_refl.
    exists []. by rewrite app_nil_r.
Qed.

(** With quantities that are non-negative ints, each round moves the
    matched shares out of both arrays. *)
Lemma cross_step_conserves t c c' :
  Forall (λ o, 0 ≤ quantity o ≤ INT_MAX) (sortedBuy c) →
  Forall (λ o, 0 ≤ quantity o ≤ INT_MAX) (sortedSell c) →
  cross_step t c = Some c' →
  Forall (λ o, 0 ≤ quantity o ≤ INT_MAX) (sortedBuy c') ∧
  Forall (λ o, 0 ≤ quantity o ≤ INT_MAX) (sortedSell c') ∧
  ∃ m p, printed c' = printed c ++ [MatchedMsg t m p] ∧
    total_quantity (sortedBuy c') = total_quantity (sortedBuy c) - m ∧
    total_quantity (sortedSell c') = total_quantity (sortedSell c) - m.
Proof.
  intros HB HS (b & s & Hb & Hs & _ & ->)%cross_step_Some. simpl.
  pose proof (Forall_lookup_1 _ _ _ _ HB Hb) as Hqb.
  pose proof (Forall_lookup_1 _ _ _ _ HS Hs) as Hqs. simpl in Hqb, Hqs.
  assert (wrap32 (quantity b - quantity b `min` quantity s)
          = quantity b - quantity b `min` quantity s) as Eb.
  { apply wrap32_id. unfold int_range, INT_MIN, INT_MAX in *. lia. }
  assert (wrap32 (quantity s - quantity b `min` quantity s)
          = quantity s - quantity b `min` quantity s) as Es.
  { apply wrap32_id. unfold int_range, INT_MIN, INT_MAX in *. lia. }
  rewrite Eb, Es. split_and!.
  - apply Forall_insert; [done|]. simpl. lia.
  - apply Forall_insert; [done|]. simpl. lia.
  - eexists _, _. split; [done|].
    rewrite !total_quantity_insert by done. lia.
Qed.

Lemma cross_loop_conserves fuel t c c' :
  Forall (λ o, 0 ≤ quantity o ≤ INT_MAX) (sortedBuy c) →
  Forall (λ o, 0 ≤ quantity o ≤ INT_MAX) (sortedSell c) →
  cross_loop fuel t c = Ok c' →
  Forall (λ o, 0 ≤ quantity o ≤ INT_MAX) (sortedBuy c') ∧
  Forall (λ o, 0 ≤ quantity o ≤ INT_MAX) (sortedSell c') ∧
  ∃ trades, printed c' = printed c ++ trades ∧
    total_quantity (sortedBuy c') + total_quantity (sortedSell c')
    = total_quantity (sortedBuy c) + total_quantity (sortedSell c)
      - 2 * traded trades.
Proof.
  intros HB HS.
  apply (cross_loop_invariant (λ c1,
    Forall (λ o, 0 ≤ quantity o ≤ INT_MAX) (sortedBuy c1) ∧
    Forall (λ o, 0 ≤ quantity o ≤ INT_MAX) (sortedSell c1) ∧
    ∃ trades, printed c1 = printed c ++ trades ∧
      total_quantity (sortedBuy c1) + total_quantity (sortedSell c1)
      = total_quantity (sortedBuy c) + total_quantity (sortedSell c)
        - 2 * traded trades)).
  - intros c1 c2 (HB1 & HS1 & trades & Hp & Ht) Hstep.
    destruct (cross_step_conserves _ _ _ HB1 HS1 Hstep)
      as (HB2 & HS2 & m & p & Hp2 & Hb2 & Hs2).
    split_and!; try done.
    exists (trades ++ [MatchedMsg t m p]).
    rewrite Hp2, Hp, <-app_assoc, traded_app. split; [done|]. simpl. lia.
  - split_and!; try done. exists []. rewrite app_nil_r. split; [done|].
    simpl. lia.
Qed.
End cross_properties.

(** ** The matching pass on the order book *)

Section pass.
Implicit Types (s : state) (t : Z) (q : MinimalQueue).

Lemma at_ticker_Some {A} (qs : list MinimalQueue) t
    (f : MinimalQueue → res (A * MinimalQueue)) q a q' :
  0 ≤ t → qs !! Z.to_nat t = Some q → f q = Ok (a, q') →
  at_ticker qs t f = Ok (a, <[Z.to_nat t := q']> qs).
Proof.
  intros Ht Hq Hf. unfold at_ticker, array_get.
  rewrite decide_True by done. rewrite Hq. simpl. by rewrite Hf.
Qed.

Lemma others_untouched_trans t s1 s2 s3 :
  others_untouched t s1 s2 → others_untouched t s2 s3 →
  others_untouched t s1 s3.
Proof.
  intros H12 H23 i Hi. destruct (H12 i Hi), (H23 i Hi). split; congruence.
Qed.

(** The first part hands out the published orders of both queues and
    leaves the queues empty. *)
Lemma matchOrders_drain_spec s t :
  ticker_ready s t →
  ∃ s1, matchOrders_drain t s = Ok (buy_contents s t, sell_contents s t, s1) ∧
        stdout s1 = stdout s ∧
        ticker_drained s1 t (length (buy_contents s t))
                            (length (sell_contents s t)) ∧
        others_untouched t s s1.
Proof.
  intros (Ht & (bq & Hbq & Hbwf & Hbmax) & (sq & Hsq & Hswf & Hsmax)).
  destruct (drain_contents (Z.to_nat QUEUE_CAPACITY) bq [] Hbwf)
    as (bq' & Hbd & Hbwf' & Hbh & Hbt & Hbr & Hbc & _).
  { destruct Hbwf as [_ ? _ (? & ? & ?) _ _]. lia. }
  destruct (drain_contents (Z.to_nat QUEUE_CAPACITY) sq [] Hswf)
    as (sq' & Hsd & Hswf' & Hsh & Hst & Hsr & Hsc & _).
  { destruct Hswf as [_ ? _ (? & ? & ?) _ _]. lia. }
  unfold matchOrders_drain.
  rewrite (at_ticker_Some _ _ _ _ _ _ (proj1 Ht) Hbq Hbd). cbn [mbind res_bind].
  rewrite (at_ticker_Some _ _ _ _ _ _ (proj1 Ht) Hsq Hsd). cbn [mbind res_bind].
  unfold buy_contents, sell_contents. rewrite Hbq, Hsq.
  cbn [from_option app].
  eexists. split; [reflexivity|]. cbn [stdout book buyQueues sellQueues].
  split; [done|]. split.
  - split; [done|]. cbn [stdout book buyQueues sellQueues]. split.
    + exists bq'. split.
      * apply list_lookup_insert_eq. by eapply lookup_lt_Some.
      * split_and!; try done; try lia.
        { split; [done|lia]. }
        rewrite contents_length.
        destruct Hbwf as [_ ? _ (? & ? & ?) _ _]. lia.
    + exists sq'. split.
      * apply list_lookup_insert_eq. by eapply lookup_lt_Some.
      * split_and!; try done; try lia.
        { split; [done|lia]. }
        rewrite contents_length.
        destruct Hswf as [_ ? _ (? & ? & ?) _ _]. lia.
  - intros i Hi. cbn [stdout book buyQueues sellQueues].
    by rewrite !list_lookup_insert_ne.
Qed.

(** Handing orders back to the emptied queues of the ticker: all of
    them are taken, in order. *)
Lemma republish_spec s1 t (fb fs : MinimalQueue → res MinimalQueue)
    (lb ls : list Order) out nb ns :
  ticker_drained s1 t nb ns →
  (∀ q, fb q = enqueue_all q lb) → (∀ q, fs q = enqueue_all q ls) →
  (length lb ≤ nb)%nat → (length ls ≤ ns)%nat →
  ∃ s', republish t fb fs out s1 = Ok s' ∧
        buy_contents s' t = lb ∧ sell_contents s' t = ls ∧
        stdout s' = out ∧ others_untouched t s1 s'.
Proof.
  intros (Ht & (bq & Hbq & (Hbwf & Hbmax) & Hbe & Hbn)
             & (sq & Hsq & (Hswf & Hsmax) & Hse & Hsn)) Hfb Hfs Hlb Hls.
  destruct (enqueue_all_room bq lb Hbwf) as (bq' & Hba & _ & Hbc & _).
  { unfold occupancy. rewrite <-(wf_published _ Hbwf). lia. }
  { pose proof (wf_capacity _ Hbwf). lia. }
  destruct (enqueue_all_room sq ls Hswf) as (sq' & Hsa & _ & Hsc & _).
  { unfold occupancy. rewrite <-(wf_published _ Hswf). lia. }
  { pose proof (wf_capacity _ Hswf). lia. }
  rewrite (contents_nil bq) in Hbc by done.
  rewrite (contents_nil sq) in Hsc by done. cbn [app] in Hbc, Hsc.
  unfold republish.
  rewrite (at_ticker_Some _ _ _ bq tt bq' (proj1 Ht) Hbq)
    by (by rewrite Hfb, Hba).
  cbn [mbind res_bind].
  rewrite (at_ticker_Some _ _ _ sq tt sq' (proj1 Ht) Hsq)
    by (by rewrite Hfs, Hsa).
  cbn [mbind res_bind]. eexists. split; [reflexivity|].
  unfold buy_contents, sell_contents. cbn [stdout book buyQueues sellQueues].
  rewrite !list_lookup_insert_eq by (by eapply lookup_lt_Some).
  cbn [from_option].
  split; [done|]. split; [done|]. split; [done|].
  intros i Hi. cbn [stdout book buyQueues sellQueues].
  by rewrite !list_lookup_insert_ne.
Qed.

Lemma bucket_sort_length prices src :
  NoDup prices → (length (bucket_sort prices src) ≤ length src)%nat.
Proof.
  intros Hnd. rewrite (bucket_sort_perm _ _ Hnd). apply length_filter.
Qed.

(** A pass on a ready ticker returns, and what it leaves in the two
    queues and in the output is [pass_result] of what it found. *)
Lemma matchOrders_pass_result s t :
  ticker_ready s t →
  ∃ s', matchOrders t s = Ok s' ∧
        pass_result t (buy_contents s t) (sell_contents s t) (stdout s)
        = Ok (buy_contents s' t, sell_contents s' t, stdout s') ∧
        others_untouched t s s'.
Proof.
  intros Hready.
  destruct (matchOrders_drain_spec s t Hready) as (s1 & Hd & Hout & Hdr & Hu1).
  unfold matchOrders. rewrite Hd. cbn [mbind res_bind].
  unfold matchOrders_settle, pass_result.
  set (buys := buy_contents s t) in *. set (sells := sell_contents s t) in *.
  destruct (decide (length buys = 0%nat ∨ length sells = 0%nat)) as [He|Hne].
  - destruct (republish_spec s1 t (λ q, enqueue_all q buys)
                (λ q, enqueue_all q sells) buys sells (stdout s1) _ _ Hdr)
      as (s' & Hr & Hb & Hs & Ho & Hu2); try done.
    exists s'. rewrite Hr, Hb, Hs, Ho, Hout.
    split_and!; try done. by eapply others_untouched_trans.
  - rewrite Hout.
    set (c0 := {| sortedBuy := bucket_sort prices_descending buys;
                  sortedSell := bucket_sort prices_ascending sells;
                  buy_i := 0; sell_j := 0; printed := stdout s |}).
    destruct (cross_loop_total
                (length (bucket_sort prices_descending buys)
                 + length (bucket_sort prices_ascending sells)) t c0)
      as (c & Hc & _).
    { unfold cross_measure, c0. cbn [sortedBuy sortedSell buy_i sell_j]. lia. }
    rewrite Hc. cbn [mbind res_bind].
    destruct (cross_loop_shape _ _ _ _ Hc) as (HB & HS & _).
    apply Forall2_length in HB, HS. cbn [sortedBuy sortedSell c0] in HB, HS.
    destruct (republish_spec s1 t (λ q, enqueue_remaining q (sortedBuy c))
                (λ q, enqueue_remaining q (sortedSell c))
                (remaining (sortedBuy c)) (remaining (sortedSell c))
                (printed c) _ _ Hdr)
      as (s' & Hr & Hb & Hs & Ho & Hu2).
    + intros q. apply enqueue_remaining_filter.
    + intros q. apply enqueue_remaining_filter.
    + unfold remaining. etrans; [apply length_filter|]. rewrite <-HB.
      apply bucket_sort_length, prices_descending_NoDup.
    + unfold remaining. etrans; [apply length_filter|]. rewrite <-HS.
      apply bucket_sort_length, prices_ascending_NoDup.
    + exists s'. rewrite Hr, Hb, Hs, Ho.
      split; [reflexivity|]. split; [reflexivity|].
      by eapply others_untouched_trans.
Qed.
End pass.

(** Closing a fact about a concrete state by evaluation. *)
Ltac by_evaluation :=
  vm_compute;
  first [ reflexivity | let H := fresh in intros H; discriminate H ].

Ltac queue_wf_by_evaluation :=
  constructor; [by_evaluation | split; by_evaluation | by_evaluation
               | repeat split; by_evaluation | by_evaluation | by_evaluation].

Ltac queue_ready_by_evaluation :=
  split; [queue_wf_by_evaluation | by_evaluation].

Ltac ticker_ready_by_evaluation :=
  split; [split; by_evaluation|];
  split; (eexists; split; [vm_compute; reflexivity | queue_ready_by_evaluation]).

Ltac split_conjunctions :=
  repeat match goal with |- _ ∧ _ => split end.

Ltac Forall_by_evaluation :=
  match goal with
  | |- Forall ?P ?l =>
      let l' := eval vm_compute in l in
      let E := fresh in
      assert (l = l') as E by (vm_compute; reflexivity); rewrite E; clear E
  end;
  repeat apply Forall_cons_2; try apply Forall_nil_2;
  cbv beta; split_conjunctions; by_evaluation.

(** ** Properties of a matching pass *)

(** C6, as the code has it.  In a pass run with no other thread active,
    when the buy side or the sell side of the ticker is empty, the
    pass prints no trade, leaves in each of the two queues exactly the
    orders it held, unchanged and in their order, and does not touch the
    queues of the other tickers. *)
Theorem matchOrders_empty_side (s : state) (t : Z) :
  ticker_ready s t →
  buy_contents s t = [] ∨ sell_contents s t = [] →
  ∃ s', matchOrders t s = Ok s' ∧
        stdout s' = stdout s ∧
        buy_contents s' t = buy_contents s t ∧
        sell_contents s' t = sell_contents s t ∧
        others_untouched t s s'.
Proof.
  intros Hready Hempty.
  destruct (matchOrders_pass_result s t Hready) as (s' & Hm & Hp & Hu).
  exists s'. unfold pass_result in Hp.
  rewrite decide_True in Hp.
  - by simplify_eq.
  - destruct Hempty as [-> | ->]; auto.
Qed.

Section pass_sorted.
Implicit Types (s : state) (t : Z) (src : list Order).

(** A property of the drained orders still holds in a sorted array. *)
Lemma Forall_sortedBuy (P : Order → Prop) src :
  Forall P src → Forall P (bucket_sort prices_descending src).
Proof.
  intros HP. rewrite sortedBuy_perm. apply Forall_forall.
  intros o [_ Ho]%list_elem_of_filter. by eapply Forall_forall in HP.
Qed.

Lemma Forall_sortedSell (P : Order → Prop) src :
  Forall P src → Forall P (bucket_sort prices_ascending src).
Proof.
  intros HP. rewrite sortedSell_perm. apply Forall_forall.
  intros o [_ Ho]%list_elem_of_filter. by eapply Forall_forall in HP.
Qed.

(** With both sides non-empty, [pass_result] is the outcome of the
    two-pointer loop on the two sorted arrays. *)
Lemma pass_result_sorted t (buys sells : list Order) out r :
  buys ≠ [] → sells ≠ [] →
  pass_result t buys sells out = Ok r →
  ∃ c, cross_loop (length (bucket_sort prices_descending buys)
                   + length (bucket_sort prices_ascending sells)) t
         {| sortedBuy := bucket_sort prices_descending buys;
            sortedSell := bucket_sort prices_ascending sells;
            buy_i := 0; sell_j := 0; printed := out |} = Ok c ∧
       r = (remaining (sortedBuy c), remaining (sortedSell c), printed c).
Proof.
  intros Hb Hs. unfold pass_result.
  rewrite decide_False; last first.
  { intros [E|E]; apply length_zero_iff_nil in E; done. }
  destruct (cross_loop _ _ _) as [c|]; cbn [mbind res_bind]; [|done].
  intros [= <-]. by exists c.
Qed.
End pass_sorted.

(** C2. On a ticker whose orders all have a positive [int] quantity and
    a price between 10 and 1000 once cast to [int], a pass run with no
    other thread active lowers the total quantity held by the two queues
    by exactly twice the shares of the trades it prints; nothing else
    is lost or added. *)
Theorem matchOrders_conserves_quantity (s : state) (t : Z) :
  ticker_ready s t →
  Forall (λ o, quantity o > 0 ∧ quantity o ≤ INT_MAX ∧
               10 ≤ double_to_int (price o) ≤ 1000)
         (buy_contents s t ++ sell_contents s t) →
  ∃ s' trades,
    matchOrders t s = Ok s' ∧
    stdout s' = stdout s ++ trades ∧
    Forall (is_trade t) trades ∧
    total_quantity (buy_contents s' t) + total_quantity (sell_contents s' t)
    = total_quantity (buy_contents s t) + total_quantity (sell_contents s t)
      - 2 * traded trades.
Proof.
  intros Hready [HB HS]%Forall_app.
  destruct (matchOrders_pass_result s t Hready) as (s' & Hm & Hp & _).
  exists s'.
  destruct (decide (buy_contents s t = [] ∨ sell_contents s t = [])) as [He|Hne].
  - unfold pass_result in Hp. rewrite decide_True in Hp
      by (destruct He as [-> | ->]; auto).
    injection Hp as <- <- <-. exists []. rewrite app_nil_r.
    split; [done|]. split; [done|]. split; [constructor|]. cbn [traded foldr]. lia.
  - apply pass_result_sorted in Hp as (c & Hc & [= -> -> ->]); [|tauto..].
    destruct (cross_loop_shape _ _ _ _ Hc) as (_ & _ & trades & Hpr & Htr).
    assert (Forall (λ o, 0 ≤ quantity o ≤ INT_MAX) (buy_contents s t)) as HB0
      by (eapply Forall_impl; [exact HB|]; cbv beta; intros; lia).
    assert (Forall (λ o, 0 ≤ quantity o ≤ INT_MAX) (sell_contents s t)) as HS0
      by (eapply Forall_impl; [exact HS|]; cbv beta; intros; lia).
    apply cross_loop_conserves in Hc as (HB' & HS' & trades' & Hpr' & Htot);
      [|cbn [sortedBuy]; by apply Forall_sortedBuy
       |cbn [sortedSell]; by apply Forall_sortedSell].
    cbn [sortedBuy sortedSell printed] in Hpr, Hpr', Htot, Htr.
    assert (trades' = trades) as ->
      by (apply (app_inv_head (stdout s)); congruence).
    exists trades. split; [done|]. split; [done|]. split.
    + eapply Forall_impl; [exact Htr|]. intros e (m & x & _ & ->). by eexists _, _.
    + rewrite (total_quantity_remaining (sortedBuy c))
        by (eapply Forall_impl; [exact HB'|]; cbv beta; intros; lia).
      rewrite (total_quantity_remaining (sortedSell c))
        by (eapply Forall_impl; [exact HS'|]; cbv beta; intros; lia).
      rewrite Htot.
      rewrite (total_quantity_perm _ _ (sortedBuy_perm _)).
      rewrite (total_quantity_perm _ _ (sortedSell_perm _)).
      rewrite (filter_all tradable (buy_contents s t))
        by (eapply Forall_impl; [exact HB|]; unfold tradable; cbv beta; intros; lia).
      rewrite (filter_all tradable (sell_contents s t))
        by (eapply Forall_impl; [exact HS|]; unfold tradable; cbv beta; intros; lia).
      reflexivity.
Qed.

Section untradable.
Implicit Types (s : state) (t : Z) (src : list Order) (o : Order).

Lemma elem_of_sortedBuy o src :
  o ∈ bucket_sort prices_descending src ↔ tradable o ∧ o ∈ src.
Proof. by rewrite sortedBuy_perm, list_elem_of_filter. Qed.

Lemma elem_of_sortedSell o src :
  o ∈ bucket_sort prices_ascending src ↔ tradable o ∧ o ∈ src.
Proof. by rewrite sortedSell_perm, list_elem_of_filter. Qed.

(** What is handed back after the loop is tradable: the loop keeps
    the prices and only orders with shares left are handed back. *)
Lemma remaining_tradable (sorted0 sorted : list Order) o :
  Forall2 same_order sorted0 sorted → Forall tradable sorted0 →
  o ∈ remaining sorted → tradable o.
Proof.
  intros HF Ht [Hq Ho]%list_elem_of_filter.
  apply list_elem_of_lookup in Ho as [i Hi].
  destruct (Forall2_lookup_r _ _ _ _ _ HF Hi) as (x & Hx & _ & _ & Hprice).
  pose proof (Forall_lookup_1 _ _ _ _ Ht Hx) as [Hrange _].
  split; [|done]. by rewrite <-Hprice.
Qed.

Lemma sortedBuy_tradable src : Forall tradable (bucket_sort prices_descending src).
Proof. apply Forall_forall. by intros o [? _]%elem_of_sortedBuy. Qed.

Lemma sortedSell_tradable src : Forall tradable (bucket_sort prices_ascending src).
Proof. apply Forall_forall. by intros o [? _]%elem_of_sortedSell. Qed.
End untradable.

(** C10. In a pass that finds orders on both sides, a drained order
    whose price cast to [int] is outside 10..1000, or whose quantity is
    not positive, is in neither sorted array; after the pass it is in
    neither queue of the ticker, and the pass has printed nothing but
    "Matched" lines, each at the price of a tradable sell order. *)
Theorem matchOrders_drops_untradable (s : state) (t : Z) (o : Order) :
  ticker_ready s t →
  buy_contents s t ≠ [] → sell_contents s t ≠ [] →
  o ∈ buy_contents s t ∨ o ∈ sell_contents s t →
  double_to_int (price o) < 10 ∨ 1000 < double_to_int (price o) ∨ quantity o ≤ 0 →
  (o ∉ bucket_sort prices_descending (buy_contents s t)) ∧
  (o ∉ bucket_sort prices_ascending (sell_contents s t)) ∧
  ∃ s' trades,
    matchOrders t s = Ok s' ∧
    (o ∉ buy_contents s' t) ∧ (o ∉ sell_contents s' t) ∧
    stdout s' = stdout s ++ trades ∧
    Forall (λ e, ∃ m x, tradable x ∧ x ∈ sell_contents s t ∧
                        e = MatchedMsg t m (price x)) trades.
Proof.
  intros Hready Hb Hs _ Hbad.
  assert (¬ tradable o) as Hnt by (unfold tradable; lia).
  split; [by intros [? _]%elem_of_sortedBuy|].
  split; [by intros [? _]%elem_of_sortedSell|].
  destruct (matchOrders_pass_result s t Hready) as (s' & Hm & Hp & _).
  apply pass_result_sorted in Hp as (c & Hc & [= Hrb Hrs Hout]); [|done..].
  destruct (cross_loop_shape _ _ _ _ Hc) as (HFb & HFs & trades & Hpr & Htr).
  cbn [sortedBuy sortedSell printed] in HFb, HFs, Hpr, Htr.
  exists s', trades. split; [exact Hm|]. split; [|split; [|split]].
  - rewrite Hrb. intros Ho. apply Hnt.
    exact (remaining_tradable _ _ _ HFb (sortedBuy_tradable _) Ho).
  - rewrite Hrs. intros Ho. apply Hnt.
    exact (remaining_tradable _ _ _ HFs (sortedSell_tradable _) Ho).
  - congruence.
  - eapply Forall_impl; [exact Htr|].
    intros e (m & x & [Hx1 Hx2]%elem_of_sortedSell & ->).
    exists m, x. split; [exact Hx1|]. split; [exact Hx2|]. reflexivity.
Qed.

(** ** Worked example *)




(** ** The properties at concrete states *)

Lemma matchOrders_empty_side_witness :
  ∃ s', matchOrders 7 one_sided_state = Ok s' ∧
        stdout s' = stdout one_sided_state ∧
        buy_contents s' 7 = buy_contents one_sided_state 7 ∧
        sell_contents s' 7 = sell_contents one_sided_state 7 ∧
        others_untouched 7 one_sided_state s'.
Proof.
  apply (matchOrders_empty_side one_sided_state 7).
  - ticker_ready_by_evaluation.
  - right. by_evaluation.
Defined.

Lemma matchOrders_conserves_quantity_witness :
  ∃ s' trades,
    matchOrders 7 crossing_state = Ok s' ∧
    stdout s' = stdout crossing_state ++ trades ∧
    Forall (is_trade 7) trades ∧
    total_quantity (buy_contents s' 7) + total_quantity (sell_contents s' 7)
    = total_quantity (buy_contents crossing_state 7)
      + total_quantity (sell_contents crossing_state 7) - 2 * traded trades.
Proof.
  apply (matchOrders_conserves_quantity crossing_state 7).
  - ticker_ready_by_evaluation.
  - Forall_by_evaluation.
Defined.

Lemma matchOrders_drops_untradable_witness :
  (untradable_order ∉ bucket_sort prices_descending (buy_contents untradable_state 3)) ∧
  (untradable_order ∉ bucket_sort prices_ascending (sell_contents untradable_state 3)) ∧
  ∃ s' trades,
    matchOrders 3 untradable_state = Ok s' ∧
    (untradable_order ∉ buy_contents s' 3) ∧
    (untradable_order ∉ sell_contents s' 3) ∧
    stdout s' = stdout untradable_state ++ trades ∧
    Forall (λ e, ∃ m x, tradable x ∧ x ∈ sell_contents untradable_state 3 ∧
                        e = MatchedMsg 3 m (price x)) trades.
Proof.
  apply (matchOrders_drops_untradable untradable_state 3 untradable_order).
  - ticker_ready_by_evaluation.
  - by_evaluation.
  - by_evaluation.
  - left. vm_compute. constructor.
  - right. right. by_evaluation.
Defined.

(** ** Order submission *)

(** C9. An order whose type is neither 'B' nor 'S' touches no queue and
    is reported with the line of a full queue. *)
Theorem addOrder_unknown_type (orderType : ascii) (t quantity : Z) (p : double)
    (s : state) :
  orderType ≠ "B"%char → orderType ≠ "S"%char →
  addOrder orderType t quantity p s
  = Ok {| book := book s; stdout := stdout s ++ [QueueFullMsg t] |}.
Proof.
  intros HB HS. unfold addOrder.
  apply Ascii.eqb_neq in HB, HS. rewrite HB, HS. reflexivity.
Qed.

Lemma addOrder_unknown_type_witness :
  addOrder "X" 5 10 (double_of_int 20) initial_state
  = Ok {| book := book initial_state;
          stdout := stdout initial_state ++ [QueueFullMsg 5] |}.
Proof.
  apply (addOrder_unknown_type "X" 5 10 (double_of_int 20) initial_state).
  - intros H; discriminate H.
  - intros H; discriminate H.
Defined.

Section submission.
Implicit Types (s : state) (t : Z) (q : MinimalQueue).

Lemma book_eta (b : OrderBook) :
  {| buyQueues := buyQueues b; sellQueues := sellQueues b |} = b.
Proof. by destruct b. Qed.

(** [addOrder] on the queue it selects. *)
Lemma addOrder_selected orderType t quantity p s q b q' :
  orderType = "B"%char ∨ orderType = "S"%char → 0 ≤ t →
  queue_of orderType s t = Some q →
  enqueue q {| type := orderType; ticker := t; quantity := quantity; price := p |}
  = Ok (b, q') →
  ∃ s', addOrder orderType t quantity p s = Ok s' ∧
        queue_of orderType s' t = Some q' ∧
        stdout s' = stdout s ++
          [if b then OrderAddedMsg orderType t quantity p else QueueFullMsg t] ∧
        (q' = q → book s' = book s).
Proof.
  intros Hty Ht Hq He. unfold addOrder, queue_of in *.
  destruct Hty as [-> | ->]; cbn [Ascii.eqb Bool.eqb] in *.
  - rewrite (at_ticker_Some _ _ _ _ _ _ Ht Hq He). cbn [mbind res_bind].
    destruct b; cbn [negb]; (eexists; split; [reflexivity|]);
      cbn [book stdout buyQueues sellQueues];
      (split; [apply list_lookup_insert_eq; by eapply lookup_lt_Some|];
       split; [done|]; intros ->; rewrite list_insert_id by done;
       apply book_eta).
  - rewrite (at_ticker_Some _ _ _ _ _ _ Ht Hq He). cbn [mbind res_bind].
    destruct b; cbn [negb]; (eexists; split; [reflexivity|]);
      cbn [book stdout buyQueues sellQueues];
      (split; [apply list_lookup_insert_eq; by eapply lookup_lt_Some|];
       split; [done|]; intros ->; rewrite list_insert_id by done;
       apply book_eta).
Qed.
End submission.

(** C3, as the code has it.  [addOrder] checks neither the quantity nor
    the price: on a ticker of the book and for type 'B' or 'S', an order
    with any quantity and any price is appended to the selected queue and
    reported as added when the queue has room, and is dropped with the
    full-queue line, the book unchanged, when it has none. *)
Theorem addOrder_no_validation (orderType : ascii) (t quantity : Z) (p : double)
    (s : state) (q : MinimalQueue) :
  orderType = "B"%char ∨ orderType = "S"%char → 0 ≤ t →
  queue_of orderType s t = Some q → queue_wf q → tailReservation q < INT_MAX →
  (occupancy q < capacity q →
   ∃ s' q', addOrder orderType t quantity p s = Ok s' ∧
            queue_of orderType s' t = Some q' ∧
            contents q' = contents q ++
              [{| type := orderType; ticker := t; quantity := quantity; price := p |}] ∧
            stdout s' = stdout s ++ [OrderAddedMsg orderType t quantity p]) ∧
  (occupancy q >= capacity q →
   addOrder orderType t quantity p s
   = Ok {| book := book s; stdout := stdout s ++ [QueueFullMsg t] |}).
Proof.
  intros Hty Ht Hq Hwf Hmax. split.
  - intros Hroom.
    destruct (enqueue_room q
                {| type := orderType; ticker := t; quantity := quantity; price := p |}
                Hwf Hroom Hmax) as (q' & He & _ & Hc & _).
    destruct (addOrder_selected _ _ _ _ _ _ _ _ Hty Ht Hq He)
      as (s' & Ha & Hq' & Hout & _).
    by exists s', q'.
  - intros Hfull.
    pose proof (enqueue_full q
                  {| type := orderType; ticker := t; quantity := quantity; price := p |}
                  Hwf Hfull) as He.
    destruct (addOrder_selected _ _ _ _ _ _ _ _ Hty Ht Hq He)
      as (s' & Ha & _ & Hout & Hbook).
    rewrite Ha. f_equal. destruct s' as [bk out]. cbn in *.
    by rewrite Hout, Hbook.
Qed.

Lemma addOrder_no_validation_witness :
  (occupancy fresh_queue < capacity fresh_queue →
   ∃ s' q', addOrder "B" 0 (-5) (double_of_int 5) initial_state = Ok s' ∧
            queue_of "B" s' 0 = Some q' ∧
            contents q' = contents fresh_queue ++
              [{| type := "B"; ticker := 0; quantity := -5;
                  price := double_of_int 5 |}] ∧
            stdout s' = stdout initial_state
                        ++ [OrderAddedMsg "B" 0 (-5) (double_of_int 5)]) ∧
  (occupancy fresh_queue >= capacity fresh_queue →
   addOrder "B" 0 (-5) (double_of_int 5) initial_state
   = Ok {| book := book initial_state;
           stdout := stdout initial_state ++ [QueueFullMsg 0] |}).
Proof.
  apply (addOrder_no_validation "B" 0 (-5) (double_of_int 5) initial_state
           fresh_queue).
  - by left.
  - by_evaluation.
  - by_evaluation.
  - queue_wf_by_evaluation.
  - by_evaluation.
Defined.

(** C3 as stated fails: on the fresh book, a buy order for ticker 0 with
    quantity -5 and price 5 is not rejected; it is published in the buy
    queue and reported as added. *)
Lemma addOrder_accepts_invalid_order :
  is_ok (addOrder "B" 0 (-5) (double_of_int 5) initial_state) = true ∧
  buy_contents (state_after (addOrder "B" 0 (-5) (double_of_int 5) initial_state)) 0
  = [{| type := "B"; ticker := 0; quantity := -5; price := double_of_int 5 |}] ∧
  stdout (state_after (addOrder "B" 0 (-5) (double_of_int 5) initial_state))
  = [OrderAddedMsg "B" 0 (-5) (double_of_int 5)].
Proof. split_conjunctions; by_evaluation. Qed.

(** ** Capacity, order of delivery and the counters *)

Section capacity.
Implicit Types (q : MinimalQueue) (items : list Order).

(** The only way [enqueue] returns false is its first test, before
    any assignment. *)
Lemma enqueue_false_unchanged q o q' : enqueue q o = Ok (false, q') → q' = q.
Proof.
  unfold enqueue. destruct (decide _); [by intros [= <-]|].
  destruct (c_rem _ _); cbn [mbind res_bind]; [|done].
  destruct (array_set _ _ _); cbn [mbind res_bind]; [|done].
  by destruct (decide _).
Qed.

(** Call number [i] of a run succeeds exactly when fewer than
    [capacity] slots are taken by then. *)
Lemma enqueue_run_spec q items :
  queue_wf q → tailReservation q + Z.of_nat (length items) ≤ INT_MAX →
  ∃ trace, enqueue_run q items = Ok trace ∧ length trace = length items ∧
    ∀ (i : nat) b q', trace !! i = Some (b, q') →
      b = bool_decide (occupancy q + Z.of_nat i < capacity q) ∧
      occupancy q' = Z.min (capacity q) (occupancy q + Z.of_nat i + 1) ∧
      capacity q' = capacity q.
Proof.
  revert q. induction items as [|o items IH]; intros q Hwf Hmax.
  - exists []. split; [done|]. split; [done|]. intros i b q' Hi. done.
  - cbn [length] in Hmax.
    pose proof (wf_invariant _ Hwf) as (Hi1 & Hi2 & Hi3).
    pose proof (wf_published _ Hwf) as Hp.
    destruct (decide (occupancy q < capacity q)) as [Hroom|Hfull].
    + destruct (enqueue_room q o Hwf Hroom) as (q1 & He & Hwf1 & _ & Hh & Hr & Hc);
        [lia|].
      destruct (IH q1 Hwf1) as (trace & Hrun & Hlen & Hall); [lia|].
      exists ((true, q1) :: trace). cbn [enqueue_run]. rewrite He.
      cbn [mbind res_bind]. rewrite Hrun. cbn [mbind res_bind].
      split; [done|]. split; [by rewrite !length_cons, Hlen|].
      assert (occupancy q1 = occupancy q + 1) as Ho1
        by (unfold occupancy; lia).
      intros [|i] b q' Hi; cbn in Hi.
      * injection Hi as <- <-. rewrite bool_decide_true by lia.
        split; [done|]. split; [lia|done].
      * destruct (Hall i b q' Hi) as (-> & Ho & Hcap).
        rewrite Hc, Ho1 in *. split; [|split; [lia|done]].
        apply bool_decide_ext. lia.
    + assert (occupancy q = capacity q) as Hocc by (unfold occupancy in *; lia).
      pose proof (enqueue_full q o Hwf ltac:(lia)) as He.
      destruct (IH q Hwf) as (trace & Hrun & Hlen & Hall); [lia|].
      exists ((false, q) :: trace). cbn [enqueue_run]. rewrite He.
      cbn [mbind res_bind]. rewrite Hrun. cbn [mbind res_bind].
      split; [done|]. split; [by rewrite !length_cons, Hlen|].
      intros [|i] b q' Hi; cbn in Hi.
      * injection Hi as <- <-. rewrite bool_decide_false by lia.
        split; [done|]. split; [lia|done].
      * destruct (Hall i b q' Hi) as (-> & Ho & Hcap).
        split; [|split; [lia|done]].
        rewrite !bool_decide_false by lia. done.
Qed.
End capacity.

(** C4. In a run of [enqueue] calls on a queue with no [dequeue] in
    between, every call returns, the occupancy never exceeds the
    capacity, and call number capacity+1 returns false.  A call that
    returns false leaves the queue exactly as it was. *)
Theorem enqueue_capacity_bound (q : MinimalQueue) (items : list Order) :
  queue_wf q → tailReservation q + Z.of_nat (length items) ≤ INT_MAX →
  (∃ trace, enqueue_run q items = Ok trace ∧ length trace = length items ∧
     (∀ (i : nat) b q', trace !! i = Some (b, q') → occupancy q' ≤ capacity q') ∧
     (∀ b q', trace !! Z.to_nat (capacity q) = Some (b, q') → b = false)) ∧
  (∀ q0 o q1, enqueue q0 o = Ok (false, q1) → q1 = q0).
Proof.
  intros Hwf Hmax. split; [|apply enqueue_false_unchanged].
  destruct (enqueue_run_spec q items Hwf Hmax) as (trace & Hrun & Hlen & Hall).
  exists trace. split; [done|]. split; [done|]. split.
  - intros i b q' Hi. destruct (Hall i b q' Hi) as (_ & Ho & Hc). lia.
  - intros b q' Hi. destruct (Hall _ b q' Hi) as (-> & _).
    pose proof (wf_invariant _ Hwf) as (? & ? & ?).
    pose proof (wf_capacity _ Hwf).
    apply bool_decide_false. unfold occupancy. lia.
Qed.

Section fifo.
Implicit Types (q : MinimalQueue) (ops : list op).

(** In a run of [enqueue] and [dequeue] calls, what was handed out
    followed by what is still published is what was published at the
    start followed by what was accepted. *)
Lemma run_ops_spec q ops accepted handed :
  queue_wf q → tailReservation q + Z.of_nat (length ops) ≤ INT_MAX →
  ∃ a h q', run_ops q ops accepted handed = Ok (accepted ++ a, handed ++ h, q') ∧
    queue_wf q' ∧ h ++ contents q' = contents q ++ a.
Proof.
  revert q accepted handed.
  induction ops as [|[o|] ops IH]; intros q accepted handed Hwf Hmax.
  - exists [], [], q. rewrite !app_nil_r. done.
  - cbn [length] in Hmax.
    pose proof (wf_invariant _ Hwf) as (Hi1 & Hi2 & Hi3).
    destruct (decide (occupancy q < capacity q)) as [Hroom|Hfull].
    + destruct (enqueue_room q o Hwf Hroom) as (q1 & He & Hwf1 & Hc & _ & Hr & _);
        [lia|].
      destruct (IH q1 (accepted ++ [o]) handed Hwf1) as (a & h & q' & Hrun & Hwf' & Hfifo);
        [lia|].
      exists (o :: a), h, q'. cbn [run_ops]. rewrite He. cbn [mbind res_bind].
      rewrite Hrun, <-app_assoc. split; [done|]. split; [done|].
      rewrite Hfifo, Hc, <-app_assoc. done.
    + pose proof (enqueue_full q o Hwf ltac:(lia)) as He.
      destruct (IH q accepted handed Hwf) as (a & h & q' & Hrun & Hwf' & Hfifo);
        [lia|].
      exists a, h, q'. cbn [run_ops]. rewrite He. cbn [mbind res_bind]. done.
  - cbn [length] in Hmax.
    pose proof (wf_invariant _ Hwf) as (Hi1 & Hi2 & Hi3).
    destruct (decide (head q = tail q)) as [Hempty|Hne].
    + destruct (IH q accepted handed Hwf) as (a & h & q' & Hrun & Hwf' & Hfifo);
        [lia|].
      exists a, h, q'. cbn [run_ops]. rewrite dequeue_empty by done.
      cbn [mbind res_bind]. done.
    + destruct (dequeue_some q Hwf) as (o & q1 & Hd & Hwf1 & Hc & _ & _ & Hr & _);
        [lia|].
      destruct (IH q1 accepted (handed ++ [o]) Hwf1) as (a & h & q' & Hrun & Hwf' & Hfifo);
        [lia|].
      exists a, (o :: h), q'. cbn [run_ops]. rewrite Hd. cbn [mbind res_bind].
      rewrite Hrun, <-app_assoc. split; [done|]. split; [done|].
      rewrite Hc. cbn [app]. by rewrite Hfifo.
Qed.
End fifo.

(** C5. After a run of [enqueue] and [dequeue] calls on a queue,
    followed by [dequeue] calls until the queue is empty, the orders
    handed out are, in this order, the orders published at the start
    followed by the orders whose [enqueue] returned true.  For a queue
    that starts empty the two sequences are equal, so each accepted
    order is handed out once and in the order of acceptance. *)
Theorem queue_fifo (q : MinimalQueue) (ops : list op) :
  queue_wf q → tailReservation q + Z.of_nat (length ops) ≤ INT_MAX →
  ∃ accepted handed q' rest q'',
    run_ops q ops [] [] = Ok (accepted, handed, q') ∧
    drain (Z.to_nat QUEUE_CAPACITY) q' [] = Ok (rest, q'') ∧
    head q'' = tail q'' ∧
    handed ++ rest = contents q ++ accepted ∧
    (head q = tail q → handed ++ rest = accepted ∧ handed ++ rest ≡ₚ accepted).
Proof.
  intros Hwf Hmax.
  destruct (run_ops_spec q ops [] [] Hwf Hmax) as (a & h & q' & Hrun & Hwf' & Hfifo).
  destruct (drain_contents (Z.to_nat QUEUE_CAPACITY) q' [] Hwf')
    as (q'' & Hd & _ & Hh & Ht & _).
  { pose proof (wf_invariant _ Hwf') as (? & ? & ?).
    pose proof (wf_capacity _ Hwf'). lia. }
  exists a, h, q', (contents q'), q''.
  split; [exact Hrun|]. split; [exact Hd|]. split; [congruence|].
  split; [exact Hfifo|].
  intros Hempty. rewrite Hfifo, (contents_nil q Hempty). done.
Qed.

(** The counters are ordered [head ≤ tail ≤ tailReservation ≤
    head + capacity] after [initQueue], and every [enqueue] and
    [dequeue] that starts from ordered [int] counters below [INT_MAX]
    leaves them ordered; on a well-formed queue both calls return and
    leave a well-formed queue. *)
Lemma queue_invariant_sequential :
  (∀ q c, 0 ≤ c →
     invariant (initQueue q c) ∧
     head (initQueue q c) = 0 ∧ tail (initQueue q c) = 0 ∧
     tailReservation (initQueue q c) = 0) ∧
  (∀ q o b q', counters_typed q → tailReservation q < INT_MAX → invariant q →
     enqueue q o = Ok (b, q') → invariant q') ∧
  (∀ q r q', counters_typed q → invariant q →
     dequeue q = Ok (r, q') → invariant q') ∧
  (∀ q o, queue_wf q → tailReservation q < INT_MAX →
     ∃ b q', enqueue q o = Ok (b, q') ∧ queue_wf q') ∧
  (∀ q, queue_wf q → ∃ r q', dequeue q = Ok (r, q') ∧ queue_wf q').
Proof.
  split_conjunctions.
  - intros q c Hc. unfold invariant. cbn. lia.
  - intros q o b q' (Hth & Htt & Htr & Htc) Hmax (Hi1 & Hi2 & Hi3).
    unfold enqueue.
    rewrite (wrap32_id (tailReservation q - head q))
      by (unfold int_range, INT_MIN, INT_MAX in *; lia).
    rewrite (wrap32_id (tailReservation q + 1))
      by (unfold int_range, INT_MIN, INT_MAX in *; lia).
    destruct (decide _) as [|Hroom]; [by intros [= <- <-]|].
    destruct (c_rem _ _); cbn [mbind res_bind]; [|done].
    destruct (array_set _ _ _); cbn [mbind res_bind]; [|done].
    destruct (decide _); [|done]. intros [= <- <-].
    unfold invariant. cbn. lia.
  - intros q r q' (Hth & Htt & Htr & Htc) (Hi1 & Hi2 & Hi3).
    unfold dequeue.
    destruct (decide _) as [|Hne]; [by intros [= <- <-]|].
    rewrite (wrap32_id (head q + 1))
      by (unfold int_range, INT_MIN, INT_MAX in *; lia).
    destruct (c_rem _ _); cbn [mbind res_bind]; [|done].
    destruct (array_get _ _); cbn [mbind res_bind]; [|done].
    intros [= <- <-]. unfold invariant. cbn. lia.
  - intros q o Hwf Hmax.
    destruct (decide (occupancy q < capacity q)) as [Hroom|Hfull].
    + destruct (enqueue_room q o Hwf Hroom Hmax) as (q' & He & Hwf' & _).
      by exists true, q'.
    + exists false, q. split; [|done]. apply enqueue_full; [done|lia].
  - intros q Hwf.
    destruct (decide (head q = tail q)) as [Hempty|Hne].
    + exists None, q. split; [|done]. by apply dequeue_empty.
    + pose proof (wf_invariant _ Hwf) as (? & ? & ?).
      destruct (dequeue_some q Hwf) as (o & q' & Hd & Hwf' & _); [lia|].
      by exists (Some o), q'.
Qed.

Lemma enqueue_capacity_bound_witness :
  (∃ trace,
     enqueue_run fresh_queue (replicate 129 (buy_order 0 1 10)) = Ok trace ∧
     length trace = length (replicate 129 (buy_order 0 1 10)) ∧
     (∀ (i : nat) b q', trace !! i = Some (b, q') → occupancy q' ≤ capacity q') ∧
     (∀ b q', trace !! Z.to_nat (capacity fresh_queue) = Some (b, q') → b = false)) ∧
  (∀ q0 o q1, enqueue q0 o = Ok (false, q1) → q1 = q0).
Proof.
  apply (enqueue_capacity_bound fresh_queue (replicate 129 (buy_order 0 1 10))).
  - queue_wf_by_evaluation.
  - by_evaluation.
Defined.

Lemma queue_fifo_witness :
  ∃ accepted handed q' rest q'',
    run_ops fresh_queue sample_ops [] [] = Ok (accepted, handed, q') ∧
    drain (Z.to_nat QUEUE_CAPACITY) q' [] = Ok (rest, q'') ∧
    head q'' = tail q'' ∧
    handed ++ rest = contents fresh_queue ++ accepted ∧
    (head fresh_queue = tail fresh_queue →
     handed ++ rest = accepted ∧ handed ++ rest ≡ₚ accepted).
Proof.
  apply (queue_fifo fresh_queue sample_ops).
  - queue_wf_by_evaluation.
  - by_evaluation.
Defined.

(** ** Orders refused when they are handed back *)

Section refusals.
Implicit Types (s : state) (t : Z) (q : MinimalQueue).

Lemma is_ok_state_after (r : res state) : is_ok r = true → r = Ok (state_after r).
Proof. by destruct r. Qed.

(** [republish] prints nothing. *)
Lemma republish_stdout t (fb fs : MinimalQueue → res MinimalQueue) out s s' :
  republish t fb fs out s = Ok s' → stdout s' = out.
Proof.
  unfold republish.
  destruct (at_ticker (buyQueues _) _ _) as [[? bqs]|];
    cbn [mbind res_bind]; [|done].
  destruct (at_ticker (sellQueues _) _ _) as [[? sqs]|];
    cbn [mbind res_bind]; [|done].
  by intros [= <-].
Qed.

(** Whatever state the queues are in, the second part of a pass adds
    nothing but "Matched" lines for its ticker to the output. *)
Lemma matchOrders_settle_stdout t (buys sells : list Order) s s' :
  matchOrders_settle t buys sells s = Ok s' →
  ∃ trades, stdout s' = stdout s ++ trades ∧ Forall (is_trade t) trades.
Proof.
  unfold matchOrders_settle. destruct (decide _).
  - intros ->%republish_stdout. exists []. by rewrite app_nil_r.
  - destruct (cross_loop _ _ _) as [c|] eqn:Hc; cbn [mbind res_bind]; [|done].
    intros ->%republish_stdout.
    destruct (cross_loop_shape _ _ _ _ Hc) as (_ & _ & trades & Hpr & Htr).
    cbn [printed sortedSell] in Hpr, Htr.
    exists trades. split; [exact Hpr|].
    eapply Forall_impl; [exact Htr|]. intros e (m & x & _ & ->). by eexists _, _.
Qed.

(** An order that [enqueue] refuses is skipped by both loops that
    hand orders back. *)
Lemma refused_order_skipped q o q' (buf : list Order) :
  enqueue q o = Ok (false, q') →
  enqueue_all q (o :: buf) = enqueue_all q buf ∧
  enqueue_remaining q (o :: buf) = enqueue_remaining q buf.
Proof.
  intros He. pose proof (enqueue_false_unchanged _ _ _ He) as ->.
  cbn [enqueue_all enqueue_remaining]. rewrite He. cbn [mbind res_bind].
  split; [done|]. by destruct (decide _).
Qed.
End refusals.

(** C7, as the code has it.  A refused re-enqueue is not surfaced: the
    loops that hand orders back skip a refused order and go on, and the
    second part of a pass, in whatever state other threads left the
    queues, adds only "Matched" lines to the output.  With no other
    thread active nothing is refused: the pass returns and the queues
    hold exactly the orders handed back. *)
Theorem matchOrders_ignores_refusals :
  (∀ q o q' (buf : list Order), enqueue q o = Ok (false, q') →
     enqueue_all q (o :: buf) = enqueue_all q buf ∧
     enqueue_remaining q (o :: buf) = enqueue_remaining q buf) ∧
  (∀ t (buys sells : list Order) s s',
     matchOrders_settle t buys sells s = Ok s' →
     ∃ trades, stdout s' = stdout s ++ trades ∧ Forall (is_trade t) trades) ∧
  (∀ s t, ticker_ready s t →
     ∃ s', matchOrders t s = Ok s' ∧
           pass_result t (buy_contents s t) (sell_contents s t) (stdout s)
           = Ok (buy_contents s' t, sell_contents s' t, stdout s')).
Proof.
  split_conjunctions.
  - apply refused_order_skipped.
  - apply matchOrders_settle_stdout.
  - intros s t Hready.
    destruct (matchOrders_pass_result s t Hready) as (s' & Hm & Hp & _).
    by exists s'.
Qed.

(** C7 as stated fails.  The buy queue of ticker 0 holds 128 orders of
    1..128 shares and the sell queue is empty.  A producer submits one
    buy order while the pass holds the drained orders; the pass then
    hands the 128 orders back, the last one (128 shares) is refused and
    is gone, and the only line printed since the start is the
    producer's "Order added". *)
Lemma matchOrders_loses_order_silently :
  buy_contents full_state 0 = (λ n, buy_order 0 n 50) <$> seqZ 1 128 ∧
  sell_contents full_state 0 = [] ∧
  is_ok interrupted_pass = true ∧
  buy_contents (state_after interrupted_pass) 0
  = buy_order 0 999 50 :: ((λ n, buy_order 0 n 50) <$> seqZ 1 127) ∧
  sell_contents (state_after interrupted_pass) 0 = [] ∧
  stdout (state_after interrupted_pass)
  = stdout full_state ++ [OrderAddedMsg "B" 0 999 (double_of_int 50)].
Proof. split_conjunctions; by_evaluation. Qed.

Lemma matchOrders_ignores_refusals_witness :
  (enqueue_all full_queue [buy_order 0 999 50; buy_order 0 1 10]
   = enqueue_all full_queue [buy_order 0 1 10] ∧
   enqueue_remaining full_queue [buy_order 0 999 50; buy_order 0 1 10]
   = enqueue_remaining full_queue [buy_order 0 1 10]) ∧
  (∃ trades,
     stdout (state_after
               (matchOrders_settle 7 [buy_order 7 20 100; buy_order 7 10 90]
                  [sell_order 7 15 95; sell_order 7 25 100] initial_state))
     = stdout initial_state ++ trades ∧
     Forall (is_trade 7) trades) ∧
  (∃ s', matchOrders 7 crossing_state = Ok s' ∧
         pass_result 7 (buy_contents crossing_state 7)
           (sell_contents crossing_state 7) (stdout crossing_state)
         = Ok (buy_contents s' 7, sell_contents s' 7, stdout s')).
Proof.
  destruct matchOrders_ignores_refusals as (Hskip & Hout & Hseq).
  split_conjunctions.
  - apply (Hskip full_queue (buy_order 0 999 50) full_queue [buy_order 0 1 10]).
    by_evaluation.
  - apply (Hskip full_queue (buy_order 0 999 50) full_queue [buy_order 0 1 10]).
    by_evaluation.
  - apply (Hout 7 [buy_order 7 20 100; buy_order 7 10 90]
             [sell_order 7 15 95; sell_order 7 25 100] initial_state).
    apply is_ok_state_after. by_evaluation.
  - apply (Hseq crossing_state 7). ticker_ready_by_evaluation.
Defined.

(** ** The queue under interleaved threads *)

Lemma shared_wf_start (q : MinimalQueue) (n : nat) :
  length (orders q) = Z.to_nat QUEUE_CAPACITY → shared_wf (shared_start q n).
Proof.
  intros Hlen.
  constructor; unfold shared_start, invariant;
    cbn [queue threads initQueue orders head tail tailReservation capacity];
    try (unfold QUEUE_CAPACITY, INT_MAX; lia).
  - exact Hlen.
  - intros i p [-> _]%lookup_replicate. exact I.
  - intros i j p p' pos [-> _]%lookup_replicate _ Hr. discriminate Hr.
Qed.

(** Thread [i] moves from [p] to [p'] and leaves the queue [q']. *)
Lemma shared_wf_update (s : shared) (i : nat) (p p' : pc) (q' : MinimalQueue) :
  shared_wf s → threads s !! i = Some p →
  length (orders q') = Z.to_nat QUEUE_CAPACITY →
  capacity q' = capacity (queue s) →
  0 ≤ head q' → invariant q' → tailReservation q' ≤ INT_MAX →
  pc_ok q' i p' →
  (∀ j pj, j ≠ i → threads s !! j = Some pj → pc_ok q' j pj) →
  (∀ pos j pj, reserved p' = Some pos → j ≠ i → threads s !! j = Some pj →
     reserved pj = Some pos → False) →
  shared_wf {| queue := q'; threads := <[i := p']> (threads s) |}.
Proof.
  intros Hwf Hi Hlen Hcap Hhead Hinv Hint Hp' Hothers Hfresh.
  pose proof (lookup_lt_Some _ _ _ Hi) as Hlt.
  constructor; cbn [queue threads]; try assumption.
  - rewrite Hcap. exact (swf_capacity _ Hwf).
  - intros j pj Hj. destruct (decide (j = i)) as [->|Hne].
    + rewrite list_lookup_insert_eq in Hj by exact Hlt. by injection Hj as <-.
    + rewrite list_lookup_insert_ne in Hj by done. by apply Hothers.
  - intros j k pj pk pos Hj Hk Hrj Hrk.
    destruct (decide (j = i)) as [->|Hji]; destruct (decide (k = i)) as [->|Hki];
      try done.
    + rewrite list_lookup_insert_eq in Hj by exact Hlt. injection Hj as <-.
      rewrite list_lookup_insert_ne in Hk by done.
      destruct (Hfresh pos k pk Hrj Hki Hk Hrk).
    + rewrite list_lookup_insert_eq in Hk by exact Hlt. injection Hk as <-.
      rewrite list_lookup_insert_ne in Hj by done.
      destruct (Hfresh pos j pj Hrk Hji Hj Hrj).
    + rewrite list_lookup_insert_ne in Hj by done.
      rewrite list_lookup_insert_ne in Hk by done.
      exact (swf_distinct _ Hwf j k pj pk pos Hj Hk Hrj Hrk).
Qed.

(** Thread [i] moves from [p] to [p'] and the queue stays as it is. *)
Lemma shared_wf_set_pc (s : shared) (i : nat) (p p' : pc) :
  shared_wf s → threads s !! i = Some p →
  pc_ok (queue s) i p' →
  reserved p' = None ∨ reserved p' = reserved p →
  shared_wf {| queue := queue s; threads := <[i := p']> (threads s) |}.
Proof.
  intros Hwf Hi Hp' Hres.
  apply (shared_wf_update s i p p' (queue s) Hwf Hi);
    [exact (swf_slots _ Hwf)|reflexivity|exact (swf_head _ Hwf)
    |exact (swf_invariant _ Hwf)|exact (swf_int _ Hwf)|exact Hp'| |].
  - intros j pj _ Hj. exact (swf_threads _ Hwf j pj Hj).
  - intros pos j pj Hr Hne Hj Hrj. destruct Hres as [E|E].
    + rewrite E in Hr. discriminate Hr.
    + rewrite E in Hr. apply Hne.
      exact (swf_distinct _ Hwf j i pj p pos Hj Hi Hrj Hr).
Qed.

(** A step of a thread returns and keeps the state well-formed; the
    reservation counter grows by at most one. *)
Lemma thread_step_wf (s : shared) (i : nat) (p : pc) (cas_fails : bool) :
  shared_wf s → tailReservation (queue s) < INT_MAX →
  threads s !! i = Some p →
  ∃ p' q', thread_step (queue s) p cas_fails = Ok (p', q') ∧
    shared_wf {| queue := q'; threads := <[i := p']> (threads s) |} ∧
    tailReservation q' ≤ tailReservation (queue s) + 1.
Proof.
  intros Hwf Hmax Hi.
  pose proof (swf_threads _ Hwf i p Hi) as Hpc.
  pose proof (swf_slots _ Hwf) as Hslots.
  pose proof (swf_capacity _ Hwf) as Hcap.
  pose proof (swf_head _ Hwf) as Hhead.
  pose proof (swf_invariant _ Hwf) as (Hi1 & Hi2 & Hi3).
  pose proof (swf_int _ Hwf) as Hint.
  assert (∀ z, 0 ≤ z ≤ INT_MAX → wrap32 z = z) as Hwrap
    by (intros z Hz; apply wrap32_id; unfold int_range, INT_MIN, INT_MAX in *; lia).
  destruct p as [r|o|o pos|o pos h|o pos|pos|pos| |h|h|h o];
    cbn [thread_step pc_ok] in *.
  - (* Idle *)
    eexists _, _. split; [reflexivity|]. split; [|lia].
    by apply (shared_wf_set_pc s i (Idle r)); [| | |left].
  - (* EnqLoadPos *)
    eexists _, _. split; [reflexivity|]. split; [|lia].
    by apply (shared_wf_set_pc s i (EnqLoadPos o)); [| | |left].
  - (* EnqLoadHead *)
    destruct (decide _) as [Hfull|Hroom].
    + eexists _, _. split; [reflexivity|]. split; [|lia].
      by apply (shared_wf_set_pc s i (EnqLoadHead o pos)); [| | |left].
    + eexists _, _. split; [reflexivity|]. split; [|lia].
      apply (shared_wf_set_pc s i (EnqLoadHead o pos)); [done|done| |by left].
      cbn [pc_ok]. lia.
  - (* EnqCas *)
    destruct Hpc as [Hh Hroom].
    destruct (bool_decide _ && negb _) eqn:Hcas.
    + apply andb_true_iff in Hcas as [Heq%bool_decide_eq_true _].
      rewrite <-Heq in *. clear Heq.
      rewrite Hwrap in Hroom by lia.
      rewrite (Hwrap (tailReservation (queue s) + 1)) by lia.
      eexists _, _. split; [reflexivity|]. split;
        [|cbn [tailReservation]; lia].
      apply (shared_wf_update s i _ _ _ Hwf Hi);
        unfold invariant; cbn [orders head tail tailReservation capacity pc_ok reserved];
        try done; try lia.
      * intros j pj Hne Hj. pose proof (swf_threads _ Hwf j pj Hj) as Hpj.
        destruct pj as [?|?|? ?|? ? hj|? pj_pos|pj_pos|pj_pos| |hj|hj|hj ?]; cbn [pc_ok head tail tailReservation capacity] in *;
          try done; lia.
      * intros pos' j pj [= <-] Hne Hj Hrj.
        pose proof (swf_threads _ Hwf j pj Hj) as Hpj.
        destruct pj as [?|?|? ?|? ? hj|? pj_pos|pj_pos|pj_pos| |hj|hj|hj ?]; cbn [pc_ok reserved] in *; try done;
          injection Hrj as ->; lia.
    + eexists _, _. split; [reflexivity|]. split; [|lia].
      by apply (shared_wf_set_pc s i (EnqCas o pos h)); [| | |left].
  - (* EnqWrite *)
    rewrite c_rem_ok by lia. cbn [mbind res_bind].
    pose proof (Z.mod_pos_bound pos (capacity (queue s)) ltac:(lia)) as Hidx.
    unfold array_set. rewrite decide_True by lia. cbn [mbind res_bind].
    eexists _, _. split; [reflexivity|]. split;
      [|cbn [tailReservation]; lia].
    apply (shared_wf_update s i _ _ _ Hwf Hi);
      unfold invariant; cbn [orders head tail tailReservation capacity pc_ok reserved];
      try done; try lia.
    * by rewrite length_insert.
    * intros j pj Hne Hj. pose proof (swf_threads _ Hwf j pj Hj) as Hpj.
      destruct pj as [?|?|? ?|? ? hj|? pj_pos|pj_pos|pj_pos| |hj|hj|hj ?]; cbn [pc_ok head tail tailReservation capacity] in *; done.
    * intros pos' j pj [= <-] Hne Hj Hrj. apply Hne.
      exact (swf_distinct _ Hwf j i pj _ pos Hj Hi Hrj eq_refl).
  - (* EnqLoadTail *)
    destruct (decide _) as [Heq|Hne].
    + eexists _, _. split; [reflexivity|]. split; [|lia].
      apply (shared_wf_set_pc s i (EnqLoadTail pos)); [done|done| |by right].
      cbn [pc_ok]. lia.
    + eexists _, _. split; [reflexivity|]. split; [|lia].
      by apply (shared_wf_set_pc s i (EnqLoadTail pos)); [| | |right].
  - (* EnqStoreTail *)
    destruct Hpc as [Htail Hres].
    rewrite Hwrap by lia.
    eexists _, _. split; [reflexivity|]. split;
      [|cbn [tailReservation]; lia].
    apply (shared_wf_update s i _ _ _ Hwf Hi);
      unfold invariant; cbn [orders head tail tailReservation capacity pc_ok reserved];
      try done; try lia.
    intros j pj Hne Hj. pose proof (swf_threads _ Hwf j pj Hj) as Hpj.
    assert (reserved pj = Some pos → False) as Hfresh.
    { intros Hrj. apply Hne.
      exact (swf_distinct _ Hwf j i pj _ pos Hj Hi Hrj eq_refl). }
    destruct pj as [?|?|? ?|? ? hj|? pj_pos|pj_pos|pj_pos| |hj|hj|hj ?]; cbn [pc_ok reserved head tail tailReservation capacity] in *;
      try done; try lia.
    + split; [|lia]. destruct (decide (pj_pos = pos)) as [->|]; [by destruct Hfresh|lia].
    + split; [|lia]. destruct (decide (pj_pos = pos)) as [->|]; [by destruct Hfresh|lia].
    + destruct Hpj as [E _]. destruct Hfresh. by rewrite <-E, Htail.
  - (* DeqLoadHead *)
    eexists _, _. split; [reflexivity|]. split; [|lia].
    by apply (shared_wf_set_pc s i DeqLoadHead); [| | |left].
  - (* DeqLoadTail *)
    destruct Hpc as [Hc Hh].
    destruct (decide _) as [Hempty|Hne].
    + eexists _, _. split; [reflexivity|]. split; [|lia].
      by apply (shared_wf_set_pc s i (DeqLoadTail h)); [| | |left].
    + eexists _, _. split; [reflexivity|]. split; [|lia].
      apply (shared_wf_set_pc s i (DeqLoadTail h)); [done|done| |by left].
      cbn [pc_ok]. split; [done|]. split; [done|]. lia.
  - (* DeqRead *)
    destruct Hpc as (Hc & Hh & Hlt).
    rewrite c_rem_ok by lia. cbn [mbind res_bind].
    pose proof (Z.mod_pos_bound h (capacity (queue s)) ltac:(lia)) as Hidx.
    unfold array_get. rewrite decide_True by lia.
    destruct (lookup_lt_is_Some_2 (orders (queue s))
                (Z.to_nat (h `mod` capacity (queue s)))) as [o Ho]; [lia|].
    rewrite Ho. cbn [mbind res_bind].
    eexists _, _. split; [reflexivity|]. split; [|lia].
    by apply (shared_wf_set_pc s i (DeqRead h)); [| | |left].
  - (* DeqStoreHead *)
    destruct Hpc as (Hc & Hh & Hlt).
    rewrite Hwrap by lia.
    eexists _, _. split; [reflexivity|]. split;
      [|cbn [tailReservation]; lia].
    apply (shared_wf_update s i _ _ _ Hwf Hi);
      unfold invariant; cbn [orders head tail tailReservation capacity pc_ok reserved];
      try done; try lia.
    intros j pj Hne Hj. pose proof (swf_threads _ Hwf j pj Hj) as Hpj.
    destruct pj as [?|?|? ?|? ? hj|? pj_pos|pj_pos|pj_pos| |hj|hj|hj ?]; cbn [pc_ok reserved head tail tailReservation capacity] in *;
      try done; try lia; destruct Hpj as [-> _]; by subst i.
Qed.

(** Every action returns and keeps the state well-formed. *)
Lemma atomic_step_wf (a : action) (s : shared) :
  shared_wf s → tailReservation (queue s) < INT_MAX →
  ∃ s', atomic_step a s = Ok s' ∧ shared_wf s' ∧
        tailReservation (queue s') ≤ tailReservation (queue s) + 1.
Proof.
  intros Hwf Hmax. destruct a as [i o| |i cas_fails]; cbn [atomic_step].
  - destruct (threads s !! i) as [p|] eqn:Hi;
      [destruct p|]; try (exists s; split; [reflexivity|split; [exact Hwf|lia]]).
    eexists. split; [reflexivity|]. split; [|cbn [queue]; lia].
    by apply (shared_wf_set_pc s i (Idle r)); [| | |left].
  - destruct (threads s !! consumer) as [p|] eqn:Hi;
      [destruct p|]; try (exists s; split; [reflexivity|split; [exact Hwf|lia]]).
    eexists. split; [reflexivity|]. split; [|cbn [queue]; lia].
    by apply (shared_wf_set_pc s consumer (Idle r)); [| | |left].
  - destruct (threads s !! i) as [p|] eqn:Hi;
      [|exists s; split; [reflexivity|split; [exact Hwf|lia]]].
    destruct (thread_step_wf s i p cas_fails Hwf Hmax Hi) as (p' & q' & Hstep & Hwf' & Hres).
    rewrite Hstep. cbn [mbind res_bind].
    eexists. split; [reflexivity|]. split; [exact Hwf'|exact Hres].
Qed.

Lemma run_actions_wf (acts : list action) (s : shared) :
  shared_wf s →
  tailReservation (queue s) + Z.of_nat (length acts) ≤ INT_MAX →
  ∃ s', run_actions acts s = Ok s' ∧ shared_wf s'.
Proof.
  revert s. induction acts as [|a acts IH]; intros s Hwf Hmax.
  - by exists s.
  - cbn [length] in Hmax.
    destruct (atomic_step_wf a s Hwf) as (s1 & Hstep & Hwf1 & Hres); [lia|].
    destruct (IH s1 Hwf1) as (s' & Hrun & Hwf'); [lia|].
    exists s'. cbn [run_actions]. rewrite Hstep. cbn [mbind res_bind].
    by split.
Qed.

(** The steps of a thread that runs alone make up the sequential
    [enqueue] and [dequeue]. *)
Lemma enqueue_run_alone (q q' : MinimalQueue) (o : Order) (b : bool) :
  enqueue q o = Ok (b, q') → run_alone 6 q (EnqLoadPos o) = Ok (EnqRet b, q').
Proof.
  unfold enqueue. cbn [run_alone thread_step mbind res_bind].
  destruct (decide (wrap32 (tailReservation q - head q) >= capacity q)) as [Hfull|Hroom].
  - intros [= <- <-]. reflexivity.
  - cbn [run_alone thread_step mbind res_bind].
    rewrite bool_decide_eq_true_2 by reflexivity. cbn [andb negb mbind res_bind].
    cbn [run_alone thread_step mbind res_bind capacity orders].
    destruct (c_rem _ _) as [idx|]; cbn [mbind res_bind]; [|done].
    destruct (array_set _ _ _) as [slots|]; cbn [mbind res_bind]; [|done].
    cbn [run_alone thread_step mbind res_bind tail].
    destruct (decide (tail q = tailReservation q)) as [Heq|Hne]; [|done].
    cbn [run_alone thread_step mbind res_bind orders head tail tailReservation capacity].
    by intros [= <- <-].
Qed.

Lemma dequeue_run_alone (q q' : MinimalQueue) (r : option Order) :
  dequeue q = Ok (r, q') → run_alone 4 q DeqLoadHead = Ok (DeqRet r, q').
Proof.
  unfold dequeue. cbn [run_alone thread_step mbind res_bind].
  destruct (decide (head q = tail q)) as [Hempty|Hne].
  - intros [= <- <-]. reflexivity.
  - cbn [run_alone thread_step mbind res_bind].
    destruct (c_rem _ _) as [idx|]; cbn [mbind res_bind]; [|done].
    destruct (array_get _ _) as [o|]; cbn [mbind res_bind]; [|done].
    cbn [run_alone thread_step mbind res_bind].
    by intros [= <- <-].
Qed.

(** C8. The counters are ordered [head ≤ tail ≤ tailReservation ≤
    head + capacity] at all times.  They are after [initQueue]; every
    [enqueue] and [dequeue] that starts from ordered [int] counters
    below [INT_MAX] leaves them ordered, and on a well-formed queue both
    calls return and leave a well-formed queue.  When any number of
    threads call [enqueue] and one thread calls [dequeue], with their
    accesses to the queue interleaved in any order, the counters are
    ordered after every access, also while reservations wait to be
    published, no access faults, and a thread that runs alone makes the
    steps of the sequential call. *)
Theorem queue_invariant :
  (∀ q c, 0 ≤ c →
     invariant (initQueue q c) ∧
     head (initQueue q c) = 0 ∧ tail (initQueue q c) = 0 ∧
     tailReservation (initQueue q c) = 0) ∧
  (∀ q o b q', counters_typed q → tailReservation q < INT_MAX → invariant q →
     enqueue q o = Ok (b, q') → invariant q') ∧
  (∀ q r q', counters_typed q → invariant q →
     dequeue q = Ok (r, q') → invariant q') ∧
  (∀ q o, queue_wf q → tailReservation q < INT_MAX →
     ∃ b q', enqueue q o = Ok (b, q') ∧ queue_wf q') ∧
  (∀ q, queue_wf q → ∃ r q', dequeue q = Ok (r, q') ∧ queue_wf q') ∧
  (∀ q n, length (orders q) = Z.to_nat QUEUE_CAPACITY →
     shared_wf (shared_start q n)) ∧
  (∀ s acts (k : nat), shared_wf s →
     tailReservation (queue s) + Z.of_nat (length acts) ≤ INT_MAX →
     ∃ s', run_actions (take k acts) s = Ok s' ∧ shared_wf s' ∧
           invariant (queue s')) ∧
  (∀ q o b q', enqueue q o = Ok (b, q') →
     run_alone 6 q (EnqLoadPos o) = Ok (EnqRet b, q')) ∧
  (∀ q r q', dequeue q = Ok (r, q') →
     run_alone 4 q DeqLoadHead = Ok (DeqRet r, q')).
Proof.
  destruct queue_invariant_sequential as (Hinit & Henq & Hdeq & Henq_wf & Hdeq_wf).
  split_conjunctions; try assumption.
  - exact shared_wf_start.
  - intros s acts k Hwf Hmax.
    destruct (run_actions_wf (take k acts) s Hwf) as (s' & Hrun & Hwf').
    { rewrite length_take. lia. }
    exists s'. split; [exact Hrun|]. split; [exact Hwf'|exact (swf_invariant _ Hwf')].
  - intros q o b q'. apply enqueue_run_alone.
  - intros q r q'. apply dequeue_run_alone.
Qed.

Lemma queue_invariant_witness :
  invariant (initQueue zero_queue QUEUE_CAPACITY) ∧
  (∀ b q', enqueue fresh_queue zero_order = Ok (b, q') → invariant q') ∧
  (∀ r q', dequeue full_queue = Ok (r, q') → invariant q') ∧
  (∃ b q', enqueue fresh_queue zero_order = Ok (b, q') ∧ queue_wf q') ∧
  (∃ r q', dequeue full_queue = Ok (r, q') ∧ queue_wf q') ∧
  (∀ k : nat, ∃ s', run_actions (take k contended_run) (shared_start zero_queue 3)
                    = Ok s' ∧ shared_wf s' ∧ invariant (queue s')) ∧
  (∀ b q', enqueue fresh_queue zero_order = Ok (b, q') →
     run_alone 6 fresh_queue (EnqLoadPos zero_order) = Ok (EnqRet b, q')) ∧
  (∀ r q', dequeue full_queue = Ok (r, q') →
     run_alone 4 full_queue DeqLoadHead = Ok (DeqRet r, q')).
Proof.
  destruct queue_invariant
    as (Hinit & Henq & Hdeq & Henq_wf & Hdeq_wf & Hstart & Hrun & Henq_alone & Hdeq_alone).
  split_conjunctions.
  - apply (Hinit zero_queue QUEUE_CAPACITY). by_evaluation.
  - intros b q'. apply (Henq fresh_queue zero_order b q').
    + unfold counters_typed, int_range; split_conjunctions; by_evaluation.
    + by_evaluation.
    + unfold invariant; split_conjunctions; by_evaluation.
  - intros r q'. apply (Hdeq full_queue r q').
    + unfold counters_typed, int_range; split_conjunctions; by_evaluation.
    + unfold invariant; split_conjunctions; by_evaluation.
  - apply (Henq_wf fresh_queue zero_order); [queue_wf_by_evaluation|by_evaluation].
  - apply (Hdeq_wf full_queue). queue_wf_by_evaluation.
  - intros k. apply (Hrun (shared_start zero_queue 3) contended_run k).
    + apply (Hstart zero_queue 3%nat). by_evaluation.
    + by_evaluation.
  - intros b q'. apply (Henq_alone fresh_queue zero_order b q').
  - intros r q'. apply (Hdeq_alone full_queue r q').
Defined.

(** ** A pass with an empty side, interrupted *)

(** C6 as stated fails.  The sell queue of ticker 3 holds 128 orders of
    1..128 shares and its buy queue is empty.  A producer submits one
    sell order while the pass holds the drained orders.  The pass prints
    no trade and hands the 128 orders back; the queue then holds the
    producer's order first, and the last drained order (128 shares) is
    refused and is in the queue no more. *)
Lemma matchOrders_empty_side_interrupted :
  buy_contents full_sell_state 3 = [] ∧
  sell_contents full_sell_state 3 = (λ n, sell_order 3 n 50) <$> seqZ 1 128 ∧
  is_ok interrupted_empty_side_pass = true ∧
  stdout (state_after interrupted_empty_side_pass)
  = stdout full_sell_state ++ [OrderAddedMsg "S" 3 999 (double_of_int 50)] ∧
  sell_contents (state_after interrupted_empty_side_pass) 3
  = sell_order 3 999 50 :: ((λ n, sell_order 3 n 50) <$> seqZ 1 127) ∧
  sell_order 3 128 50 ∈ sell_contents full_sell_state 3 ∧
  (sell_order 3 128 50 ∉ sell_contents (state_after interrupted_empty_side_pass) 3).
Proof.
  assert (sell_contents full_sell_state 3 = (λ n, sell_order 3 n 50) <$> seqZ 1 128)
    as Hbefore by by_evaluation.
  assert (sell_contents (state_after interrupted_empty_side_pass) 3
          = sell_order 3 999 50 :: ((λ n, sell_order 3 n 50) <$> seqZ 1 127))
    as Hafter by by_evaluation.
  split; [by_evaluation|]. split; [exact Hbefore|]. split; [by_evaluation|].
  split; [by_evaluation|]. split; [exact Hafter|]. split.
  - rewrite Hbefore. apply list_elem_of_fmap. exists 128.
    split; [reflexivity|]. apply elem_of_seqZ. lia.
  - rewrite Hafter. intros [E|(n & E & Hn)%list_elem_of_fmap]%elem_of_cons.
    + apply (f_equal quantity) in E. cbn [quantity sell_order] in E. lia.
    + apply (f_equal quantity) in E. cbn [quantity sell_order] in E.
      apply elem_of_seqZ in Hn. lia.
Qed.

(** * Further properties of the code *)

(** ** The queue, seen as a sequence of orders *)

Lemma contents_occupancy (q : MinimalQueue) :
  queue_wf q → Z.of_nat (length (contents q)) = occupancy q.
Proof.
  intros Hwf. rewrite contents_length. unfold occupancy.
  pose proof (wf_invariant _ Hwf) as (? & ? & ?).
  rewrite <-(wf_published _ Hwf). lia.
Qed.

(** X1. On a well-formed queue [enqueue] returns; it returns true
    exactly when the queue holds fewer orders than its capacity, and
    then the order is the new last element of the queue; otherwise the
    sequence of published orders is unchanged. *)
Theorem enqueue_spec (q : MinimalQueue) (o : Order) :
  queue_wf q → tailReservation q < INT_MAX →
  ∃ b q', enqueue q o = Ok (b, q') ∧ queue_wf q' ∧
          (b = true ↔ Z.of_nat (length (contents q)) < capacity q) ∧
          contents q' = contents q ++ (if b then [o] else []) ∧
          capacity q' = capacity q.
Proof.
  intros Hwf Hmax. rewrite (contents_occupancy q Hwf).
  destruct (decide (occupancy q < capacity q)) as [Hroom|Hfull].
  - destruct (enqueue_room q o Hwf Hroom Hmax) as (q' & He & Hwf' & Hc & _ & _ & Hcap).
    exists true, q'. split; [exact He|]. split; [exact Hwf'|].
    split; [tauto|]. split; [exact Hc|exact Hcap].
  - exists false, q. split; [apply enqueue_full; [exact Hwf|lia]|].
    split; [exact Hwf|]. split; [split; [discriminate|lia]|].
    split; [by rewrite app_nil_r|reflexivity].
Qed.

Lemma enqueue_spec_witness :
  ∃ b q', enqueue fresh_queue (buy_order 0 1 10) = Ok (b, q') ∧ queue_wf q' ∧
          (b = true ↔ Z.of_nat (length (contents fresh_queue)) < capacity fresh_queue) ∧
          contents q' = contents fresh_queue ++ (if b then [buy_order 0 1 10] else []) ∧
          capacity q' = capacity fresh_queue.
Proof.
  apply (enqueue_spec fresh_queue (buy_order 0 1 10)).
  - queue_wf_by_evaluation.
  - by_evaluation.
Defined.

(** X2. On a well-formed queue [dequeue] returns; it hands out nothing
    and leaves the queue as it is exactly when no order is published,
    and otherwise hands out the oldest published order and leaves the
    others, in their order. *)
Theorem dequeue_spec (q : MinimalQueue) :
  queue_wf q →
  ∃ r q', dequeue q = Ok (r, q') ∧ queue_wf q' ∧
          match r with
          | None => contents q = [] ∧ q' = q
          | Some o => contents q = o :: contents q'
          end.
Proof.
  intros Hwf.
  destruct (decide (head q = tail q)) as [Hempty|Hne].
  - exists None, q. split; [by apply dequeue_empty|]. split; [exact Hwf|].
    split; [by apply contents_nil|reflexivity].
  - pose proof (wf_invariant _ Hwf) as (? & ? & ?).
    destruct (dequeue_some q Hwf) as (o & q' & Hd & Hwf' & Hc & _); [lia|].
    exists (Some o), q'. split; [exact Hd|]. split; [exact Hwf'|exact Hc].
Qed.

Lemma dequeue_spec_witness :
  ∃ r q', dequeue full_queue = Ok (r, q') ∧ queue_wf q' ∧
          match r with
          | None => contents full_queue = [] ∧ q' = full_queue
          | Some o => contents full_queue = o :: contents q'
          end.
Proof. apply (dequeue_spec full_queue). queue_wf_by_evaluation. Defined.

(** X3. An order put into an empty queue is the order the next
    [dequeue] hands out, and the queue is empty again. *)
Theorem enqueue_dequeue_roundtrip (q : MinimalQueue) (o : Order) :
  queue_wf q → contents q = [] → tailReservation q < INT_MAX →
  ∃ q1 q2, enqueue q o = Ok (true, q1) ∧ dequeue q1 = Ok (Some o, q2) ∧
           contents q2 = [] ∧ queue_wf q2.
Proof.
  intros Hwf Hempty Hmax.
  assert (occupancy q = 0) as Hocc
    by (rewrite <-(contents_occupancy q Hwf), Hempty; reflexivity).
  pose proof (wf_capacity _ Hwf) as Hcap.
  destruct (enqueue_room q o Hwf) as (q1 & He & Hwf1 & Hc1 & Hh1 & Hr1 & _);
    [lia|exact Hmax|].
  rewrite Hempty in Hc1. cbn [app] in Hc1.
  assert (head q1 < tail q1) as Hlt.
  { pose proof (contents_length q1) as Hlen. rewrite Hc1 in Hlen.
    cbn [length] in Hlen. lia. }
  destruct (dequeue_some q1 Hwf1 Hlt) as (o' & q2 & Hd & Hwf2 & Hr & _).
  rewrite Hc1 in Hr. injection Hr as <- Hrest.
  exists q1, q2. split; [exact He|]. split; [exact Hd|]. split; [by symmetry|exact Hwf2].
Qed.

Lemma enqueue_dequeue_roundtrip_witness :
  ∃ q1 q2, enqueue fresh_queue (sell_order 3 7 42) = Ok (true, q1) ∧
           dequeue q1 = Ok (Some (sell_order 3 7 42), q2) ∧
           contents q2 = [] ∧ queue_wf q2.
Proof.
  apply (enqueue_dequeue_roundtrip fresh_queue (sell_order 3 7 42)).
  - queue_wf_by_evaluation.
  - by_evaluation.
  - by_evaluation.
Defined.

(** ** The order book *)

Lemma initQueue_ready (q : MinimalQueue) :
  length (orders q) = Z.to_nat QUEUE_CAPACITY →
  queue_ready (initQueue q QUEUE_CAPACITY) ∧
  contents (initQueue q QUEUE_CAPACITY) = [].
Proof.
  intros Hlen. split; [split|].
  - constructor; cbn [initQueue orders head tail tailReservation capacity];
      unfold invariant, QUEUE_CAPACITY, INT_MAX;
      cbn [initQueue orders head tail tailReservation capacity]; try lia.
    exact Hlen.
  - cbn [initQueue tailReservation]. unfold QUEUE_CAPACITY, INT_MAX. lia.
  - apply contents_nil. reflexivity.
Qed.

(** X4. [initOrderBook] resets every queue: whatever the counters
    were, each ticker of the book is left with two empty, well-formed
    queues of capacity [QUEUE_CAPACITY] with all three counters zero,
    over the slots they had; the book keeps its size. *)
Theorem initOrderBook_resets (b : OrderBook) (out : list event) (t : Z) :
  0 ≤ t < NUM_TICKERS →
  (∃ q, buyQueues b !! Z.to_nat t = Some q ∧
        length (orders q) = Z.to_nat QUEUE_CAPACITY) →
  (∃ q, sellQueues b !! Z.to_nat t = Some q ∧
        length (orders q) = Z.to_nat QUEUE_CAPACITY) →
  (∃ bq sq bq' sq',
     buyQueues b !! Z.to_nat t = Some bq ∧ sellQueues b !! Z.to_nat t = Some sq ∧
     buyQueues (initOrderBook b) !! Z.to_nat t = Some bq' ∧
     sellQueues (initOrderBook b) !! Z.to_nat t = Some sq' ∧
     bq' = {| orders := orders bq; head := 0; tail := 0; tailReservation := 0;
              capacity := QUEUE_CAPACITY |} ∧
     sq' = {| orders := orders sq; head := 0; tail := 0; tailReservation := 0;
              capacity := QUEUE_CAPACITY |}) ∧
  length (buyQueues (initOrderBook b)) = length (buyQueues b) ∧
  length (sellQueues (initOrderBook b)) = length (sellQueues b) ∧
  ticker_ready {| book := initOrderBook b; stdout := out |} t ∧
  buy_contents {| book := initOrderBook b; stdout := out |} t = [] ∧
  sell_contents {| book := initOrderBook b; stdout := out |} t = [].
Proof.
  intros Ht (bq & Hbq & Hbl) (sq & Hsq & Hsl).
  destruct (initQueue_ready bq Hbl) as [Hbr Hbc].
  destruct (initQueue_ready sq Hsl) as [Hsr Hsc].
  assert (buyQueues (initOrderBook b) !! Z.to_nat t
          = Some (initQueue bq QUEUE_CAPACITY)) as Hb'
    by (cbn [initOrderBook buyQueues]; by rewrite list_lookup_fmap, Hbq).
  assert (sellQueues (initOrderBook b) !! Z.to_nat t
          = Some (initQueue sq QUEUE_CAPACITY)) as Hs'
    by (cbn [initOrderBook sellQueues]; by rewrite list_lookup_fmap, Hsq).
  split.
  { exists bq, sq, (initQueue bq QUEUE_CAPACITY), (initQueue sq QUEUE_CAPACITY).
    split; [exact Hbq|]. split; [exact Hsq|]. split; [exact Hb'|].
    split; [exact Hs'|]. split; reflexivity. }
  split; [cbn [initOrderBook buyQueues]; apply length_fmap|].
  split; [cbn [initOrderBook sellQueues]; apply length_fmap|].
  unfold ticker_ready, buy_contents, sell_contents. cbn [book].
  rewrite Hb', Hs'. cbn [from_option].
  split; [|split; [exact Hbc|exact Hsc]].
  split; [exact Ht|]. split; eexists; (split; [reflexivity|assumption]).
Qed.

Lemma initOrderBook_resets_witness :
  (∃ bq sq bq' sq',
     buyQueues (book full_state) !! Z.to_nat 0 = Some bq ∧
     sellQueues (book full_state) !! Z.to_nat 0 = Some sq ∧
     buyQueues (initOrderBook (book full_state)) !! Z.to_nat 0 = Some bq' ∧
     sellQueues (initOrderBook (book full_state)) !! Z.to_nat 0 = Some sq' ∧
     bq' = {| orders := orders bq; head := 0; tail := 0; tailReservation := 0;
              capacity := QUEUE_CAPACITY |} ∧
     sq' = {| orders := orders sq; head := 0; tail := 0; tailReservation := 0;
              capacity := QUEUE_CAPACITY |}) ∧
  length (buyQueues (initOrderBook (book full_state)))
  = length (buyQueues (book full_state)) ∧
  length (sellQueues (initOrderBook (book full_state)))
  = length (sellQueues (book full_state)) ∧
  ticker_ready {| book := initOrderBook (book full_state); stdout := [] |} 0 ∧
  buy_contents {| book := initOrderBook (book full_state); stdout := [] |} 0 = [] ∧
  sell_contents {| book := initOrderBook (book full_state); stdout := [] |} 0 = [].
Proof.
  apply (initOrderBook_resets (book full_state) [] 0).
  - split; by_evaluation.
  - exists full_queue. split; by_evaluation.
  - exists fresh_queue. split; by_evaluation.
Defined.

(** What a returning [at_ticker] did. *)
Lemma at_ticker_inv {A} (qs qs' : list MinimalQueue) (t : Z)
    (f : MinimalQueue → res (A * MinimalQueue)) (a : A) :
  at_ticker qs t f = Ok (a, qs') →
  ∃ q q', 0 ≤ t ∧ qs !! Z.to_nat t = Some q ∧ f q = Ok (a, q') ∧
          qs' = <[Z.to_nat t := q']> qs.
Proof.
  unfold at_ticker, array_get.
  destruct (decide (0 ≤ t)) as [Ht|]; [|done].
  destruct (qs !! Z.to_nat t) as [q|] eqn:Hq; cbn [mbind res_bind]; [|done].
  destruct (f q) as [[a' q']|] eqn:Hf; cbn [mbind res_bind]; [|done].
  intros [= <- <-]. by exists q, q'.
Qed.

(** X5. A call of [addOrder] that returns prints exactly one line and
    leaves every queue as it was, except the queue of its ticker on the
    side of its order type. *)
Theorem addOrder_frame (orderType : ascii) (t quantity : Z) (p : double)
    (s s' : state) :
  addOrder orderType t quantity p s = Ok s' →
  (∃ e, stdout s' = stdout s ++ [e]) ∧
  (orderType ≠ "B"%char → buyQueues (book s') = buyQueues (book s)) ∧
  (orderType ≠ "S"%char → sellQueues (book s') = sellQueues (book s)) ∧
  others_untouched t s s'.
Proof.
  unfold addOrder.
  destruct (Ascii.eqb orderType "B") eqn:HB;
    [|destruct (Ascii.eqb orderType "S") eqn:HS].
  - apply Ascii.eqb_eq in HB as ->.
    destruct (at_ticker _ _ _) as [[ok qs]|] eqn:Hat; cbn [mbind res_bind]; [|done].
    apply at_ticker_inv in Hat as (q & q' & _ & _ & _ & ->).
    intros Hs'.
    assert (book s' = {| buyQueues := <[Z.to_nat t:=q']> (buyQueues (book s));
                         sellQueues := sellQueues (book s) |} ∧
            ∃ e, stdout s' = stdout s ++ [e]) as [Hbook Hout].
    { destruct ok; cbn [negb] in Hs'; injection Hs' as <-;
        cbn [book stdout]; (split; [reflexivity|by eexists]). }
    rewrite Hbook. cbn [buyQueues sellQueues].
    split; [exact Hout|]. split; [done|]. split; [done|].
    intros i Hi. cbn [book buyQueues sellQueues]. rewrite Hbook.
    cbn [buyQueues sellQueues]. by rewrite list_lookup_insert_ne.
  - apply Ascii.eqb_eq in HS as ->.
    destruct (at_ticker _ _ _) as [[ok qs]|] eqn:Hat; cbn [mbind res_bind]; [|done].
    apply at_ticker_inv in Hat as (q & q' & _ & _ & _ & ->).
    intros Hs'.
    assert (book s' = {| buyQueues := buyQueues (book s);
                         sellQueues := <[Z.to_nat t:=q']> (sellQueues (book s)) |} ∧
            ∃ e, stdout s' = stdout s ++ [e]) as [Hbook Hout].
    { destruct ok; cbn [negb] in Hs'; injection Hs' as <-;
        cbn [book stdout]; (split; [reflexivity|by eexists]). }
    rewrite Hbook. cbn [buyQueues sellQueues].
    split; [exact Hout|]. split; [done|]. split; [done|].
    intros i Hi. cbn [book buyQueues sellQueues]. rewrite Hbook.
    cbn [buyQueues sellQueues]. by rewrite list_lookup_insert_ne.
  - cbn [mbind res_bind negb]. intros [= <-]. cbn [book stdout].
    split; [by eexists|]. split; [done|]. split; [done|].
    intros i Hi. done.
Qed.

Lemma addOrder_frame_witness :
  (∃ e, stdout (state_after (addOrder "S" 7 1 (double_of_int 10) crossing_state))
        = stdout crossing_state ++ [e]) ∧
  ("S"%char ≠ "B"%char →
   buyQueues (book (state_after (addOrder "S" 7 1 (double_of_int 10) crossing_state)))
   = buyQueues (book crossing_state)) ∧
  ("S"%char ≠ "S"%char →
   sellQueues (book (state_after (addOrder "S" 7 1 (double_of_int 10) crossing_state)))
   = sellQueues (book crossing_state)) ∧
  others_untouched 7 crossing_state
    (state_after (addOrder "S" 7 1 (double_of_int 10) crossing_state)).
Proof.
  apply (addOrder_frame "S" 7 1 (double_of_int 10) crossing_state).
  apply is_ok_state_after. by_evaluation.
Defined.

(** X6. [addOrder] does not check the ticker: for an order of type 'B'
    or 'S' whose ticker is not an index of the arrays of
    [NUM_TICKERS] queues, it reads outside the array. *)
Theorem addOrder_ticker_out_of_bounds (orderType : ascii) (t quantity : Z)
    (p : double) (s : state) :
  orderType = "B"%char ∨ orderType = "S"%char →
  length (buyQueues (book s)) = Z.to_nat NUM_TICKERS →
  length (sellQueues (book s)) = Z.to_nat NUM_TICKERS →
  t < 0 ∨ NUM_TICKERS ≤ t →
  addOrder orderType t quantity p s = Fault OutOfBounds.
Proof.
  intros Hty Hlb Hls Ht.
  assert (∀ (qs : list MinimalQueue) (f : MinimalQueue → res (bool * MinimalQueue)),
            length qs = Z.to_nat NUM_TICKERS →
            at_ticker qs t f = Fault OutOfBounds) as Hoob.
  { intros qs f Hlen. unfold at_ticker, array_get.
    destruct (decide (0 ≤ t)); [|reflexivity].
    rewrite (lookup_ge_None_2 qs) by lia. reflexivity. }
  unfold addOrder.
  destruct Hty as [-> | ->]; cbn [Ascii.eqb Bool.eqb];
    rewrite Hoob by assumption; reflexivity.
Qed.

Lemma addOrder_ticker_out_of_bounds_witness :
  addOrder "B" 1024 1 (double_of_int 10) initial_state = Fault OutOfBounds.
Proof.
  apply (addOrder_ticker_out_of_bounds "B" 1024 1 (double_of_int 10) initial_state).
  - by left.
  - by_evaluation.
  - by_evaluation.
  - right. by_evaluation.
Defined.

(** ** The bucket sorts *)

Lemma bucket_elem (p : Z) (src : list Order) (o : Order) :
  o ∈ bucket p src ↔ int_price o = p ∧ quantity o > 0 ∧ o ∈ src.
Proof. unfold bucket, int_price. rewrite list_elem_of_filter. tauto. Qed.

Lemma bucket_sort_cons (p : Z) (prices : list Z) (src : list Order) :
  bucket_sort (p :: prices) src = bucket p src ++ bucket_sort prices src.
Proof. by rewrite !bucket_sort_bind. Qed.

Lemma bucket_sort_elem (prices : list Z) (src : list Order) (o : Order) :
  o ∈ bucket_sort prices src → int_price o ∈ prices.
Proof.
  induction prices as [|p prices IH].
  - unfold bucket_sort. cbn [foldl]. by intros ?%elem_of_nil.
  - rewrite bucket_sort_cons, elem_of_app, bucket_elem, elem_of_cons.
    intros [(-> & _)|Ho]; [by left|right; by apply IH].
Qed.

(** Orders of one bucket are in order for any reflexive way of
    comparing prices. *)
Lemma bucket_sorted (R : relation Z) (p : Z) (src : list Order) :
  R p p → StronglySorted (λ a b, R (int_price a) (int_price b)) (bucket p src).
Proof.
  intros Hrefl.
  assert (Forall (λ o, int_price o = p) (bucket p src)) as Hall
    by (apply Forall_forall; by intros o (? & _)%bucket_elem).
  induction Hall as [|o l Ho Hl IH]; constructor; [exact IH|].
  eapply Forall_impl; [exact Hl|]. intros o' Ho'. cbv beta. by rewrite Ho, Ho'.
Qed.

(** The sorted array follows the order in which the outer loop visits
    the prices. *)
Lemma bucket_sort_sorted (R : relation Z) (prices : list Z) (src : list Order) :
  (∀ p, R p p) → StronglySorted R prices →
  StronglySorted (λ a b, R (int_price a) (int_price b)) (bucket_sort prices src).
Proof.
  intros Hrefl. induction 1 as [|p prices Hs IH Hp].
  - unfold bucket_sort. cbn [foldl]. constructor.
  - rewrite bucket_sort_cons. apply StronglySorted_app_2.
    + intros x1 x2 (Hx1 & _)%bucket_elem Hx2%bucket_sort_elem.
      rewrite Hx1. rewrite Forall_forall in Hp. by apply Hp.
    + by apply bucket_sorted.
    + exact IH.
Qed.

(** Orders of the same price stay in the order of the source array. *)
Lemma bucket_sort_stable (prices : list Z) (src : list Order) (p : Z) :
  NoDup prices →
  filter (λ o, int_price o = p) (bucket_sort prices src)
  = if decide (p ∈ prices) then bucket p src else [].
Proof.
  induction 1 as [|p0 prices Hp0 Hnd IH].
  - unfold bucket_sort. cbn [foldl]. rewrite decide_False by apply not_elem_of_nil.
    reflexivity.
  - rewrite bucket_sort_cons, filter_app, IH.
    destruct (decide (p = p0)) as [->|Hne].
    + rewrite (decide_False (P := p0 ∈ prices)) by exact Hp0.
      rewrite decide_True by (by left). rewrite app_nil_r.
      apply filter_all, Forall_forall. by intros o (? & _)%bucket_elem.
    + assert (filter (λ o, int_price o = p) (bucket p0 src) = []) as ->.
      { apply elem_of_nil_inv. intros o [Hp (Hp' & _)%bucket_elem]%list_elem_of_filter.
        congruence. }
      cbn [app]. destruct (decide (p ∈ prices)) as [Hin|Hnin].
      * rewrite decide_True by (by right). reflexivity.
      * rewrite decide_False; [reflexivity|].
        intros [?|?]%elem_of_cons; [congruence|done].
Qed.

Lemma seqZ_sorted (m n : Z) : StronglySorted Z.le (seqZ m n).
Proof.
  destruct (decide (n ≤ 0)) as [Hn|Hn]; [rewrite seqZ_nil by lia; constructor|].
  rewrite <-(Z2Nat.id n) by lia. generalize (Z.to_nat n) as k. clear n Hn.
  intros k. revert m. induction k as [|k IH]; intros m.
  - rewrite seqZ_nil by lia. constructor.
  - rewrite seqZ_cons by lia. constructor.
    + replace (Z.pred (Z.of_nat (S k))) with (Z.of_nat k) by lia. apply IH.
    + apply Forall_seqZ. intros. lia.
Qed.

Lemma StronglySorted_reverse_flip {A} (R : relation A) (l : list A) :
  StronglySorted R l → StronglySorted (flip R) (reverse l).
Proof.
  induction 1 as [|x l Hs IH Hx].
  - constructor.
  - rewrite reverse_cons. apply StronglySorted_app_2.
    + intros x1 x2 Hx1 ->%list_elem_of_singleton.
      rewrite elem_of_reverse in Hx1.
      unfold flip. rewrite Forall_forall in Hx. by apply Hx.
    + exact IH.
    + repeat constructor.
Qed.

Lemma bucket_tradable (p : Z) (src : list Order) :
  10 ≤ p ≤ 1000 →
  bucket p src = filter (λ o, int_price o = p) (filter tradable src).
Proof.
  intros Hp. rewrite list_filter_filter. apply list_filter_iff.
  intros o. unfold tradable, int_price. split.
  - intros [<- ?]. tauto.
  - intros [<- [_ ?]]. tauto.
Qed.

Lemma sortedSell_ascending (src : list Order) :
  StronglySorted (λ a b, int_price a ≤ int_price b)
    (bucket_sort prices_ascending src).
Proof. apply (bucket_sort_sorted Z.le); [intros; lia|apply seqZ_sorted]. Qed.

Lemma sortedBuy_descending (src : list Order) :
  StronglySorted (λ a b, int_price b ≤ int_price a)
    (bucket_sort prices_descending src).
Proof.
  apply (bucket_sort_sorted (flip Z.le)); [intros; unfold flip; lia|].
  apply StronglySorted_reverse_flip, seqZ_sorted.
Qed.

(** X7. The array [sortedSell] is a rearrangement of the sell orders
    with a positive quantity and an integer price in 10..1000, in
    ascending order of integer price, and orders of the same integer
    price keep the order they were drained in. *)
Theorem sortedSell_sorted_stable (sellOrders : list Order) :
  bucket_sort prices_ascending sellOrders ≡ₚ filter tradable sellOrders ∧
  StronglySorted (λ a b, int_price a ≤ int_price b)
    (bucket_sort prices_ascending sellOrders) ∧
  ∀ p, filter (λ o, int_price o = p) (bucket_sort prices_ascending sellOrders)
       = filter (λ o, int_price o = p) (filter tradable sellOrders).
Proof.
  split; [apply sortedSell_perm|]. split.
  - apply sortedSell_ascending.
  - intros p. rewrite bucket_sort_stable by apply prices_ascending_NoDup.
    destruct (decide (p ∈ prices_ascending)) as [Hp|Hp].
    + apply bucket_tradable. by apply elem_of_prices_ascending.
    + symmetry. apply elem_of_nil_inv.
      intros o [Ho [[Hr _] _]%list_elem_of_filter]%list_elem_of_filter.
      apply Hp, elem_of_prices_ascending. unfold int_price in Ho. lia.
Qed.

(** X8. The array [sortedBuy] is a rearrangement of the buy orders
    with a positive quantity and an integer price in 10..1000, in
    descending order of integer price, and orders of the same integer
    price keep the order they were drained in. *)
Theorem sortedBuy_sorted_stable (buyOrders : list Order) :
  bucket_sort prices_descending buyOrders ≡ₚ filter tradable buyOrders ∧
  StronglySorted (λ a b, int_price b ≤ int_price a)
    (bucket_sort prices_descending buyOrders) ∧
  ∀ p, filter (λ o, int_price o = p) (bucket_sort prices_descending buyOrders)
       = filter (λ o, int_price o = p) (filter tradable buyOrders).
Proof.
  split; [apply sortedBuy_perm|]. split.
  - apply sortedBuy_descending.
  - intros p. rewrite bucket_sort_stable by apply prices_descending_NoDup.
    destruct (decide (p ∈ prices_descending)) as [Hp|Hp].
    + apply bucket_tradable. by apply elem_of_prices_descending.
    + symmetry. apply elem_of_nil_inv.
      intros o [Ho [[Hr _] _]%list_elem_of_filter]%list_elem_of_filter.
      apply Hp, elem_of_prices_descending. unfold int_price in Ho. lia.
Qed.

(** ** The two-pointer loop, round by round *)

Lemma filled_refl (o : Order) : filled o o.
Proof. split; [apply same_order_refl|lia]. Qed.

Lemma Forall2_filled_insert (l0 l : list Order) (i : nat) (o : Order) (n : Z) :
  Forall2 filled l0 l → l !! i = Some o → n ≤ quantity o →
  Forall2 filled l0 (<[i := set_quantity o n]> l).
Proof.
  intros HF Hl Hn.
  destruct (Forall2_lookup_r _ _ _ _ _ HF Hl) as (o0 & Hl0 & Hso & Hq).
  rewrite <-(list_insert_id l0 i o0) by done.
  apply Forall2_insert; [done|]. split.
  - by apply same_order_set_quantity.
  - cbn [set_quantity quantity]. lia.
Qed.

(** The pointer and its array after the order under the pointer lost
    [m] of its shares. *)
Lemma pointer_ok_step (l : list Order) (i : nat) (o : Order) (m : Z) :
  pointer_ok l i → l !! i = Some o → 0 < m ≤ quantity o →
  pointer_ok (<[i := set_quantity o (quantity o - m)]> l)
             (if decide (quantity o - m = 0) then S i else i).
Proof.
  intros Hok Hl Hm k x Hk.
  destruct (Hok i o Hl) as [_ Hi]. specialize (Hi ltac:(lia)).
  destruct (decide (k = i)) as [->|Hne].
  - rewrite list_lookup_insert_eq in Hk by (by eapply lookup_lt_Some).
    injection Hk as <-. cbn [set_quantity quantity].
    destruct (decide (quantity o - m = 0)); split; intros; lia.
  - rewrite list_lookup_insert_ne in Hk by done.
    destruct (Hok k x Hk) as [H1 H2].
    destruct (decide (quantity o - m = 0)); split; intros; [apply H1|apply H2|apply H1|apply H2]; lia.
Qed.

Lemma cross_ok_step (t : Z) (buys0 sells0 : list Order) (out0 : list event)
    (c c' : cross_state) :
  cross_ok t buys0 sells0 out0 c → cross_step t c = Some c' →
  cross_ok t buys0 sells0 out0 c'.
Proof.
  intros (Hpb & Hps & Hfb & Hfs & trades & Hpr & Hfair & Hlen) Hstep.
  pose proof (cross_step_progress _ _ _ Hstep) as (_ & _ & Hmeasure).
  apply cross_step_Some in Hstep as (b & s & Hb & Hs & Hge & ->).
  destruct (Hpb _ _ Hb) as [_ Hqb]. specialize (Hqb ltac:(lia)).
  destruct (Hps _ _ Hs) as [_ Hqs]. specialize (Hqs ltac:(lia)).
  cbn zeta in *.
  assert (wrap32 (quantity b - quantity b `min` quantity s)
          = quantity b - quantity b `min` quantity s) as Eb
    by (apply wrap32_id; unfold int_range, INT_MIN, INT_MAX in *; lia).
  assert (wrap32 (quantity s - quantity b `min` quantity s)
          = quantity s - quantity b `min` quantity s) as Es
    by (apply wrap32_id; unfold int_range, INT_MIN, INT_MAX in *; lia).
  rewrite Eb, Es in *.
  unfold cross_ok. cbn [sortedBuy sortedSell buy_i sell_j printed set_quantity quantity].
  split; [apply (pointer_ok_step _ _ b (quantity b `min` quantity s)); [done|done|lia]|].
  split; [apply (pointer_ok_step _ _ s (quantity b `min` quantity s)); [done|done|lia]|].
  split; [apply Forall2_filled_insert; [done|done|lia]|].
  split; [apply Forall2_filled_insert; [done|done|lia]|].
  exists (trades ++ [MatchedMsg t (quantity b `min` quantity s) (price s)]).
  split; [by rewrite Hpr, <-app_assoc|]. split.
  - apply Forall_app. split; [exact Hfair|]. constructor; [|constructor].
    destruct (Forall2_lookup_r _ _ _ _ _ Hfb Hb) as (b0 & Hb0 & (_ & _ & Hpb0) & Hqb0).
    destruct (Forall2_lookup_r _ _ _ _ _ Hfs Hs) as (s0 & Hs0 & (_ & _ & Hps0) & Hqs0).
    exists (quantity b `min` quantity s), b0, s0.
    rewrite Hpb0, Hps0.
    split; [reflexivity|]. split; [by eapply list_elem_of_lookup_2|].
    split; [by eapply list_elem_of_lookup_2|]. split; [exact Hge|]. lia.
  - rewrite length_app. cbn [length].
    unfold cross_measure in *.
    cbn [sortedBuy sortedSell buy_i sell_j set_quantity quantity] in Hmeasure.
    rewrite ?Eb, ?Es in Hmeasure.
    cbn [sortedBuy sortedSell buy_i sell_j]. lia.
Qed.

Lemma cross_ok_start (t : Z) (buys0 sells0 : list Order) (out0 : list event) :
  Forall (λ o, 0 < quantity o ≤ INT_MAX) buys0 →
  Forall (λ o, 0 < quantity o ≤ INT_MAX) sells0 →
  cross_ok t buys0 sells0 out0
    {| sortedBuy := buys0; sortedSell := sells0; buy_i := 0; sell_j := 0;
       printed := out0 |}.
Proof.
  intros Hb Hs. unfold cross_ok. cbn [sortedBuy sortedSell buy_i sell_j printed].
  split; [intros k o Hk; split; [lia|intros _; exact (Forall_lookup_1 _ _ _ _ Hb Hk)]|].
  split; [intros k o Hk; split; [lia|intros _; exact (Forall_lookup_1 _ _ _ _ Hs Hk)]|].
  split; [apply Forall_Forall2_diag, Forall_true, filled_refl|].
  split; [apply Forall_Forall2_diag, Forall_true, filled_refl|].
  exists []. rewrite app_nil_r. split; [reflexivity|]. split; [constructor|].
  unfold cross_measure. cbn [sortedBuy sortedSell buy_i sell_j length]. lia.
Qed.

Lemma cross_loop_ok (fuel : nat) (t : Z) (buys0 sells0 : list Order)
    (out0 : list event) (c : cross_state) :
  Forall (λ o, 0 < quantity o ≤ INT_MAX) buys0 →
  Forall (λ o, 0 < quantity o ≤ INT_MAX) sells0 →
  cross_loop fuel t
    {| sortedBuy := buys0; sortedSell := sells0; buy_i := 0; sell_j := 0;
       printed := out0 |} = Ok c →
  cross_ok t buys0 sells0 out0 c.
Proof.
  intros Hb Hs.
  apply (cross_loop_invariant (cross_ok t buys0 sells0 out0)).
  - intros c1 c2. apply cross_ok_step.
  - by apply cross_ok_start.
Qed.

(** The orders handed back are those from the pointer on. *)
Lemma remaining_drop (l : list Order) (i : nat) :
  pointer_ok l i → remaining l = drop i l.
Proof.
  revert i. induction l as [|x l IH]; intros i Hok.
  - by rewrite drop_nil.
  - unfold remaining. rewrite filter_cons.
    assert (∀ j, pointer_ok (x :: l) (S j) → pointer_ok l j) as Hshift.
    { intros j H k o Hk. destruct (H (S k) o Hk) as [H1 H2].
      split; intros; [apply H1|apply H2]; lia. }
    destruct (Hok 0%nat x eq_refl) as [H1 H2].
    destruct i as [|i].
    + rewrite decide_True by (specialize (H2 ltac:(lia)); lia).
      cbn [drop]. f_equal.
      assert (pointer_ok l 0) as Hl.
      { intros k o Hk. destruct (Hok (S k) o Hk) as [_ H]. split; [lia|intros; apply H; lia]. }
      rewrite <-(drop_0 l) at 2. apply IH, Hl.
    + rewrite decide_False by (specialize (H1 ltac:(lia)); lia).
      cbn [drop]. apply IH, Hshift, Hok.
Qed.

(** ** What a pass guarantees *)

Lemma pass_result_loop_exit (t : Z) (buys sells : list Order) (out : list event)
    (r : list Order * list Order * list event) :
  buys ≠ [] → sells ≠ [] →
  pass_result t buys sells out = Ok r →
  ∃ c, cross_loop (length (bucket_sort prices_descending buys)
                   + length (bucket_sort prices_ascending sells)) t
         {| sortedBuy := bucket_sort prices_descending buys;
            sortedSell := bucket_sort prices_ascending sells;
            buy_i := 0; sell_j := 0; printed := out |} = Ok c ∧
       cross_step t c = None ∧
       r = (remaining (sortedBuy c), remaining (sortedSell c), printed c).
Proof.
  intros Hb Hs Hp.
  destruct (pass_result_sorted _ _ _ _ _ Hb Hs Hp) as (c & Hc & ->).
  destruct (cross_loop_total
              (length (bucket_sort prices_descending buys)
               + length (bucket_sort prices_ascending sells)) t
              {| sortedBuy := bucket_sort prices_descending buys;
                 sortedSell := bucket_sort prices_ascending sells;
                 buy_i := 0; sell_j := 0; printed := out |})
    as (c' & Hc' & Hexit).
  { unfold cross_measure. cbn [sortedBuy sortedSell buy_i sell_j]. lia. }
  rewrite Hc in Hc'. injection Hc' as <-.
  exists c. split; [exact Hc|]. split; [exact Hexit|reflexivity].
Qed.

Lemma sorted_quantities (prices : list Z) (src : list Order) :
  Forall (λ o, quantity o ≤ INT_MAX) src →
  Forall (λ o, 0 < quantity o ≤ INT_MAX) (bucket_sort prices src).
Proof.
  intros Hsrc. apply Forall_forall. intros o Ho.
  rewrite bucket_sort_bind in Ho. apply list_elem_of_bind in Ho as (p & Ho & _).
  apply bucket_elem in Ho as (_ & Hq & Ho).
  rewrite Forall_forall in Hsrc. specialize (Hsrc o Ho). cbv beta in Hsrc. lia.
Qed.

Lemma bucket_sort_subset (prices : list Z) (src : list Order) (o : Order) :
  o ∈ bucket_sort prices src → o ∈ src.
Proof.
  rewrite bucket_sort_bind. intros (p & Ho & _)%list_elem_of_bind.
  by apply bucket_elem in Ho as (_ & _ & Ho).
Qed.

(** X9. Every trade a pass prints is allowed by two orders it found:
    a buy order whose price is at least the price of a sell order,
    the trade being at the sell order's price, for a positive number
    of shares that neither order falls short of.  A pass prints at
    most as many trades as it found orders. *)
Theorem matchOrders_trades_fair (s : state) (t : Z) :
  ticker_ready s t →
  Forall (λ o, quantity o ≤ INT_MAX) (buy_contents s t ++ sell_contents s t) →
  ∃ s' trades,
    matchOrders t s = Ok s' ∧
    stdout s' = stdout s ++ trades ∧
    Forall (fair_trade t (buy_contents s t) (sell_contents s t)) trades ∧
    (length trades ≤ length (buy_contents s t) + length (sell_contents s t))%nat.
Proof.
  intros Hready [HB HS]%Forall_app.
  destruct (matchOrders_pass_result s t Hready) as (s' & Hm & Hp & _).
  exists s'.
  destruct (decide (buy_contents s t = [] ∨ sell_contents s t = [])) as [He|Hne].
  - unfold pass_result in Hp. rewrite decide_True in Hp
      by (destruct He as [-> | ->]; auto).
    injection Hp as _ _ <-. exists []. rewrite app_nil_r.
    split; [exact Hm|]. split; [reflexivity|]. split; [constructor|].
    cbn [length]. lia.
  - apply pass_result_loop_exit in Hp as (c & Hc & _ & [= _ _ Hout]); [|tauto..].
    apply cross_loop_ok in Hc as (_ & _ & _ & _ & trades & Hpr & Hfair & Hlen);
      [|by apply sorted_quantities..].
    exists trades. split; [exact Hm|]. split; [congruence|]. split.
    + eapply Forall_impl; [exact Hfair|].
      intros e (m & b & a & -> & Hb & Ha & Hge & Hq).
      exists m, b, a. split; [reflexivity|].
      split; [by eapply bucket_sort_subset|].
      split; [by eapply bucket_sort_subset|]. split; [exact Hge|exact Hq].
    + pose proof (bucket_sort_length prices_descending (buy_contents s t)
                    prices_descending_NoDup).
      pose proof (bucket_sort_length prices_ascending (sell_contents s t)
                    prices_ascending_NoDup).
      lia.
Qed.

Lemma matchOrders_trades_fair_witness :
  ∃ s' trades,
    matchOrders 7 crossing_state = Ok s' ∧
    stdout s' = stdout crossing_state ++ trades ∧
    Forall (fair_trade 7 (buy_contents crossing_state 7)
              (sell_contents crossing_state 7)) trades ∧
    (length trades ≤ length (buy_contents crossing_state 7)
                     + length (sell_contents crossing_state 7))%nat.
Proof.
  apply (matchOrders_trades_fair crossing_state 7).
  - ticker_ready_by_evaluation.
  - Forall_by_evaluation.
Defined.

(** X10. A pass invents nothing: every order in a queue of the ticker
    after the pass is an order the same queue held before it, with the
    same type, ticker and price and at most the same quantity; a queue
    never holds more orders after the pass than before. *)
Theorem matchOrders_only_fills (s : state) (t : Z) :
  ticker_ready s t →
  Forall (λ o, quantity o ≤ INT_MAX) (buy_contents s t ++ sell_contents s t) →
  ∃ s', matchOrders t s = Ok s' ∧
    (∀ o', o' ∈ buy_contents s' t → ∃ o, o ∈ buy_contents s t ∧ filled o o') ∧
    (∀ o', o' ∈ sell_contents s' t → ∃ o, o ∈ sell_contents s t ∧ filled o o') ∧
    (length (buy_contents s' t) ≤ length (buy_contents s t))%nat ∧
    (length (sell_contents s' t) ≤ length (sell_contents s t))%nat.
Proof.
  intros Hready [HB HS]%Forall_app.
  destruct (matchOrders_pass_result s t Hready) as (s' & Hm & Hp & _).
  exists s'. split; [exact Hm|].
  destruct (decide (buy_contents s t = [] ∨ sell_contents s t = [])) as [He|Hne].
  - unfold pass_result in Hp. rewrite decide_True in Hp
      by (destruct He as [-> | ->]; auto).
    injection Hp as <- <- _.
    split; [intros o' Ho'; exists o'; split; [exact Ho'|apply filled_refl]|].
    split; [intros o' Ho'; exists o'; split; [exact Ho'|apply filled_refl]|].
    split; reflexivity.
  - apply pass_result_loop_exit in Hp as (c & Hc & _ & [= Hrb Hrs _]); [|tauto..].
    apply cross_loop_ok in Hc as (_ & _ & Hfb & Hfs & _);
      [|by apply sorted_quantities..].
    rewrite Hrb, Hrs.
    assert (∀ (src sorted0 sorted : list Order) o',
              (∀ o, o ∈ sorted0 → o ∈ src) → Forall2 filled sorted0 sorted →
              o' ∈ remaining sorted → ∃ o, o ∈ src ∧ filled o o') as Hfrom.
    { intros src sorted0 sorted o' Hsub HF [_ Ho']%list_elem_of_filter.
      apply list_elem_of_lookup in Ho' as [k Hk].
      destruct (Forall2_lookup_r _ _ _ _ _ HF Hk) as (o & Ho & Hfill).
      exists o. split; [|exact Hfill]. apply Hsub. by eapply list_elem_of_lookup_2. }
    split; [intros o'; apply (Hfrom _ _ _ _ (bucket_sort_subset _ _) Hfb)|].
    split; [intros o'; apply (Hfrom _ _ _ _ (bucket_sort_subset _ _) Hfs)|].
    apply Forall2_length in Hfb, Hfs.
    pose proof (bucket_sort_length prices_descending (buy_contents s t)
                  prices_descending_NoDup).
    pose proof (bucket_sort_length prices_ascending (sell_contents s t)
                  prices_ascending_NoDup).
    pose proof (length_filter (λ o, quantity o > 0) (sortedBuy c)).
    pose proof (length_filter (λ o, quantity o > 0) (sortedSell c)).
    unfold remaining. split; lia.
Qed.

Lemma matchOrders_only_fills_witness :
  ∃ s', matchOrders 7 crossing_state = Ok s' ∧
    (∀ o', o' ∈ buy_contents s' 7 →
           ∃ o, o ∈ buy_contents crossing_state 7 ∧ filled o o') ∧
    (∀ o', o' ∈ sell_contents s' 7 →
           ∃ o, o ∈ sell_contents crossing_state 7 ∧ filled o o') ∧
    (length (buy_contents s' 7) ≤ length (buy_contents crossing_state 7))%nat ∧
    (length (sell_contents s' 7) ≤ length (sell_contents crossing_state 7))%nat.
Proof.
  apply (matchOrders_only_fills crossing_state 7).
  - ticker_ready_by_evaluation.
  - Forall_by_evaluation.
Defined.

(** ** Whole prices *)

(** On the whole prices 10..1000 the conversion to [double] and back
    is exact and the comparison of doubles is the comparison of the
    integers. *)
Lemma whole_price_table :
  let table := (λ n, (n, double_of_int n)) <$> seqZ 10 991 in
  forallb (λ a : Z * double,
    (double_to_int a.2 =? a.1) &&
    forallb (λ b : Z * double,
      Bool.eqb (double_ge a.2 b.2) (b.1 <=? a.1)) table) table = true.
Proof. vm_compute. reflexivity. Qed.

Lemma whole_price_facts (m n : Z) :
  10 ≤ m ≤ 1000 → 10 ≤ n ≤ 1000 →
  double_to_int (double_of_int m) = m ∧
  double_ge (double_of_int m) (double_of_int n) = bool_decide (n ≤ m).
Proof.
  intros Hm Hn. pose proof whole_price_table as Htab. cbv zeta in Htab.
  rewrite forallb_forall in Htab.
  assert (∀ k, 10 ≤ k ≤ 1000 →
            In (k, double_of_int k) ((λ n, (n, double_of_int n)) <$> seqZ 10 991))
    as Hin.
  { intros k Hk. apply list_elem_of_In, list_elem_of_fmap.
    exists k. split; [reflexivity|]. apply elem_of_seqZ. lia. }
  specialize (Htab _ (Hin m Hm)). cbn [fst snd] in Htab.
  apply andb_prop in Htab as [Hrt Hord].
  split; [by apply Z.eqb_eq|].
  rewrite forallb_forall in Hord. specialize (Hord _ (Hin n Hn)).
  cbn [fst snd] in Hord. apply Bool.eqb_prop in Hord. rewrite Hord.
  destruct (Z.leb_spec n m).
  - by rewrite bool_decide_true.
  - by rewrite bool_decide_false by lia.
Qed.

(** ** Order of the queues after a pass *)


(** Sortedness by price survives a change of quantities. *)
Lemma StronglySorted_same_order (R : relation Z) (l0 l : list Order) :
  Forall2 same_order l0 l →
  StronglySorted (λ a b, R (int_price a) (int_price b)) l0 →
  StronglySorted (λ a b, R (int_price a) (int_price b)) l.
Proof.
  induction 1 as [|x y l0 l Hxy HF IH]; [constructor|].
  intros [Hx Hs]%StronglySorted_cons. constructor; [by apply IH|].
  destruct Hxy as (_ & _ & Hp).
  eapply Forall2_Forall_r; [exact HF|].
  eapply Forall_impl; [exact Hx|]. intros a Ha b (_ & _ & Hab).
  unfold int_price in *. by rewrite <-Hp, <-Hab.
Qed.



(** ** No crossing pair is left *)

Lemma sorted_from_pointer {A} (R : relation A) (l : list A) (i : nat) (x y : A) :
  StronglySorted R l → l !! i = Some x → y ∈ drop i l → y = x ∨ R x y.
Proof.
  intros Hs Hx Hy.
  rewrite <-(take_drop i l) in Hs. apply StronglySorted_app_1_r in Hs.
  rewrite (drop_S _ _ _ Hx) in Hs, Hy.
  apply StronglySorted_cons in Hs as [Hall _].
  apply elem_of_cons in Hy as [->|Hy]; [by left|right].
  rewrite Forall_forall in Hall. by apply Hall.
Qed.

(** The entries of a sorted array keep a whole price during the loop. *)
Lemma filled_regular_price (src sorted0 sorted : list Order) (x : Order) :
  Forall regular src → (∀ o, o ∈ sorted0 → o ∈ src) →
  Forall2 filled sorted0 sorted → x ∈ sorted →
  price x = double_of_int (int_price x) ∧ 10 ≤ int_price x ≤ 1000.
Proof.
  intros Hreg Hsub HF Hx.
  apply list_elem_of_lookup in Hx as [k Hk].
  destruct (Forall2_lookup_r _ _ _ _ _ HF Hk) as (o & Ho & (_ & _ & Hp) & _).
  apply list_elem_of_lookup_2, Hsub in Ho.
  rewrite Forall_forall in Hreg. destruct (Hreg o Ho) as (Hw & Hr & _).
  unfold int_price in *. rewrite <-Hp. by split.
Qed.

(** With whole prices, no buy order a pass hands back reaches the price
    of a sell order it hands back. *)
Lemma pass_result_uncrossed (t : Z) (buys sells rb rs : list Order)
    (out out' : list event) :
  Forall regular buys → Forall regular sells →
  pass_result t buys sells out = Ok (rb, rs, out') →
  ∀ b a, b ∈ rb → a ∈ rs →
    int_price b < int_price a ∧ double_ge (price b) (price a) = false.
Proof.
  intros HB HS Hp.
  destruct (decide (buys = [] ∨ sells = [])) as [He|Hne].
  { unfold pass_result in Hp. rewrite decide_True in Hp
      by (destruct He as [-> | ->]; auto).
    injection Hp as <- <- _. intros b a Hb Ha.
    destruct He as [He|He]; rewrite He in *;
      by apply elem_of_nil in Hb || by apply elem_of_nil in Ha. }
  apply pass_result_loop_exit in Hp as (c & Hc & Hexit & [= Hrb Hrs _]); [|tauto..].
  assert (Forall (λ o, quantity o ≤ INT_MAX) buys) as HqB
    by (eapply Forall_impl; [exact HB|]; intros o (_ & _ & ?); cbv beta; lia).
  assert (Forall (λ o, quantity o ≤ INT_MAX) sells) as HqS
    by (eapply Forall_impl; [exact HS|]; intros o (_ & _ & ?); cbv beta; lia).
  pose proof (cross_loop_shape _ _ _ _ Hc) as (Hsb & Hss & _).
  cbn [sortedBuy sortedSell] in Hsb, Hss.
  apply cross_loop_ok in Hc as (Hpb & Hps & Hfb & Hfs & _);
    [|by apply sorted_quantities..].
  rewrite Hrb, Hrs, (remaining_drop _ _ Hpb), (remaining_drop _ _ Hps).
  pose proof (StronglySorted_same_order (flip Z.le) _ _ Hsb (sortedBuy_descending _))
    as Hdesc.
  pose proof (StronglySorted_same_order Z.le _ _ Hss (sortedSell_ascending _))
    as Hasc.
  intros b a Hb Ha.
  unfold cross_step in Hexit.
  destruct (sortedBuy c !! buy_i c) as [bi|] eqn:Hbi; last first.
  { apply lookup_ge_None in Hbi. rewrite drop_ge in Hb by exact Hbi.
    by apply elem_of_nil in Hb. }
  destruct (sortedSell c !! sell_j c) as [sj|] eqn:Hsj; last first.
  { apply lookup_ge_None in Hsj. rewrite drop_ge in Ha by exact Hsj.
    by apply elem_of_nil in Ha. }
  destruct (double_ge (price bi) (price sj)) eqn:Hge; [discriminate Hexit|].
  assert (∀ x, x ∈ sortedBuy c →
            price x = double_of_int (int_price x) ∧ 10 ≤ int_price x ≤ 1000) as HwB
    by (intros x; apply (filled_regular_price _ _ _ _ HB (bucket_sort_subset _ _) Hfb)).
  assert (∀ x, x ∈ sortedSell c →
            price x = double_of_int (int_price x) ∧ 10 ≤ int_price x ≤ 1000) as HwS
    by (intros x; apply (filled_regular_price _ _ _ _ HS (bucket_sort_subset _ _) Hfs)).
  destruct (HwB bi (list_elem_of_lookup_2 _ _ _ Hbi)) as [Ebi Rbi].
  destruct (HwS sj (list_elem_of_lookup_2 _ _ _ Hsj)) as [Esj Rsj].
  assert (b ∈ sortedBuy c) as Hb' by exact (subseteq_drop _ _ _ Hb).
  assert (a ∈ sortedSell c) as Ha' by exact (subseteq_drop _ _ _ Ha).
  destruct (HwB b Hb') as [Eb Rb]. destruct (HwS a Ha') as [Ea Ra].
  rewrite Ebi, Esj in Hge.
  destruct (whole_price_facts (int_price bi) (int_price sj) Rbi Rsj) as [_ Hcmp].
  rewrite Hcmp in Hge. apply bool_decide_eq_false in Hge.
  assert (int_price b ≤ int_price bi) as Hle1.
  { destruct (sorted_from_pointer _ _ _ _ _ Hdesc Hbi Hb) as [->|H]; [lia|exact H]. }
  assert (int_price sj ≤ int_price a) as Hle2.
  { destruct (sorted_from_pointer _ _ _ _ _ Hasc Hsj Ha) as [->|H]; [lia|exact H]. }
  split; [lia|].
  rewrite Eb, Ea.
  destruct (whole_price_facts (int_price b) (int_price a) Rb Ra) as [_ ->].
  apply bool_decide_eq_false. lia.
Qed.

(** X12. When every order of the ticker has a whole price in 10..1000
    and a quantity that is a positive int, no buy order left by a pass
    has a price that reaches the price of a sell order left by it: the
    orders that could trade have traded. *)
Theorem matchOrders_uncrosses (s : state) (t : Z) :
  ticker_ready s t →
  Forall regular (buy_contents s t ++ sell_contents s t) →
  ∃ s', matchOrders t s = Ok s' ∧
    ∀ b a, b ∈ buy_contents s' t → a ∈ sell_contents s' t →
      int_price b < int_price a ∧ double_ge (price b) (price a) = false.
Proof.
  intros Hready [HB HS]%Forall_app.
  destruct (matchOrders_pass_result s t Hready) as (s' & Hm & Hp & _).
  exists s'. split; [exact Hm|].
  exact (pass_result_uncrossed _ _ _ _ _ _ _ HB HS Hp).
Qed.

Lemma matchOrders_uncrosses_witness :
  ∃ s', matchOrders 7 crossing_state = Ok s' ∧
    ∀ b a, b ∈ buy_contents s' 7 → a ∈ sell_contents s' 7 →
      int_price b < int_price a ∧ double_ge (price b) (price a) = false.
Proof.
  apply (matchOrders_uncrosses crossing_state 7).
  - ticker_ready_by_evaluation.
  - apply (Forall_impl
             (λ o, price o = double_of_int (int_price o) ∧
                   10 ≤ int_price o ≤ 1000 ∧ 0 < quantity o ≤ INT_MAX));
      [Forall_by_evaluation|intros o Ho; exact Ho].
Defined.

(** ** Runs of a single thread never go wrong *)

Lemma book_ready_lookup (n : Z) (s : state) (t : Z) :
  book_ready n s → 0 ≤ t < NUM_TICKERS →
  ∃ bq sq, buyQueues (book s) !! Z.to_nat t = Some bq ∧
           sellQueues (book s) !! Z.to_nat t = Some sq ∧
           (queue_wf bq ∧ tailReservation bq + n ≤ INT_MAX) ∧
           (queue_wf sq ∧ tailReservation sq + n ≤ INT_MAX).
Proof.
  intros (Hlb & Hls & [Hb Hs]%Forall_app) Ht.
  destruct (lookup_lt_is_Some_2 (buyQueues (book s)) (Z.to_nat t)) as [bq Hbq];
    [unfold NUM_TICKERS in *; lia|].
  destruct (lookup_lt_is_Some_2 (sellQueues (book s)) (Z.to_nat t)) as [sq Hsq];
    [unfold NUM_TICKERS in *; lia|].
  exists bq, sq. split; [exact Hbq|]. split; [exact Hsq|].
  split; [exact (Forall_lookup_1 _ _ _ _ Hb Hbq)|exact (Forall_lookup_1 _ _ _ _ Hs Hsq)].
Qed.

Lemma book_ready_ticker (n : Z) (s : state) (t : Z) :
  book_ready n s → QUEUE_CAPACITY ≤ n → 0 ≤ t < NUM_TICKERS → ticker_ready s t.
Proof.
  intros Hready Hn Ht.
  destruct (book_ready_lookup n s t Hready Ht) as (bq & sq & Hbq & Hsq & [? ?] & [? ?]).
  split; [exact Ht|].
  split; [exists bq|exists sq]; (split; [assumption|split; [assumption|lia]]).
Qed.

Lemma book_ready_weaken (n m : Z) (s : state) :
  book_ready n s → m ≤ n → book_ready m s.
Proof.
  intros (Hlb & Hls & Hall) Hm. split; [exact Hlb|]. split; [exact Hls|].
  eapply Forall_impl; [exact Hall|]. intros q [? ?]. split; [assumption|lia].
Qed.

(** Replacing the queues of one ticker in a ready book. *)
Lemma book_ready_insert (n m : Z) (s : state) (i : nat) (bq sq : MinimalQueue)
    (out : list event) :
  book_ready n s → m ≤ n →
  queue_wf bq → tailReservation bq + m ≤ INT_MAX →
  queue_wf sq → tailReservation sq + m ≤ INT_MAX →
  book_ready m {| book := {| buyQueues := <[i := bq]> (buyQueues (book s));
                            sellQueues := <[i := sq]> (sellQueues (book s)) |};
                  stdout := out |}.
Proof.
  intros (Hlb & Hls & [Hb Hs]%Forall_app) Hm Hbq Hbn Hsq Hsn.
  unfold book_ready. cbn [book buyQueues sellQueues].
  rewrite !length_insert. split; [exact Hlb|]. split; [exact Hls|].
  apply Forall_app. split; (apply Forall_insert; [|by split]);
    (eapply Forall_impl; [eassumption|]; intros q [? ?]; split; [assumption|lia]).
Qed.

Lemma state_eta (s : state) : {| book := book s; stdout := stdout s |} = s.
Proof. by destruct s. Qed.

(** [addOrder] on a ready book: it returns, and the book stays ready. *)
Lemma addOrder_ready (n : Z) (orderType : ascii) (t quantity : Z) (p : double)
    (s : state) :
  book_ready n s → 1 ≤ n →
  ((orderType = "B"%char ∨ orderType = "S"%char) → 0 ≤ t < NUM_TICKERS) →
  ∃ s', addOrder orderType t quantity p s = Ok s' ∧ book_ready (n - 1) s'.
Proof.
  intros Hready Hn Ht.
  set (o := {| type := orderType; ticker := t; quantity := quantity; price := p |}).
  assert (∀ q, queue_wf q → tailReservation q + n ≤ INT_MAX →
            ∃ b q', enqueue q o = Ok (b, q') ∧ queue_wf q' ∧
                    tailReservation q' + (n - 1) ≤ INT_MAX) as Henq.
  { intros q Hwf Hmax.
    destruct (decide (occupancy q < capacity q)) as [Hroom|Hfull].
    - destruct (enqueue_room q o Hwf Hroom) as (q' & He & Hwf' & _ & _ & Hr & _);
        [lia|].
      exists true, q'. split; [exact He|]. split; [exact Hwf'|lia].
    - exists false, q. split; [apply enqueue_full; [exact Hwf|lia]|].
      split; [exact Hwf|lia]. }
  destruct (Ascii.eqb orderType "B") eqn:HB;
    [|destruct (Ascii.eqb orderType "S") eqn:HS].
  - apply Ascii.eqb_eq in HB. specialize (Ht (or_introl HB)).
    destruct (book_ready_lookup n s t Hready Ht)
      as (bq & sq & Hbq & Hsq & [Hbwf Hbn] & [Hswf Hsn]).
    destruct (Henq bq Hbwf Hbn) as (b & bq' & He & Hwf' & Hn').
    subst o orderType. unfold addOrder. cbn [Ascii.eqb Bool.eqb].
    rewrite (at_ticker_Some _ _ _ _ _ _ (proj1 Ht) Hbq He). cbn [mbind res_bind].
    rewrite <-(list_insert_id (sellQueues (book s)) (Z.to_nat t) sq) by exact Hsq.
    destruct b; cbn [negb]; (eexists; split; [reflexivity|]);
      (apply (book_ready_insert n); [exact Hready|lia|exact Hwf'|exact Hn'|exact Hswf|lia]).
  - apply Ascii.eqb_eq in HS. specialize (Ht (or_intror HS)).
    destruct (book_ready_lookup n s t Hready Ht)
      as (bq & sq & Hbq & Hsq & [Hbwf Hbn] & [Hswf Hsn]).
    destruct (Henq sq Hswf Hsn) as (b & sq' & He & Hwf' & Hn').
    subst o orderType. unfold addOrder. cbn [Ascii.eqb Bool.eqb].
    rewrite (at_ticker_Some _ _ _ _ _ _ (proj1 Ht) Hsq He). cbn [mbind res_bind].
    rewrite <-(list_insert_id (buyQueues (book s)) (Z.to_nat t) bq) by exact Hbq.
    destruct b; cbn [negb]; (eexists; split; [reflexivity|]);
      (apply (book_ready_insert n); [exact Hready|lia|exact Hbwf|lia|exact Hwf'|exact Hn']).
  - unfold addOrder. cbv zeta. rewrite HB, HS. cbn [mbind res_bind negb].
    eexists. split; [reflexivity|].
    destruct Hready as (Hlb & Hls & Hall).
    split; [exact Hlb|]. split; [exact Hls|]. cbn [book].
    eapply Forall_impl; [exact Hall|]. intros q [? ?]. split; [assumption|lia].
Qed.

(** The two parts of a pass, with the queues they leave. *)
Lemma matchOrders_drain_queues (s : state) (t : Z) :
  ticker_ready s t →
  ∃ bq sq bq' sq',
    buyQueues (book s) !! Z.to_nat t = Some bq ∧
    sellQueues (book s) !! Z.to_nat t = Some sq ∧
    matchOrders_drain t s
    = Ok (contents bq, contents sq,
          {| book := {| buyQueues := <[Z.to_nat t := bq']> (buyQueues (book s));
                        sellQueues := <[Z.to_nat t := sq']> (sellQueues (book s)) |};
             stdout := stdout s |}) ∧
    queue_wf bq' ∧ queue_wf sq' ∧
    head bq' = tail bq' ∧ head sq' = tail sq' ∧
    tailReservation bq' = tailReservation bq ∧
    tailReservation sq' = tailReservation sq ∧
    Z.of_nat (length (contents bq)) ≤ capacity bq' ∧
    Z.of_nat (length (contents sq)) ≤ capacity sq'.
Proof.
  intros (Ht & (bq & Hbq & Hbwf & Hbmax) & (sq & Hsq & Hswf & Hsmax)).
  destruct (drain_contents (Z.to_nat QUEUE_CAPACITY) bq [] Hbwf)
    as (bq' & Hbd & Hbwf' & Hbh & Hbt & Hbr & Hbc & _).
  { destruct Hbwf as [_ ? _ (? & ? & ?) _ _]. lia. }
  destruct (drain_contents (Z.to_nat QUEUE_CAPACITY) sq [] Hswf)
    as (sq' & Hsd & Hswf' & Hsh & Hst & Hsr & Hsc & _).
  { destruct Hswf as [_ ? _ (? & ? & ?) _ _]. lia. }
  exists bq, sq, bq', sq'. split; [exact Hbq|]. split; [exact Hsq|]. split.
  { unfold matchOrders_drain.
    rewrite (at_ticker_Some _ _ _ _ _ _ (proj1 Ht) Hbq Hbd). cbn [mbind res_bind].
    rewrite (at_ticker_Some _ _ _ _ _ _ (proj1 Ht) Hsq Hsd). cbn [mbind res_bind].
    reflexivity. }
  split; [exact Hbwf'|]. split; [exact Hswf'|].
  split; [congruence|]. split; [congruence|].
  split; [exact Hbr|]. split; [exact Hsr|].
  rewrite !contents_length, Hbc, Hsc.
  destruct Hbwf as [_ ? _ (? & ? & ?) _ _]. destruct Hswf as [_ ? _ (? & ? & ?) _ _].
  lia.
Qed.

Lemma republish_queues (t : Z) (fb fs : MinimalQueue → res MinimalQueue)
    (lb ls : list Order) (out : list event) (s1 : state) (bq sq : MinimalQueue) :
  0 ≤ t →
  buyQueues (book s1) !! Z.to_nat t = Some bq →
  sellQueues (book s1) !! Z.to_nat t = Some sq →
  queue_wf bq → queue_wf sq → head bq = tail bq → head sq = tail sq →
  (∀ q, fb q = enqueue_all q lb) → (∀ q, fs q = enqueue_all q ls) →
  Z.of_nat (length lb) ≤ capacity bq → Z.of_nat (length ls) ≤ capacity sq →
  tailReservation bq + Z.of_nat (length lb) ≤ INT_MAX →
  tailReservation sq + Z.of_nat (length ls) ≤ INT_MAX →
  ∃ bq' sq',
    republish t fb fs out s1
    = Ok {| book := {| buyQueues := <[Z.to_nat t := bq']> (buyQueues (book s1));
                       sellQueues := <[Z.to_nat t := sq']> (sellQueues (book s1)) |};
            stdout := out |} ∧
    queue_wf bq' ∧ queue_wf sq' ∧
    tailReservation bq' = tailReservation bq + Z.of_nat (length lb) ∧
    tailReservation sq' = tailReservation sq + Z.of_nat (length ls).
Proof.
  intros Ht Hbq Hsq Hbwf Hswf Hbe Hse Hfb Hfs Hlb Hls Hbmax Hsmax.
  destruct (enqueue_all_room bq lb Hbwf) as (bq' & Hba & Hbwf' & _ & _ & Hbr & _).
  { unfold occupancy. rewrite <-(wf_published _ Hbwf). lia. }
  { exact Hbmax. }
  destruct (enqueue_all_room sq ls Hswf) as (sq' & Hsa & Hswf' & _ & _ & Hsr & _).
  { unfold occupancy. rewrite <-(wf_published _ Hswf). lia. }
  { exact Hsmax. }
  exists bq', sq'. split.
  { unfold republish.
    rewrite (at_ticker_Some _ _ _ bq tt bq' Ht Hbq) by (by rewrite Hfb, Hba).
    cbn [mbind res_bind].
    rewrite (at_ticker_Some _ _ _ sq tt sq' Ht Hsq) by (by rewrite Hfs, Hsa).
    cbn [mbind res_bind]. reflexivity. }
  split; [exact Hbwf'|]. split; [exact Hswf'|]. split; [exact Hbr|exact Hsr].
Qed.

(** A pass on a ready ticker returns; it replaces the two queues of
    its ticker by well-formed queues whose reservation counters grew by
    at most [QUEUE_CAPACITY], and changes nothing else of the book. *)
Lemma matchOrders_queues (s : state) (t : Z) :
  ticker_ready s t →
  ∃ bq sq bq' sq' out,
    buyQueues (book s) !! Z.to_nat t = Some bq ∧
    sellQueues (book s) !! Z.to_nat t = Some sq ∧
    matchOrders t s
    = Ok {| book := {| buyQueues := <[Z.to_nat t := bq']> (buyQueues (book s));
                       sellQueues := <[Z.to_nat t := sq']> (sellQueues (book s)) |};
            stdout := out |} ∧
    queue_wf bq' ∧ queue_wf sq' ∧
    tailReservation bq' ≤ tailReservation bq + QUEUE_CAPACITY ∧
    tailReservation sq' ≤ tailReservation sq + QUEUE_CAPACITY.
Proof.
  intros Hready.
  pose proof Hready as (Ht & (bq0 & Hbq0 & Hbwf0 & Hbmax) & (sq0 & Hsq0 & Hswf0 & Hsmax)).
  destruct (matchOrders_drain_queues s t Hready)
    as (bq & sq & bq1 & sq1 & Hbq & Hsq & Hd & Hbwf & Hswf & Hbe & Hse & Hbr & Hsr
        & Hbl & Hsl).
  rewrite Hbq0 in Hbq. injection Hbq as <-.
  rewrite Hsq0 in Hsq. injection Hsq as <-.
  pose proof (wf_capacity _ Hbwf) as Hbcap. pose proof (wf_capacity _ Hswf) as Hscap.
  set (s1 := {| book := {| buyQueues := <[Z.to_nat t := bq1]> (buyQueues (book s));
                          sellQueues := <[Z.to_nat t := sq1]> (sellQueues (book s)) |};
                stdout := stdout s |}) in *.
  assert (buyQueues (book s1) !! Z.to_nat t = Some bq1) as Hbq1
    by (apply list_lookup_insert_eq; by eapply lookup_lt_Some).
  assert (sellQueues (book s1) !! Z.to_nat t = Some sq1) as Hsq1
    by (apply list_lookup_insert_eq; by eapply lookup_lt_Some).
  assert (∀ (fb fs : MinimalQueue → res MinimalQueue) (lb ls : list Order) out,
            (∀ q, fb q = enqueue_all q lb) → (∀ q, fs q = enqueue_all q ls) →
            (length lb ≤ length (contents bq0))%nat →
            (length ls ≤ length (contents sq0))%nat →
            ∃ bq' sq',
              republish t fb fs out s1
              = Ok {| book := {| buyQueues := <[Z.to_nat t := bq']> (buyQueues (book s));
                                 sellQueues := <[Z.to_nat t := sq']> (sellQueues (book s)) |};
                      stdout := out |} ∧
              queue_wf bq' ∧ queue_wf sq' ∧
              tailReservation bq' ≤ tailReservation bq0 + QUEUE_CAPACITY ∧
              tailReservation sq' ≤ tailReservation sq0 + QUEUE_CAPACITY) as Hrep.
  { intros fb fs lb ls out Hfb Hfs Hlb Hls.
    destruct (republish_queues t fb fs lb ls out s1 bq1 sq1 (proj1 Ht) Hbq1 Hsq1
                Hbwf Hswf Hbe Hse Hfb Hfs)
      as (bq' & sq' & Hr & Hbwf' & Hswf' & Hbr' & Hsr'); [lia..|].
    exists bq', sq'. split.
    - rewrite Hr. unfold s1. cbn [book buyQueues sellQueues].
      by rewrite !list_insert_insert_eq.
    - split; [exact Hbwf'|]. split; [exact Hswf'|]. lia. }
  unfold matchOrders. rewrite Hd. cbn [mbind res_bind]. fold s1.
  unfold matchOrders_settle.
  destruct (decide _) as [He|Hne].
  - destruct (Hrep (λ q, enqueue_all q (contents bq0)) (λ q, enqueue_all q (contents sq0))
                (contents bq0) (contents sq0) (stdout s1))
      as (bq' & sq' & Hr & Hrest); [done|done|lia|lia|].
    exists bq0, sq0, bq', sq', (stdout s1).
    split; [exact Hbq0|]. split; [exact Hsq0|]. split; [exact Hr|exact Hrest].
  - set (c0 := {| sortedBuy := bucket_sort prices_descending (contents bq0);
                  sortedSell := bucket_sort prices_ascending (contents sq0);
                  buy_i := 0; sell_j := 0; printed := stdout s1 |}).
    destruct (cross_loop_total
                (length (bucket_sort prices_descending (contents bq0))
                 + length (bucket_sort prices_ascending (contents sq0))) t c0)
      as (c & Hc & _).
    { unfold cross_measure, c0. cbn [sortedBuy sortedSell buy_i sell_j]. lia. }
    rewrite Hc. cbn [mbind res_bind].
    destruct (cross_loop_shape _ _ _ _ Hc) as (HB & HS & _).
    apply Forall2_length in HB, HS. cbn [sortedBuy sortedSell c0] in HB, HS.
    pose proof (bucket_sort_length prices_descending (contents bq0)
                  prices_descending_NoDup).
    pose proof (bucket_sort_length prices_ascending (contents sq0)
                  prices_ascending_NoDup).
    pose proof (length_filter (λ o, quantity o > 0) (sortedBuy c)).
    pose proof (length_filter (λ o, quantity o > 0) (sortedSell c)).
    destruct (Hrep (λ q, enqueue_remaining q (sortedBuy c))
                (λ q, enqueue_remaining q (sortedSell c))
                (remaining (sortedBuy c)) (remaining (sortedSell c)) (printed c))
      as (bq' & sq' & Hr & Hrest).
    + intros q. apply enqueue_remaining_filter.
    + intros q. apply enqueue_remaining_filter.
    + unfold remaining. lia.
    + unfold remaining. lia.
    + exists bq0, sq0, bq', sq', (printed c).
      split; [exact Hbq0|]. split; [exact Hsq0|]. split; [exact Hr|exact Hrest].
Qed.

Lemma matchOrders_ready (n : Z) (s : state) (t : Z) :
  book_ready n s → QUEUE_CAPACITY ≤ n → 0 ≤ t < NUM_TICKERS →
  ∃ s', matchOrders t s = Ok s' ∧ book_ready (n - QUEUE_CAPACITY) s'.
Proof.
  intros Hready Hn Ht.
  destruct (matchOrders_queues s t (book_ready_ticker n s t Hready Hn Ht))
    as (bq & sq & bq' & sq' & out & Hbq & Hsq & Hm & Hbwf & Hswf & Hbr & Hsr).
  destruct (book_ready_lookup n s t Hready Ht)
    as (bq0 & sq0 & Hbq0 & Hsq0 & [_ Hbn] & [_ Hsn]).
  rewrite Hbq in Hbq0. injection Hbq0 as <-.
  rewrite Hsq in Hsq0. injection Hsq0 as <-.
  assert (0 ≤ QUEUE_CAPACITY) by (unfold QUEUE_CAPACITY; lia).
  eexists. split; [exact Hm|].
  apply (book_ready_insert n); [exact Hready|lia|exact Hbwf|lia|exact Hswf|lia].
Qed.

Lemma initial_state_ready (n : Z) : n ≤ INT_MAX → book_ready n initial_state.
Proof.
  intros Hn. unfold book_ready, initial_state, initOrderBook, zero_book.
  cbn [book buyQueues sellQueues].
  rewrite !length_fmap, !length_replicate.
  split; [reflexivity|]. split; [reflexivity|].
  assert (length (orders zero_queue) = Z.to_nat QUEUE_CAPACITY) as Hlen
    by (cbn [zero_queue orders]; apply length_replicate).
  destruct (initQueue_ready zero_queue Hlen) as [[Hwf _] _].
  apply Forall_app. split; apply Forall_fmap, Forall_replicate;
    (split; [exact Hwf|cbn [initQueue tailReservation]; lia]).
Qed.

Lemma run_call_ready (n : Z) (c : call) (s : state) :
  book_ready n s → call_in_range c → call_cost c ≤ n →
  ∃ s', run_call c s = Ok s' ∧ book_ready (n - call_cost c) s'.
Proof.
  intros Hready Hrange Hcost. destruct c as [orderType t quantity p|t];
    cbn [run_call call_cost call_in_range] in *.
  - by apply addOrder_ready.
  - by apply matchOrders_ready.
Qed.

Lemma initial_state_regular : book_regular initial_state.
Proof.
  assert (∀ (qs : list MinimalQueue) (i : nat),
            from_option contents []
              (((λ q, initQueue q QUEUE_CAPACITY) <$> qs) !! i) = []) as Hempty.
  { intros qs i. rewrite list_lookup_fmap.
    destruct (qs !! i) as [q|]; cbn [fmap option_fmap option_map from_option];
      [|reflexivity].
    apply contents_nil. reflexivity. }
  intros t _. unfold buy_contents, sell_contents, initial_state, initOrderBook.
  cbn [book buyQueues sellQueues]. rewrite !Hempty. apply Forall_nil_2.
Qed.

(** X13. Any sequence of [addOrder] and [matchOrders] calls made by one
    thread on a well-formed book, with tickers inside the arrays,
    returns: no call reads or writes outside an array, divides by zero
    or waits forever, as long as the reservation counters stay in the
    [int] range; and the book is well-formed afterwards. *)
Theorem run_calls_safe (n : Z) (cs : list call) (s : state) :
  book_ready n s → Forall call_in_range cs → calls_cost cs ≤ n →
  ∃ s', run_calls cs s = Ok s' ∧ book_ready (n - calls_cost cs) s'.
Proof.
  revert n s. induction cs as [|c cs IH]; intros n s Hready Hrange Hcost.
  - exists s. split; [reflexivity|]. cbn [calls_cost foldr].
    by replace (n - 0) with n by lia.
  - apply Forall_cons in Hrange as [Hc Hcs].
    cbn [calls_cost foldr] in Hcost. fold (calls_cost cs) in Hcost.
    assert (0 ≤ calls_cost cs) as Hpos.
    { clear. induction cs as [|c cs IH]; cbn [calls_cost foldr]; [lia|].
      fold (calls_cost cs). destruct c; cbn [call_cost]; unfold QUEUE_CAPACITY; lia. }
    destruct (run_call_ready n c s Hready Hc) as (s1 & Hrun & Hready1); [lia|].
    destruct (IH (n - call_cost c) s1 Hready1 Hcs) as (s' & Hruns & Hready'); [lia|].
    exists s'. cbn [run_calls]. rewrite Hrun. cbn [mbind res_bind].
    split; [exact Hruns|].
    cbn [calls_cost foldr]. fold (calls_cost cs).
    by replace (n - (call_cost c + calls_cost cs))
      with (n - call_cost c - calls_cost cs) by lia.
Qed.

Lemma run_calls_safe_witness :
  ∃ s', run_calls [Submit "B" 7 20 (double_of_int 100); Pass 7;
                   Submit "X" 5000 1 (double_of_int 1); Pass 1023] initial_state
        = Ok s' ∧
        book_ready (INT_MAX - calls_cost [Submit "B" 7 20 (double_of_int 100); Pass 7;
                                          Submit "X" 5000 1 (double_of_int 1);
                                          Pass 1023]) s'.
Proof.
  apply (run_calls_safe INT_MAX).
  - apply initial_state_ready. by_evaluation.
  - repeat apply Forall_cons_2; try apply Forall_nil_2; cbn [call_in_range].
    + intros _. split; by_evaluation.
    + split; by_evaluation.
    + intros [H|H]; discriminate H.
    + split; by_evaluation.
  - by_evaluation.
Defined.

(** ** The producers *)

Lemma produced_order_facts (r1 r2 r3 r4 : Z) :
  0 ≤ r1 ≤ RAND_MAX → 0 ≤ r2 ≤ RAND_MAX → 0 ≤ r3 ≤ RAND_MAX → 0 ≤ r4 ≤ RAND_MAX →
  (type (produced_order r1 r2 r3 r4) = "B"%char ∨
   type (produced_order r1 r2 r3 r4) = "S"%char) ∧
  0 ≤ ticker (produced_order r1 r2 r3 r4) < NUM_TICKERS ∧
  1 ≤ quantity (produced_order r1 r2 r3 r4) ≤ 500 ∧
  regular (produced_order r1 r2 r3 r4) ∧
  tradable (produced_order r1 r2 r3 r4).
Proof.
  intros H1 H2 H3 H4. unfold produced_order, regular, tradable, int_price.
  cbn [type ticker quantity price].
  pose proof (Z.rem_bound_pos r2 NUM_TICKERS ltac:(lia) ltac:(unfold NUM_TICKERS; lia)).
  pose proof (Z.rem_bound_pos r3 500 ltac:(lia) ltac:(lia)).
  pose proof (Z.rem_bound_pos r4 991 ltac:(lia) ltac:(lia)).
  rewrite (wrap32_id (r3 `rem` 500 + 1))
    by (unfold int_range, INT_MIN, INT_MAX; lia).
  rewrite (wrap32_id (r4 `rem` 991 + 10))
    by (unfold int_range, INT_MIN, INT_MAX; lia).
  destruct (whole_price_facts (r4 `rem` 991 + 10) (r4 `rem` 991 + 10)) as [-> _];
    [lia..|].
  split; [destruct (decide _); [by left|by right]|].
  split; [lia|]. split; [lia|].
  unfold INT_MAX. split; [split; [reflexivity|lia]|lia].
Qed.

(** X14. Whatever [rand_r] returns, a producer builds an order of type
    'B' or 'S' for a ticker of the book, with 1 to 500 shares and a
    whole price between 10 and 1000: an order that [addOrder] can
    store and that the bucket sorts of a pass keep. *)
Theorem produced_order_regular (r1 r2 r3 r4 : Z) :
  0 ≤ r1 ≤ RAND_MAX → 0 ≤ r2 ≤ RAND_MAX → 0 ≤ r3 ≤ RAND_MAX → 0 ≤ r4 ≤ RAND_MAX →
  (type (produced_order r1 r2 r3 r4) = "B"%char ∨
   type (produced_order r1 r2 r3 r4) = "S"%char) ∧
  0 ≤ ticker (produced_order r1 r2 r3 r4) < NUM_TICKERS ∧
  1 ≤ quantity (produced_order r1 r2 r3 r4) ≤ 500 ∧
  regular (produced_order r1 r2 r3 r4) ∧
  tradable (produced_order r1 r2 r3 r4).
Proof. apply produced_order_facts. Qed.

Lemma produced_order_regular_witness :
  (type (produced_order 12345 67890 424242 999999) = "B"%char ∨
   type (produced_order 12345 67890 424242 999999) = "S"%char) ∧
  0 ≤ ticker (produced_order 12345 67890 424242 999999) < NUM_TICKERS ∧
  1 ≤ quantity (produced_order 12345 67890 424242 999999) ≤ 500 ∧
  regular (produced_order 12345 67890 424242 999999) ∧
  tradable (produced_order 12345 67890 424242 999999).
Proof.
  apply (produced_order_regular 12345 67890 424242 999999); split; by_evaluation.
Defined.

(** ** Regular orders stay regular *)

(** What [addOrder] does to the published orders of a ready book. *)
Lemma addOrder_contents (n : Z) (orderType : ascii) (t quantity : Z) (p : double)
    (s : state) :
  book_ready n s → 1 ≤ n →
  ((orderType = "B"%char ∨ orderType = "S"%char) → 0 ≤ t < NUM_TICKERS) →
  ∃ s', addOrder orderType t quantity p s = Ok s' ∧
    ∀ u, (buy_contents s' u = buy_contents s u ∨
          buy_contents s' u = buy_contents s u ++
            [{| type := orderType; ticker := t; quantity := quantity; price := p |}]) ∧
         (sell_contents s' u = sell_contents s u ∨
          sell_contents s' u = sell_contents s u ++
            [{| type := orderType; ticker := t; quantity := quantity; price := p |}]).
Proof.
  intros Hready Hn Ht.
  set (o := {| type := orderType; ticker := t; quantity := quantity; price := p |}).
  assert (∀ q, queue_wf q → tailReservation q + n ≤ INT_MAX →
            ∃ b q', enqueue q o = Ok (b, q') ∧
                    (contents q' = contents q ∨ contents q' = contents q ++ [o]))
    as Henq.
  { intros q Hwf Hmax.
    destruct (decide (occupancy q < capacity q)) as [Hroom|Hfull].
    - destruct (enqueue_room q o Hwf Hroom) as (q' & He & _ & Hc & _); [lia|].
      exists true, q'. split; [exact He|by right].
    - exists false, q. split; [apply enqueue_full; [exact Hwf|lia]|by left]. }
  assert (∀ (qs : list MinimalQueue) q q' (u : Z),
            qs !! Z.to_nat t = Some q →
            (contents q' = contents q ∨ contents q' = contents q ++ [o]) →
            from_option contents [] (<[Z.to_nat t := q']> qs !! Z.to_nat u)
            = from_option contents [] (qs !! Z.to_nat u) ∨
            from_option contents [] (<[Z.to_nat t := q']> qs !! Z.to_nat u)
            = from_option contents [] (qs !! Z.to_nat u) ++ [o]) as Hins.
  { intros qs q q' u Hq Hc.
    destruct (decide (Z.to_nat t = Z.to_nat u)) as [E|Hne].
    - rewrite <-E, list_lookup_insert_eq by (by eapply lookup_lt_Some).
      rewrite Hq. cbn [from_option]. exact Hc.
    - rewrite list_lookup_insert_ne by exact Hne. by left. }
  destruct (Ascii.eqb orderType "B") eqn:HB;
    [|destruct (Ascii.eqb orderType "S") eqn:HS].
  - apply Ascii.eqb_eq in HB. specialize (Ht (or_introl HB)).
    destruct (book_ready_lookup n s t Hready Ht)
      as (bq & sq & Hbq & Hsq & [Hbwf Hbn] & _).
    destruct (Henq bq Hbwf Hbn) as (b & bq' & He & Hc).
    assert (∃ out, addOrder orderType t quantity p s
                   = Ok {| book := {| buyQueues := <[Z.to_nat t := bq']> (buyQueues (book s));
                                      sellQueues := sellQueues (book s) |};
                           stdout := out |}) as [out Hadd].
    { subst o orderType. unfold addOrder. cbn [Ascii.eqb Bool.eqb].
      rewrite (at_ticker_Some _ _ _ _ _ _ (proj1 Ht) Hbq He). cbn [mbind res_bind].
      destruct b; cbn [negb]; by eexists. }
    eexists. split; [exact Hadd|]. intros u.
    unfold buy_contents, sell_contents. cbn [book buyQueues sellQueues].
    split; [by eapply Hins|by left].
  - apply Ascii.eqb_eq in HS. specialize (Ht (or_intror HS)).
    destruct (book_ready_lookup n s t Hready Ht)
      as (bq & sq & Hbq & Hsq & _ & [Hswf Hsn]).
    destruct (Henq sq Hswf Hsn) as (b & sq' & He & Hc).
    assert (∃ out, addOrder orderType t quantity p s
                   = Ok {| book := {| buyQueues := buyQueues (book s);
                                      sellQueues := <[Z.to_nat t := sq']> (sellQueues (book s)) |};
                           stdout := out |}) as [out Hadd].
    { subst o orderType. unfold addOrder. cbn [Ascii.eqb Bool.eqb].
      rewrite (at_ticker_Some _ _ _ _ _ _ (proj1 Ht) Hsq He). cbn [mbind res_bind].
      destruct b; cbn [negb]; by eexists. }
    eexists. split; [exact Hadd|]. intros u.
    unfold buy_contents, sell_contents. cbn [book buyQueues sellQueues].
    split; [by left|by eapply Hins].
  - unfold addOrder. cbv zeta. rewrite HB, HS. cbn [mbind res_bind negb].
    eexists. split; [reflexivity|]. intros u.
    unfold buy_contents, sell_contents. cbn [book]. split; by left.
Qed.

(** What a pass leaves in a queue is regular when what it found is. *)
Lemma pass_result_regular (t : Z) (buys sells rb rs : list Order)
    (out out' : list event) :
  Forall regular buys → Forall regular sells →
  pass_result t buys sells out = Ok (rb, rs, out') →
  Forall regular rb ∧ Forall regular rs.
Proof.
  intros HB HS Hp.
  destruct (decide (buys = [] ∨ sells = [])) as [He|Hne].
  { unfold pass_result in Hp.
    rewrite decide_True in Hp by (destruct He as [-> | ->]; auto).
    by injection Hp as <- <- _. }
  apply pass_result_sorted in Hp as (c & Hc & [= -> -> _]); [|tauto..].
  assert (∀ src, Forall regular src → Forall (λ o, quantity o ≤ INT_MAX) src) as Hq
    by (intros src H; eapply Forall_impl; [exact H|];
        intros o (_ & _ & ?); cbv beta; lia).
  apply cross_loop_ok in Hc as (_ & _ & Hfb & Hfs & _);
    [|apply sorted_quantities; by apply Hq..].
  assert (∀ (src sorted0 sorted : list Order),
            Forall regular src → (∀ o, o ∈ sorted0 → o ∈ src) →
            Forall2 filled sorted0 sorted → Forall regular (remaining sorted))
    as Hrem.
  { intros src sorted0 sorted Hsrc Hsub HF. apply Forall_forall.
    intros o' [Hpos Ho']%list_elem_of_filter.
    destruct (filled_regular_price _ _ _ _ Hsrc Hsub HF Ho') as [Hw Hr].
    apply list_elem_of_lookup in Ho' as [k Hk].
    destruct (Forall2_lookup_r _ _ _ _ _ HF Hk) as (o & Ho & _ & Hle).
    apply list_elem_of_lookup_2, Hsub in Ho.
    rewrite Forall_forall in Hsrc. destruct (Hsrc o Ho) as (_ & _ & Hqo).
    split; [exact Hw|]. split; [exact Hr|]. lia. }
  split.
  - exact (Hrem _ _ _ HB (bucket_sort_subset _ _) Hfb).
  - exact (Hrem _ _ _ HS (bucket_sort_subset _ _) Hfs).
Qed.

Lemma run_call_regular (n : Z) (c : call) (s : state) :
  book_ready n s → book_regular s →
  call_in_range c → call_regular c → call_cost c ≤ n →
  ∃ s', run_call c s = Ok s' ∧ book_ready (n - call_cost c) s' ∧ book_regular s'.
Proof.
  intros Hready Hreg Hrange Hcr Hcost.
  destruct (run_call_ready n c s Hready Hrange Hcost) as (s' & Hrun & Hready').
  exists s'. split; [exact Hrun|]. split; [exact Hready'|].
  destruct c as [orderType t quantity p|t];
    cbn [run_call call_cost call_in_range call_regular] in *.
  - destruct (addOrder_contents n orderType t quantity p s Hready Hcost Hrange)
      as (s'' & Hadd & Hcont).
    rewrite Hrun in Hadd. injection Hadd as <-.
    intros u Hu. specialize (Hreg u Hu). apply Forall_app in Hreg as [Hb Hs].
    destruct (Hcont u) as [[-> | ->] [-> | ->]];
      repeat (apply Forall_app; split); try assumption;
      by apply Forall_singleton.
  - destruct (matchOrders_pass_result s t (book_ready_ticker n s t Hready Hcost Hrange))
      as (s'' & Hm & Hp & Hothers).
    rewrite Hrun in Hm. injection Hm as <-.
    intros u Hu. specialize (Hreg u Hu).
    destruct (decide (Z.to_nat u = Z.to_nat t)) as [E|Hne].
    + assert (u = t) as -> by lia.
      apply Forall_app in Hreg as [Hb Hs].
      destruct (pass_result_regular _ _ _ _ _ _ _ Hb Hs Hp) as [Hb' Hs'].
      apply Forall_app. by split.
    + destruct (Hothers (Z.to_nat u) Hne) as [Eb Es].
      unfold buy_contents, sell_contents in *. by rewrite Eb, Es.
Qed.

(** X15. In a run of [addOrder] and [matchOrders] calls by one thread
    that starts from a book of regular orders, and in which every order
    submitted is regular (as the orders of the producers are), every
    order published in the book is regular after the run: a whole price
    in 10..1000 and a positive [int] quantity. *)
Theorem run_calls_regular (n : Z) (cs : list call) (s : state) :
  book_ready n s → book_regular s →
  Forall call_in_range cs → Forall call_regular cs → calls_cost cs ≤ n →
  ∃ s', run_calls cs s = Ok s' ∧ book_regular s'.
Proof.
  revert n s. induction cs as [|c cs IH]; intros n s Hready Hreg Hrange Hcr Hcost.
  - by exists s.
  - apply Forall_cons in Hrange as [Hc Hcs]. apply Forall_cons in Hcr as [Hr Hrs].
    cbn [calls_cost foldr] in Hcost. fold (calls_cost cs) in Hcost.
    assert (0 ≤ calls_cost cs) as Hpos.
    { clear. induction cs as [|c cs IH]; cbn [calls_cost foldr]; [lia|].
      fold (calls_cost cs). destruct c; cbn [call_cost]; unfold QUEUE_CAPACITY; lia. }
    destruct (run_call_regular n c s Hready Hreg Hc Hr) as (s1 & Hrun & Hready1 & Hreg1);
      [lia|].
    destruct (IH (n - call_cost c) s1 Hready1 Hreg1 Hcs Hrs) as (s' & Hruns & Hreg');
      [lia|].
    exists s'. cbn [run_calls]. rewrite Hrun. cbn [mbind res_bind].
    split; [exact Hruns|exact Hreg'].
Qed.

(** ** The matcher's sweep over all tickers *)

Lemma cross_step_with_output (t : Z) (out : list event) (c : cross_state) :
  cross_step t (with_output out c) = with_output out <$> cross_step t c.
Proof.
  unfold cross_step, with_output. cbn [sortedBuy sortedSell buy_i sell_j printed].
  destruct (sortedBuy c !! buy_i c) as [b|]; [|reflexivity].
  destruct (sortedSell c !! sell_j c) as [s|]; [|reflexivity].
  destruct (double_ge (price b) (price s)); [|reflexivity].
  cbn [fmap option_fmap option_map sortedBuy sortedSell buy_i sell_j printed].
  by rewrite app_assoc.
Qed.

Lemma cross_loop_with_output (fuel : nat) (t : Z) (out : list event)
    (c : cross_state) :
  cross_loop fuel t (with_output out c)
  = match cross_loop fuel t c with
    | Ok c' => Ok (with_output out c')
    | Fault f => Fault f
    end.
Proof.
  revert c. induction fuel as [|fuel IH]; intros c; cbn [cross_loop];
    rewrite cross_step_with_output;
    destruct (cross_step t c) as [c1|]; cbn [fmap option_fmap option_map];
    try reflexivity.
  apply IH.
Qed.

(** What was printed before a pass does not matter to it. *)
Lemma pass_result_output (t : Z) (buys sells : list Order) (out : list event) :
  pass_result t buys sells out
  = match pass_result t buys sells [] with
    | Ok (rb, rs, trades) => Ok (rb, rs, out ++ trades)
    | Fault f => Fault f
    end.
Proof.
  unfold pass_result. destruct (decide _); [by rewrite app_nil_r|].
  cbv zeta.
  replace {| sortedBuy := bucket_sort prices_descending buys;
             sortedSell := bucket_sort prices_ascending sells;
             buy_i := 0; sell_j := 0; printed := out |}
    with (with_output out
            {| sortedBuy := bucket_sort prices_descending buys;
               sortedSell := bucket_sort prices_ascending sells;
               buy_i := 0; sell_j := 0; printed := [] |})
    by (unfold with_output; cbn [sortedBuy sortedSell buy_i sell_j printed];
        by rewrite app_nil_r).
  rewrite cross_loop_with_output.
  destruct (cross_loop _ _ _) as [c|]; reflexivity.
Qed.

Lemma pass_result_trades (s s' : state) (t : Z) :
  pass_result t (buy_contents s t) (sell_contents s t) (stdout s)
  = Ok (buy_contents s' t, sell_contents s' t, stdout s') →
  pass_result t (buy_contents s t) (sell_contents s t) []
  = Ok (buy_contents s' t, sell_contents s' t, pass_trades t s) ∧
  stdout s' = stdout s ++ pass_trades t s.
Proof.
  rewrite pass_result_output. unfold pass_trades.
  destruct (pass_result t (buy_contents s t) (sell_contents s t) [])
    as [[[rb rs] trades]|]; [|done].
  intros [= <- <- <-]. by split.
Qed.

Lemma sweep_over_cons (t : Z) (ts : list Z) (s s1 : state) :
  matchOrders t s = Ok s1 → sweep_over (t :: ts) s = sweep_over ts s1.
Proof. intros H. unfold sweep_over. cbn [foldl mbind res_bind]. by rewrite H. Qed.

(** Tickers whose queues are the same in two states. *)
Lemma same_queues_ticker (s s' : state) (u : Z) :
  buyQueues (book s') !! Z.to_nat u = buyQueues (book s) !! Z.to_nat u →
  sellQueues (book s') !! Z.to_nat u = sellQueues (book s) !! Z.to_nat u →
  (ticker_ready s u → ticker_ready s' u) ∧
  buy_contents s' u = buy_contents s u ∧
  sell_contents s' u = sell_contents s u ∧
  pass_trades u s' = pass_trades u s.
Proof.
  intros Eb Es. unfold ticker_ready, pass_trades, buy_contents, sell_contents.
  rewrite Eb, Es. done.
Qed.

(** Passes on distinct tickers do not meet: each ticker is left as a
    pass on it alone would leave it, and the output is the trades of the
    tickers one after the other. *)
Lemma sweep_over_spec (ts : list Z) (s : state) :
  NoDup ts → (∀ t, t ∈ ts → ticker_ready s t) →
  ∃ s', sweep_over ts s = Ok s' ∧
    stdout s' = stdout s ++ (ts ≫= λ t, pass_trades t s) ∧
    (∀ t, t ∈ ts →
       pass_result t (buy_contents s t) (sell_contents s t) []
       = Ok (buy_contents s' t, sell_contents s' t, pass_trades t s)) ∧
    (∀ i : nat, (∀ t, t ∈ ts → Z.to_nat t ≠ i) →
       buyQueues (book s') !! i = buyQueues (book s) !! i ∧
       sellQueues (book s') !! i = sellQueues (book s) !! i).
Proof.
  revert s. induction ts as [|t ts IH]; intros s Hnd Hready.
  - exists s. split; [reflexivity|]. split; [by rewrite app_nil_r|].
    split; [by intros t ?%elem_of_nil|done].
  - apply NoDup_cons in Hnd as [Ht Hnd].
    pose proof (Hready t ltac:(by left)) as Hrt.
    destruct (matchOrders_pass_result s t Hrt) as (s1 & Hm & Hp & Hothers).
    apply pass_result_trades in Hp as [Hp Hout].
    assert (∀ u, u ∈ ts → Z.to_nat u ≠ Z.to_nat t) as Hdiff.
    { intros u Hu E. pose proof (Hready u ltac:(by right)) as [Hur _].
      destruct Hrt as [Htr _]. assert (u = t) by lia. by subst. }
    assert (∀ u, u ∈ ts →
              (ticker_ready s u → ticker_ready s1 u) ∧
              buy_contents s1 u = buy_contents s u ∧
              sell_contents s1 u = sell_contents s u ∧
              pass_trades u s1 = pass_trades u s) as Hsame.
    { intros u Hu. destruct (Hothers (Z.to_nat u) (Hdiff u Hu)) as [Eb Es].
      by apply same_queues_ticker. }
    destruct (IH s1 Hnd) as (s' & Hsw & Hout' & Hres & Hframe).
    { intros u Hu. apply (Hsame u Hu), Hready. by right. }
    exists s'. split; [by rewrite (sweep_over_cons _ _ _ _ Hm)|].
    split; [|split].
    + rewrite Hout', Hout, <-app_assoc. f_equal. cbn [mbind list_bind]. f_equal.
      clear -Hsame. induction ts as [|u ts IH]; [reflexivity|].
      cbn [mbind list_bind]. destruct (Hsame u ltac:(by left)) as (_ & _ & _ & ->).
      f_equal. apply IH. intros v Hv. apply Hsame. by right.
    + intros u [->|Hu]%elem_of_cons.
      * destruct (Hframe (Z.to_nat t)) as [Eb Es];
          [intros v Hv; by apply Hdiff|].
        unfold buy_contents, sell_contents in *. by rewrite Eb, Es.
      * destruct (Hsame u Hu) as (_ & Eb & Es & Et).
        rewrite <-Eb, <-Es, <-Et. by apply Hres.
    + intros i Hi.
      destruct (Hframe i) as [Eb Es]; [intros v Hv; apply Hi; by right|].
      destruct (Hothers i) as [Eb' Es']; [intros E; by apply (Hi t); [left|]|].
      split; congruence.
Qed.

(** A sweep over distinct tickers returns; the queues of the tickers it
    passes over are replaced by well-formed queues whose reservation
    counters grew by at most [QUEUE_CAPACITY], the others are the same. *)
Lemma sweep_over_counters (ts : list Z) (s : state) :
  NoDup ts → (∀ t, t ∈ ts → 0 ≤ t < NUM_TICKERS) →
  length (buyQueues (book s)) = Z.to_nat NUM_TICKERS →
  length (sellQueues (book s)) = Z.to_nat NUM_TICKERS →
  (∀ (i : nat) q,
     buyQueues (book s) !! i = Some q ∨ sellQueues (book s) !! i = Some q →
     queue_wf q ∧
     (i ∈ Z.to_nat <$> ts → tailReservation q + QUEUE_CAPACITY ≤ INT_MAX)) →
  ∃ s', sweep_over ts s = Ok s' ∧
    length (buyQueues (book s')) = Z.to_nat NUM_TICKERS ∧
    length (sellQueues (book s')) = Z.to_nat NUM_TICKERS ∧
    ∀ (i : nat) q',
      (buyQueues (book s') !! i = Some q' →
       ∃ q, buyQueues (book s) !! i = Some q ∧ queue_wf q' ∧
            tailReservation q' ≤ tailReservation q + QUEUE_CAPACITY ∧
            (i ∉ Z.to_nat <$> ts → q' = q)) ∧
      (sellQueues (book s') !! i = Some q' →
       ∃ q, sellQueues (book s) !! i = Some q ∧ queue_wf q' ∧
            tailReservation q' ≤ tailReservation q + QUEUE_CAPACITY ∧
            (i ∉ Z.to_nat <$> ts → q' = q)).
Proof.
  assert (0 ≤ QUEUE_CAPACITY) as Hcap by (unfold QUEUE_CAPACITY; lia).
  revert s. induction ts as [|t ts IH]; intros s Hnd Hrange Hlb Hls Hall.
  - exists s. split; [reflexivity|]. split; [exact Hlb|]. split; [exact Hls|].
    intros i q'. split; intros Hq; exists q'.
    + destruct (Hall i q' (or_introl Hq)) as [Hwf _].
      split; [exact Hq|]. split; [exact Hwf|]. split; [lia|done].
    + destruct (Hall i q' (or_intror Hq)) as [Hwf _].
      split; [exact Hq|]. split; [exact Hwf|]. split; [lia|done].
  - apply NoDup_cons in Hnd as [Ht Hnd].
    pose proof (Hrange t ltac:(by left)) as Htr.
    destruct (lookup_lt_is_Some_2 (buyQueues (book s)) (Z.to_nat t)) as [bq Hbq];
      [unfold NUM_TICKERS in *; lia|].
    destruct (lookup_lt_is_Some_2 (sellQueues (book s)) (Z.to_nat t)) as [sq Hsq];
      [unfold NUM_TICKERS in *; lia|].
    assert (Z.to_nat t ∈ Z.to_nat <$> t :: ts) as Hhere
      by (rewrite fmap_cons; apply list_elem_of_here).
    destruct (Hall _ bq (or_introl Hbq)) as [Hbwf Hbn]. specialize (Hbn Hhere).
    destruct (Hall _ sq (or_intror Hsq)) as [Hswf Hsn]. specialize (Hsn Hhere).
    assert (ticker_ready s t) as Hready.
    { split; [exact Htr|]. split; [exists bq|exists sq];
        (split; [assumption|split; assumption]). }
    destruct (matchOrders_queues s t Hready)
      as (bq0 & sq0 & bq' & sq' & out & Hbq0 & Hsq0 & Hm & Hbwf' & Hswf' & Hbr & Hsr).
    rewrite Hbq in Hbq0. injection Hbq0 as <-.
    rewrite Hsq in Hsq0. injection Hsq0 as <-.
    rewrite (sweep_over_cons _ _ _ _ Hm).
    assert (Z.to_nat t ∉ Z.to_nat <$> ts) as Hnotin.
    { intros (u & E & Hu)%list_elem_of_fmap.
      pose proof (Hrange u ltac:(by right)). assert (u = t) by lia. by subst. }
    destruct (IH {| book := {| buyQueues := <[Z.to_nat t := bq']> (buyQueues (book s));
                               sellQueues := <[Z.to_nat t := sq']> (sellQueues (book s)) |};
                    stdout := out |} Hnd) as (s' & Hsw & Hlb' & Hls' & Hrel).
    + intros u Hu. apply Hrange. by right.
    + cbn [book buyQueues]. by rewrite length_insert.
    + cbn [book sellQueues]. by rewrite length_insert.
    + cbn [book buyQueues sellQueues]. intros i q Hq.
      destruct (decide (i = Z.to_nat t)) as [->|Hne].
      * rewrite !list_lookup_insert_eq in Hq by (by eapply lookup_lt_Some).
        destruct Hq as [[= <-]|[= <-]]; (split; [assumption|done]).
      * rewrite !list_lookup_insert_ne in Hq by done.
        destruct (Hall i q Hq) as [Hwf Hb]. split; [exact Hwf|].
        intros Hin. apply Hb. rewrite fmap_cons. by right.
    + exists s'. split; [exact Hsw|]. split; [exact Hlb'|]. split; [exact Hls'|].
      cbn [book buyQueues sellQueues] in Hrel.
      intros i q'. destruct (Hrel i q') as [Hrb Hrs].
      assert (∀ ts' : list nat, i ∉ Z.to_nat t :: ts' → i ∉ ts') as Htail
        by (intros ts' Hni Hin; apply Hni; by right).
      split; intros Hq.
      * destruct (Hrb Hq) as (q1 & Hq1 & Hwf' & Hres & Hsame).
        destruct (decide (i = Z.to_nat t)) as [->|Hne].
        -- rewrite list_lookup_insert_eq in Hq1 by (by eapply lookup_lt_Some).
           injection Hq1 as <-. rewrite (Hsame Hnotin).
           exists bq. split; [exact Hbq|]. split; [exact Hbwf'|].
           split; [exact Hbr|]. intros Hni. destruct Hni. exact Hhere.
        -- rewrite list_lookup_insert_ne in Hq1 by done.
           exists q1. split; [exact Hq1|]. split; [exact Hwf'|]. split; [exact Hres|].
           rewrite fmap_cons. intros Hni. apply Hsame. by apply Htail.
      * destruct (Hrs Hq) as (q1 & Hq1 & Hwf' & Hres & Hsame).
        destruct (decide (i = Z.to_nat t)) as [->|Hne].
        -- rewrite list_lookup_insert_eq in Hq1 by (by eapply lookup_lt_Some).
           injection Hq1 as <-. rewrite (Hsame Hnotin).
           exists sq. split; [exact Hsq|]. split; [exact Hswf'|].
           split; [exact Hsr|]. intros Hni. destruct Hni. exact Hhere.
        -- rewrite list_lookup_insert_ne in Hq1 by done.
           exists q1. split; [exact Hq1|]. split; [exact Hwf'|]. split; [exact Hres|].
           rewrite fmap_cons. intros Hni. apply Hsame. by apply Htail.
Qed.

Lemma matcher_sweep_spec (n : Z) (s : state) :
  book_ready n s → QUEUE_CAPACITY ≤ n →
  ∃ s', matcher_sweep s = Ok s' ∧
    book_ready (n - QUEUE_CAPACITY) s' ∧
    counters_within QUEUE_CAPACITY s s' ∧
    stdout s' = stdout s ++ (seqZ 0 NUM_TICKERS ≫= λ t, pass_trades t s) ∧
    ∀ t, 0 ≤ t < NUM_TICKERS →
      pass_result t (buy_contents s t) (sell_contents s t) []
      = Ok (buy_contents s' t, sell_contents s' t, pass_trades t s).
Proof.
  intros Hready Hn.
  assert (0 ≤ QUEUE_CAPACITY) as Hcap by (unfold QUEUE_CAPACITY; lia).
  assert (∀ t, t ∈ seqZ 0 NUM_TICKERS → 0 ≤ t < NUM_TICKERS) as Hrange
    by (intros t Ht%elem_of_seqZ; lia).
  destruct (sweep_over_spec (seqZ 0 NUM_TICKERS) s (NoDup_seqZ _ _))
    as (s' & Hsw & Hout & Hres & _).
  { intros t Ht. by apply (book_ready_ticker n); [| |apply Hrange]. }
  pose proof Hready as (Hlb & Hls & [Hb Hs]%Forall_app).
  destruct (sweep_over_counters (seqZ 0 NUM_TICKERS) s (NoDup_seqZ _ _) Hrange Hlb Hls)
    as (s'' & Hsw' & Hlb' & Hls' & Hrel).
  { intros i q [Hq|Hq].
    - destruct (Forall_lookup_1 _ _ _ _ Hb Hq) as [Hwf Hbud]. split; [exact Hwf|lia].
    - destruct (Forall_lookup_1 _ _ _ _ Hs Hq) as [Hwf Hbud]. split; [exact Hwf|lia]. }
  unfold matcher_sweep. fold (sweep_over (seqZ 0 NUM_TICKERS) s).
  rewrite Hsw in Hsw'. injection Hsw' as <-.
  exists s'. split; [exact Hsw|]. split; [|split; [|split; [exact Hout|]]].
  - split; [exact Hlb'|]. split; [exact Hls'|].
    apply Forall_app. split; apply Forall_lookup; intros i q' Hq'.
    + destruct (proj1 (Hrel i q') Hq') as (q & Hq & Hwf' & Hle & _).
      destruct (Forall_lookup_1 _ _ _ _ Hb Hq) as [_ Hbud]. split; [exact Hwf'|lia].
    + destruct (proj2 (Hrel i q') Hq') as (q & Hq & Hwf' & Hle & _).
      destruct (Forall_lookup_1 _ _ _ _ Hs Hq) as [_ Hbud]. split; [exact Hwf'|lia].
  - intros i q q' [[Hq Hq']|[Hq Hq']].
    + destruct (proj1 (Hrel i q') Hq') as (q0 & Hq0 & _ & Hle & _).
      rewrite Hq in Hq0. by injection Hq0 as <-.
    + destruct (proj2 (Hrel i q') Hq') as (q0 & Hq0 & _ & Hle & _).
      rewrite Hq in Hq0. by injection Hq0 as <-.
  - intros t Ht. apply Hres, elem_of_seqZ. lia.
Qed.

(** The state with two crossing buy and sell orders on ticker 7 is a
    well-formed book of regular orders. *)
Lemma crossing_state_ready :
  book_ready (INT_MAX - 4) crossing_state ∧ book_regular crossing_state.
Proof.
  assert (∀ n q p, 1 ≤ q ≤ 500 → 10 ≤ p ≤ 1000 → 1 ≤ n →
            ∀ ty s, book_ready n s → book_regular s →
            ∃ s', addOrder ty 7 q (double_of_int p) s = Ok s' ∧
                  book_ready (n - 1) s' ∧ book_regular s') as Hadd.
  { intros n q p Hq Hp Hn ty s Hready Hreg.
    apply (run_call_regular n (Submit ty 7 q (double_of_int p)) s Hready Hreg).
    - intros _. unfold NUM_TICKERS. lia.
    - cbn [call_regular]. destruct (whole_price_facts p p Hp Hp) as [Hint _].
      unfold regular, int_price. cbn [price quantity]. rewrite Hint.
      split; [reflexivity|]. split; [lia|]. unfold INT_MAX. lia.
    - cbn [call_cost]. lia. }
  destruct (Hadd INT_MAX 20 100 ltac:(lia) ltac:(lia) ltac:(unfold INT_MAX; lia)
              "B"%char initial_state (initial_state_ready INT_MAX ltac:(lia))
              initial_state_regular) as (s1 & H1 & R1 & G1).
  destruct (Hadd (INT_MAX - 1) 10 90 ltac:(lia) ltac:(lia) ltac:(unfold INT_MAX; lia)
              "B"%char s1 R1 G1) as (s2 & H2 & R2 & G2).
  destruct (Hadd (INT_MAX - 1 - 1) 15 95 ltac:(lia) ltac:(lia)
              ltac:(unfold INT_MAX; lia) "S"%char s2 R2 G2) as (s3 & H3 & R3 & G3).
  destruct (Hadd (INT_MAX - 1 - 1 - 1) 25 100 ltac:(lia) ltac:(lia)
              ltac:(unfold INT_MAX; lia) "S"%char s3 R3 G3) as (s4 & H4 & R4 & G4).
  unfold crossing_state. rewrite H1. cbn [mbind res_bind].
  rewrite H2. cbn [mbind res_bind]. rewrite H3. cbn [mbind res_bind].
  rewrite H4. cbn [state_after].
  split; [|exact G4].
  by replace (INT_MAX - 4) with (INT_MAX - 1 - 1 - 1 - 1) by lia.
Qed.

(** X16. One sweep of the matcher over all tickers, run with no other
    thread active on a well-formed book, returns; each ticker is left
    with what a pass on it alone computes from the orders it held, the
    output grows by the trades of the tickers in ticker order, the book
    stays well-formed and no reservation counter grows by more than
    [QUEUE_CAPACITY]. *)
Theorem matcher_sweep_independent (n : Z) (s : state) :
  book_ready n s → QUEUE_CAPACITY ≤ n →
  ∃ s', matcher_sweep s = Ok s' ∧
    book_ready (n - QUEUE_CAPACITY) s' ∧
    counters_within QUEUE_CAPACITY s s' ∧
    stdout s' = stdout s ++ (seqZ 0 NUM_TICKERS ≫= λ t, pass_trades t s) ∧
    ∀ t, 0 ≤ t < NUM_TICKERS →
      pass_result t (buy_contents s t) (sell_contents s t) []
      = Ok (buy_contents s' t, sell_contents s' t, pass_trades t s).
Proof. apply matcher_sweep_spec. Qed.

Lemma matcher_sweep_independent_witness :
  ∃ s', matcher_sweep crossing_state = Ok s' ∧
    book_ready (INT_MAX - 4 - QUEUE_CAPACITY) s' ∧
    counters_within QUEUE_CAPACITY crossing_state s' ∧
    stdout s' = stdout crossing_state
                ++ (seqZ 0 NUM_TICKERS ≫= λ t, pass_trades t crossing_state) ∧
    ∀ t, 0 ≤ t < NUM_TICKERS →
      pass_result t (buy_contents crossing_state t) (sell_contents crossing_state t) []
      = Ok (buy_contents s' t, sell_contents s' t, pass_trades t crossing_state).
Proof.
  apply (matcher_sweep_independent (INT_MAX - 4) crossing_state).
  - exact (proj1 crossing_state_ready).
  - by_evaluation.
Defined.




Lemma run_calls_regular_witness :
  ∃ s', run_calls [Submit "B" 7 20 (double_of_int 100);
                   Submit "S" 7 5 (double_of_int 90); Pass 7] initial_state = Ok s' ∧
        book_regular s'.
Proof.
  apply (run_calls_regular INT_MAX).
  - apply initial_state_ready. by_evaluation.
  - exact initial_state_regular.
  - repeat apply Forall_cons_2; try apply Forall_nil_2; cbn [call_in_range].
    + intros _. split; by_evaluation.
    + intros _. split; by_evaluation.
    + split; by_evaluation.
  - repeat apply Forall_cons_2; try apply Forall_nil_2;
      unfold call_regular, regular; split_conjunctions; by_evaluation.
  - by_evaluation.
Defined.


(** X18. A producer thread run with no other thread active on a
    well-formed book makes one [addOrder] call for each load of
    [running] that returns true, with the order built from the round's
    draws, and ends at the first load that returns false: whatever
    [rand_r] returns, no call faults and the book stays well-formed;
    when every published order was regular before, every published
    order is regular after. *)
Theorem producerThread_safe (n : Z) (draws : list (Z * Z * Z * Z))
    (last : Z * Z * Z * Z) (rest : list (bool * (Z * Z * Z * Z))) (s : state) :
  book_ready n s →
  Forall draws_ok draws → Z.of_nat (length draws) ≤ n →
  ∃ s', producerThread (((λ r, (true, r)) <$> draws) ++ (false, last) :: rest) s
        = Ok s' ∧
    run_calls (submission <$> draws) s = Ok s' ∧
    book_ready (n - Z.of_nat (length draws)) s' ∧
    (book_regular s → book_regular s').
Proof.
  revert n s. induction draws as [|[[[r1 r2] r3] r4] draws IH];
    intros n s Hready Hdraws Hn.
  - exists s. split; [reflexivity|]. split; [reflexivity|]. split; [|done].
    cbn [length]. by replace (n - Z.of_nat 0) with n by lia.
  - apply Forall_cons in Hdraws as [(H1 & H2 & H3 & H4) Hdraws].
    cbn [length] in Hn.
    destruct (produced_order_facts r1 r2 r3 r4 H1 H2 H3 H4)
      as (_ & Hticker & _ & Hregular & _).
    assert (call_in_range (submission (r1, r2, r3, r4))) as Hrange
      by (intros _; exact Hticker).
    destruct (run_call_ready n (submission (r1, r2, r3, r4)) s Hready Hrange)
      as (s1 & Hrun & Hready1); [cbn [submission call_cost]; lia|].
    cbn [submission call_cost] in Hready1.
    destruct (IH (n - 1) s1 Hready1 Hdraws) as (s' & Hruns & Hcalls & Hready' & Hreg');
      [lia|].
    exists s'. cbn [fmap list_fmap app producerThread run_calls]. unfold produce.
    cbn [submission run_call] in Hrun. cbn [submission run_call].
    rewrite Hrun. cbn [mbind res_bind].
    split; [exact Hruns|]. split; [exact Hcalls|]. split.
    + cbn [length].
      by replace (n - Z.of_nat (S (length draws)))
        with (n - 1 - Z.of_nat (length draws)) by lia.
    + intros Hreg. apply Hreg'.
      destruct (run_call_regular n (submission (r1, r2, r3, r4)) s Hready Hreg Hrange)
        as (s1' & Hrun' & _ & Hreg1); [exact Hregular|cbn [submission call_cost]; lia|].
      cbn [submission run_call] in Hrun'. rewrite Hrun in Hrun'.
      by injection Hrun' as <-.
Qed.

Lemma producerThread_safe_witness :
  ∃ s', producerThread (((λ r, (true, r)) <$> [(1804289383, 846930886, 1681692777, 1714636915);
                                               (0, 2147483647, 499, 990)])
                        ++ (false, (0, 0, 0, 0)) :: []) crossing_state = Ok s' ∧
    run_calls (submission <$> [(1804289383, 846930886, 1681692777, 1714636915);
                               (0, 2147483647, 499, 990)]) crossing_state = Ok s' ∧
    book_ready (INT_MAX - 4
                - Z.of_nat (length [(1804289383, 846930886, 1681692777, 1714636915);
                                    (0, 2147483647, 499, 990)])) s' ∧
    (book_regular crossing_state → book_regular s').
Proof.
  apply (producerThread_safe (INT_MAX - 4)).
  - exact (proj1 crossing_state_ready).
  - repeat apply Forall_cons_2; try apply Forall_nil_2;
      unfold draws_ok, RAND_MAX; lia.
  - by_evaluation.
Defined.

(** X19. [matchOrders] does not check the ticker: called with a ticker
    that is not an index of the arrays of [NUM_TICKERS] queues, it reads
    outside the array of buy queues. *)
Theorem matchOrders_ticker_out_of_bounds (t : Z) (s : state) :
  length (buyQueues (book s)) = Z.to_nat NUM_TICKERS →
  t < 0 ∨ NUM_TICKERS ≤ t →
  matchOrders t s = Fault OutOfBounds.
Proof.
  intros Hlb Ht. unfold matchOrders, matchOrders_drain, at_ticker, array_get.
  destruct (decide (0 ≤ t)); [|reflexivity].
  rewrite (lookup_ge_None_2 (buyQueues (book s))) by lia. reflexivity.
Qed.

Lemma matchOrders_ticker_out_of_bounds_witness :
  matchOrders (-1) initial_state = Fault OutOfBounds.
Proof.
  apply (matchOrders_ticker_out_of_bounds (-1) initial_state).
  - by_evaluation.
  - left. by_evaluation.
Defined.
